(** * goq: declarative decoding of HTML selections into Go values

    A shallow embedding of [unmarshal.go] and of the indirection helper
    ([indirect], [TypeDeref]) of package [goq], followed by the properties
    of the tag grammar, of the value-function resolver, of the map key
    search and of the type dispatcher.

    Conventions of the embedding:
    - a Go [string] is a Rocq [string] (a sequence of bytes);
    - a run-time panic of the Go program is the outcome [Panic];
    - the package-level cache [vfCache] is threaded explicitly (monad [M]);
    - [reflect.Type] is the inductive [GoType], [reflect.Value] of an
      addressable destination is a [Value] that the decoder returns updated;
      a pointer owns its pointee, and an interface owns the pointer it holds;
    - the goquery provider (selector matching, rendering, the methods that
      a directive may call), package [strconv] and the user's
      [UnmarshalHTML] methods are fields of the record [World]. *)

From stdpp Require Import gmap strings list.
From Stdlib Require Import ZArith Ascii.

Set Warnings "-register-all,-clear-no-such-hyp".

Open Scope string_scope.
Open Scope list_scope.
Open Scope nat_scope.

(** ** Outcomes of Go code *)

Inductive PanicKind : Type :=
| IndexOutOfRange      (* s[i] or arr[i] with i out of range *)
| SliceBounds          (* s[lo:hi] with lo > hi *)
| ReflectSet           (* reflect.Value.Set / Append / SetMapIndex: type not assignable *)
| ReflectCall.         (* reflect.Value.Call with too few arguments, or result[0] of no results *)

Inductive Outcome (A : Type) : Type :=
| Ret (a : A)
| Panic (k : PanicKind)
| Stuck                (* a value that does not have the shape of its type: no Go execution *)
| OutOfFuel.           (* the recursion budget of the model is exhausted *)

Arguments Ret {A} a.
Arguments Panic {A} k.
Arguments Stuck {A}.
Arguments OutOfFuel {A}.

Definition outcome_bind {A B : Type} (f : A → Outcome B) (m : Outcome A) : Outcome B :=
  match m with
  | Ret a => f a
  | Panic k => Panic k
  | Stuck => Stuck
  | OutOfFuel => OutOfFuel
  end.

#[global] Instance outcome_ret : MRet Outcome := @Ret.
#[global] Instance outcome_mbind : MBind Outcome := @outcome_bind.

(** ** Package [strings] *)

Definition comma : ascii := ","%char.

(** [strings.Split(s, ",")]: the pieces of [s] between the commas; the empty
    string gives one empty piece. *)
Fixpoint Split (s : string) (sep : ascii) : list string :=
  match s with
  | EmptyString => [EmptyString]
  | String c s' =>
      if Ascii.eqb c sep then EmptyString :: Split s' sep
      else match Split s' sep with
           | tok :: rest => String c tok :: rest
           | [] => [String c EmptyString]
           end
  end.

(** [strings.Join(l, sep)] *)
Definition Join (l : list string) (sep : string) : string := String.concat sep l.

(** ** Tags *)

Definition goqueryTag : Type := string.

Definition prePfx : ascii := "!"%char.
Definition ignoreTag : goqueryTag := "!ignore".

(** [arr[offset][0] == prePfx], which panics on an empty [arr[offset]]. *)
Definition firstIsPrefix (tok : string) : Outcome bool :=
  match tok with
  | EmptyString => Panic IndexOutOfRange
  | String c _ => Ret (Ascii.eqb c prePfx)
  end.

(** The loop of [selector]:
    [for len(arr) > offset && arr[offset][0] == prePfx { offset++ }],
    run on the tokens from [offset] on. *)
Fixpoint selectorOffset (rest : list string) (offset : nat) : Outcome nat :=
  match rest with
  | [] => Ret offset
  | tok :: rest' =>
      b ← firstIsPrefix tok;
      if b : bool then selectorOffset rest' (S offset) else Ret offset
  end.

Definition selector (tag : goqueryTag) (which : nat) : Outcome string :=
  let arr := Split tag comma in
  if (length arr - 1 <? which)%nat then Ret ""
  else
    offset ← selectorOffset arr 0;
    match arr !! (which + offset) with
    | Some tok => Ret tok
    | None => Panic IndexOutOfRange
    end.

(** [popVal] *)
Definition popVal (tag : goqueryTag) : goqueryTag :=
  let arr := Split tag comma in
  if (length arr <? 2)%nat then tag
  else
    match arr with
    | a0 :: _ => Join ([a0] ++ drop 2 arr) ","
    | [] => tag
    end.

(** ** Value functions *)

(** The three closures that [valFunc] can return: [textVal], [htmlVal] and
    [attrFunc attr]. *)
Inductive valFn : Type :=
| textVal
| htmlVal
| attrFunc (attr : string).

#[global] Instance valFn_eq_dec : EqDecision valFn.
Proof. solve_decision. Defined.

(** The cache [vfCache] guarded by [vfMut]; the decoder is a state
    transformer on it. *)
Definition M (A : Type) : Type := gmap string valFn → Outcome (A * gmap string valFn).

Definition m_ret {A : Type} (a : A) : M A := λ c, Ret (a, c).
Definition m_bind {A B : Type} (f : A → M B) (m : M A) : M B :=
  λ c, match m c with
       | Ret (a, c') => f a c'
       | Panic k => Panic k
       | Stuck => Stuck
       | OutOfFuel => OutOfFuel
       end.
Definition lift {A : Type} (o : Outcome A) : M A :=
  λ c, match o with
       | Ret a => Ret (a, c)
       | Panic k => Panic k
       | Stuck => Stuck
       | OutOfFuel => OutOfFuel
       end.

#[global] Instance m_mret : MRet M := @m_ret.
#[global] Instance m_mbind : MBind M := @m_bind.

(** [src[1 : len(src)-1]] for a [src] that starts with a byte: panics when
    [src] is that byte alone. *)
Definition attrName (src : string) : Outcome string :=
  if (String.length src - 1 <? 1)%nat then Panic SliceBounds
  else Ret (String.substring 1 (String.length src - 2) src).

(** The body of [valFunc] after the cache lookup has failed. *)
Definition resolveValFunc (tag : goqueryTag) : Outcome valFn :=
  let srcArr := Split tag comma in
  if (length srcArr <? 2)%nat then Ret textVal
  else
    match srcArr !! 1 with
    | None => Stuck
    | Some src =>
        match src with
        | EmptyString => Panic IndexOutOfRange
        | String c _ =>
            if Ascii.eqb c "["%char then
              attr ← attrName src; Ret (attrFunc attr)
            else if String.eqb src "html" then Ret htmlVal
            else if String.eqb src "text" then Ret textVal
            else Ret textVal
        end
    end.

Definition valFunc (tag : goqueryTag) : M valFn :=
  λ c, match c !! tag with
       | Some fn => Ret (fn, c)
       | None =>
           match resolveValFunc tag with
           | Ret f => Ret (f, <[tag := f]> c)
           | Panic k => Panic k
           | Stuck => Stuck
           | OutOfFuel => OutOfFuel
           end
       end.

(** ** Documents and selections *)

(** [html.Node]: element nodes and text nodes. *)
Inductive Node : Type :=
| Element (name : string) (attrs : list (string * string)) (kids : list Node)
| Text (data : string).

(** A [*html.Node] of a document is the list of child indices that leads to
    it from the root; [goquery.Selection] is its field [Nodes]. *)
Definition NodePtr : Type := list nat.
Definition Selection : Type := list NodePtr.

Definition isElement (n : Node) : bool :=
  match n with Element _ _ _ => true | Text _ => false end.

Fixpoint nodeAt (doc : Node) (p : NodePtr) : option Node :=
  match p with
  | [] => Some doc
  | i :: p' =>
      match doc with
      | Element _ _ kids => k ← kids !! i; nodeAt k p'
      | Text _ => None
      end
  end.

(** goquery's [appendWithoutDuplicates(target, nodes, nil)]: the nodes that
    are not yet in [target] are appended, each once, in their order. It is
    what [mapNodes] builds the result of [Children], [Find] and [Parent]
    with, and what [AddNodes] calls. *)
Fixpoint appendWithoutDuplicates (target nodes : list NodePtr) : list NodePtr :=
  match nodes with
  | [] => target
  | n :: nodes' =>
      if bool_decide (n ∈ target) then appendWithoutDuplicates target nodes'
      else appendWithoutDuplicates (target ++ [n]) nodes'
  end.

(** ** Types and values *)

(** [reflect.Type] of a destination. A struct field is its name, its
    [goquery] tag and its type; fields are exported. [TInt bits] and
    [TUint bits] are the integer kinds of that width ([int] and [uint] are 64
    bits wide), [TFloat bits] the float kinds. [TUnmarshaler] is a defined
    type whose pointer has the method [UnmarshalHTML]; [TOtherKind] stands
    for the kinds that [unmarshalLiteral] has no case for (complex, uintptr,
    chan, func); [TNodes] is [[]*html.Node]. Types are finite: a defined
    type that refers to itself is not represented. *)
Inductive GoType : Type :=
| TBool
| TInt (bits : Z)
| TUint (bits : Z)
| TFloat (bits : Z)
| TString
| TOtherKind
| TInterface (numMethod : nat)
| TNodes
| TPtr (elem : GoType)
| TStruct (fields : list (string * goqueryTag * GoType))
| TSlice (elem : GoType)
| TArray (len : nat) (elem : GoType)
| TMap (key elem : GoType)
| TUnmarshaler (name : string) (underlying : GoType).

(** What an interface value holds, as far as the decoder looks at it: a
    string, a [[]*html.Node], a non-nil pointer of type [**elem] (given by
    the pointer of type [*elem] that it points to), which is the case that
    the loop of [indirect] enters, or anything else. *)
Inductive Dyn (V : Type) : Type :=
| DString (s : string)
| DNodes (ns : list NodePtr)
| DPtrPtr (elem : GoType) (pointee : V)
| DOther.

Arguments DString {V} s.
Arguments DNodes {V} ns.
Arguments DPtrPtr {V} elem pointee.
Arguments DOther {V}.

(** The contents of a destination. A float is its IEEE-754 bit pattern;
    a pointer owns its pointee; a map is nil or a list of entries. *)
Inductive Value : Type :=
| VBool (b : bool)
| VInt (i : Z)
| VUint (u : Z)
| VFloat (bits : Z)
| VString (s : string)
| VOtherKind
| VInterface (dyn : option (Dyn Value))
| VNodes (ns : list NodePtr)
| VPtr (pointee : option Value)
| VStruct (fields : list Value)
| VSlice (elems : list Value)
| VArray (elems : list Value)
| VMap (entries : option (list (Value * Value))).

Fixpoint zero (t : GoType) : Value :=
  match t with
  | TBool => VBool false
  | TInt _ => VInt 0
  | TUint _ => VUint 0
  | TFloat _ => VFloat 0
  | TString => VString ""
  | TOtherKind => VOtherKind
  | TInterface _ => VInterface None
  | TNodes => VNodes []
  | TPtr _ => VPtr None
  | TStruct fields => VStruct (map (λ f, zero f.2) fields)
  | TSlice _ => VSlice []
  | TArray n e => VArray (replicate n (zero e))
  | TMap _ _ => VMap None
  | TUnmarshaler _ u => zero u
  end.

Definition isPtr (t : GoType) : bool :=
  match t with TPtr _ => true | _ => false end.

(** [TypeDeref] *)
Fixpoint TypeDeref (t : GoType) : GoType :=
  match t with
  | TPtr e => TypeDeref e
  | _ => t
  end.

(** ** Errors *)

(** Modelled from the spec: the reason codes of [CannotUnmarshalError]; the
    file that declares them is not among the sources, the names are the ones
    [unmarshal.go] uses. *)
Inductive Reason : Type :=
| nonPointer
| nilValue
| customUnmarshalError
| typeConversionError
| arrayLengthMismatch
| missingValueSelector
| mapKeyUnmarshalError.

Inductive FldOrIdx : Type :=
| noFldOrIdx
| fieldName (name : string)
| index (i : nat)
| mapKey (k : Value).

(** [error] values: the errors of [strconv], the errors a user's
    [UnmarshalHTML] returns, and [*CannotUnmarshalError]. The field [V] is
    the destination (its type and its contents when the error is built);
    [None] is the zero [reflect.Value]. *)
Inductive Error : Type :=
| NumError (func num : string)
| UserError (msg : string)
| CannotUnmarshalError (V : option (GoType * Value)) (reason : Reason)
    (Err : option Error) (Val : string) (fld : FldOrIdx).

(** ** The world outside the package *)

(** Result of [reflect.ValueOf(s).MethodByName(meth)] followed by
    [v.Call(nil)] and the type assertion on [result[0]]. *)
Inductive MethodResult : Type :=
| NoSuchMethod
| ReturnsSelection (sel : Selection)
| ReturnsOther
| CallPanics.

Record World : Type := {
  (* cascadia: does the node at this pointer of the document match the selector *)
  matches : string → Node → NodePtr → bool;
  (* html.Render of one node *)
  render : Node → string;
  (* strings.TrimSpace *)
  TrimSpace : string → string;
  (* the methods of *goquery.Selection, called by name without arguments *)
  callMethod : string → Node → Selection → MethodResult;
  (* strconv.ParseBool(s), ParseInt(s, 10, 64), ParseUint(s, 10, 64),
     ParseFloat(s, 64); None is a *strconv.NumError *)
  ParseBool : string → option bool;
  ParseInt : string → option Z;
  ParseUint : string → option Z;
  ParseFloat : string → option Z;
  (* the float32 nearest to a float64, both as bit patterns *)
  toFloat32 : Z → Z;
  (* Go's == on map keys *)
  keyEq : Value → Value → bool;
  (* the method UnmarshalHTML of the type of that name, run on the nodes of
     the selection and on the current contents of the receiver *)
  UnmarshalHTML : string → Node → list NodePtr → Value → Value * option Error;
}.

Section Provider.
Context (W : World) (doc : Node).

(** Pointers to the element children of the node at [p]. *)
Definition childPtrs (p : NodePtr) : list NodePtr :=
  match nodeAt doc p with
  | Some (Element _ _ kids) =>
      mjoin (imap (λ i k, if isElement k then [p ++ [i]] else []) kids)
  | _ => []
  end.

(** [s.Children()] *)
Definition Children (s : Selection) : Selection :=
  appendWithoutDuplicates [] (s ≫= childPtrs).

(** Pointers to the element descendants of [n], which sits at [p], in
    document order. *)
Fixpoint descendants (n : Node) (p : NodePtr) : list NodePtr :=
  match n with
  | Element _ _ kids =>
      (fix go (ks : list Node) (i : nat) : list NodePtr :=
         match ks with
         | [] => []
         | k :: ks' =>
             (if isElement k then [p ++ [i]] else [])
               ++ descendants k (p ++ [i]) ++ go ks' (S i)
         end) kids 0
  | Text _ => []
  end.

(** [s.Find(sel)] *)
Definition Find (s : Selection) (sel : string) : Selection :=
  appendWithoutDuplicates [] (s ≫= λ p,
    match nodeAt doc p with
    | Some n => filter (λ q, matches W sel doc q = true) (descendants n p)
    | None => []
    end).

(** [s.Filter(sel)] *)
Definition Filter (s : Selection) (sel : string) : Selection :=
  filter (λ p, matches W sel doc p = true) s.

(** [s.Eq(i)] for [i >= 0] *)
Definition Eq (s : Selection) (i : nat) : Selection :=
  match s !! i with Some p => [p] | None => [] end.

(** The text of a node: the data of its text descendants, in order. *)
Fixpoint nodeText (n : Node) : string :=
  match n with
  | Text d => d
  | Element _ _ kids => String.concat "" (map nodeText kids)
  end.

(** [s.Text()] *)
Definition SelText (s : Selection) : string :=
  String.concat "" (omap (λ p, nodeText <$> nodeAt doc p) s).

(** [s.Html()]: the rendered children of the first node. *)
Definition SelHtml (s : Selection) : string :=
  match s with
  | p :: _ =>
      match nodeAt doc p with
      | Some (Element _ _ kids) => String.concat "" (map (render W) kids)
      | _ => ""
      end
  | [] => ""
  end.

Fixpoint lookupAttr (attrs : list (string * string)) (key : string) : string :=
  match attrs with
  | [] => ""
  | (k, v) :: rest => if String.eqb k key then v else lookupAttr rest key
  end.

(** [str, _ := s.Attr(attr)] *)
Definition SelAttr (s : Selection) (attr : string) : string :=
  match s with
  | p :: _ =>
      match nodeAt doc p with
      | Some (Element _ attrs _) => lookupAttr attrs attr
      | _ => ""
      end
  | [] => ""
  end.

(** Running a value function on a selection. *)
Definition applyVal (f : valFn) (s : Selection) : string :=
  match f with
  | textVal => TrimSpace W (SelText s)
  | htmlVal => TrimSpace W (SelHtml s)
  | attrFunc attr => SelAttr s attr
  end.

(** *** [childrenUntilMatch] *)

Fixpoint height (n : Node) : nat :=
  match n with
  | Element _ _ kids => S (foldr Nat.max 0 (map height kids))
  | Text _ => 0
  end.

(** The loop
    [for s.Length() != 0 && s.Filter(sel).Length() == 0 { s = s.Children() }]. *)
Fixpoint untilMatch (fuel : nat) (s : Selection) (sel : string) : Outcome Selection :=
  if negb (length s =? 0)%nat && (length (Filter s sel) =? 0)%nat then
    match fuel with
    | 0 => OutOfFuel
    | S fuel' => untilMatch fuel' (Children s) sel
    end
  else Ret s.

Definition childrenUntilMatch (s : Selection) (sel : string) : Outcome Selection :=
  let orig := s in
  s ← untilMatch (height doc) (Children s) sel;
  if (length s =? 0)%nat then Ret orig else Ret (Filter s sel).

End Provider.

(** ** Indirection *)

(** One step on the way from a destination to the value that [indirect]
    stops at: through a pointer, or into an interface that holds a non-nil
    pointer of type [**elem] and through that pointer. *)
Inductive Step : Type :=
| viaPtr
| viaInterface (elem : GoType).

(** What [indirect] returns: an [Unmarshaler] (the receiver's type name,
    its current contents) or the value reached; [depth] is the way that was
    followed to get there. *)
Inductive Indirected : Type :=
| foundUnmarshaler (name : string) (cur : Value) (depth : list Step)
| reached (t : GoType) (v : Value) (depth : list Step).

Definition deeper (st : Step) (r : Indirected) : Indirected :=
  match r with
  | foundUnmarshaler name cur d => foundUnmarshaler name cur (st :: d)
  | reached t v d => reached t v (st :: d)
  end.

(** The destination as it is once the location at the end of the way
    [depth] holds [x]. *)
Fixpoint repoint (depth : list Step) (x : Value) : Value :=
  match depth with
  | [] => x
  | viaPtr :: d => VPtr (Some (repoint d x))
  | viaInterface elem :: d => VInterface (Some (DPtrPtr elem (repoint d x)))
  end.

(** Where the loop of [indirect] ends on a value of a type [t] that is
    neither a pointer nor an interface that the loop enters. *)
Definition arrive (t : GoType) (v : Value) : Indirected :=
  match t with
  | TUnmarshaler name _ => foundUnmarshaler name v []
  | _ => reached t v []
  end.

(** [indirect]. Every value that the decoder hands to it is a pointer or is
    addressable. A defined type with [UnmarshalHTML] is found either through
    its address ([v.Addr()], first statement) or at the pointer that leads to
    it ([v.Interface().(Unmarshaler)]): both are the case [TUnmarshaler]. An
    interface that holds a non-nil pointer to a pointer is entered ([v = e;
    continue]); the next round follows that pointer, which has no methods,
    and the loop goes on at the pointer behind it. A nil pointer is set to
    [reflect.New(TypeDeref(v.Type()))], which [reflect.Value.Set] refuses
    when the pointer has a pointer type as its element; otherwise the new
    value is a zero value that is no pointer and holds no pointer, and the
    loop ends there ([arrive]). Every other value ends the loop. *)
Fixpoint indirect (t : GoType) (v : Value) {struct v} : Outcome Indirected :=
  match t with
  | TUnmarshaler name _ => Ret (foundUnmarshaler name v [])
  | TPtr e =>
      match v with
      | VPtr (Some x) => r ← indirect e x; Ret (deeper viaPtr r)
      | VPtr None =>
          if isPtr e then Panic ReflectSet
          else Ret (deeper viaPtr (arrive e (zero e)))
      | _ => Stuck
      end
  | TInterface _ =>
      match v with
      | VInterface (Some (DPtrPtr elem x)) =>
          r ← indirect (TPtr elem) x; Ret (deeper (viaInterface elem) r)
      | _ => Ret (reached t v [])
      end
  | _ => Ret (reached t v [])
  end.

(** ** The decoder *)

(** [int8(i)], [int16(i)], ...: what [reflect.Value.SetInt] stores. *)
Definition wrapSigned (bits i : Z) : Z :=
  let r := (i mod 2 ^ bits)%Z in
  if (r <? 2 ^ (bits - 1))%Z then r else (r - 2 ^ bits)%Z.

Definition wrapUnsigned (bits u : Z) : Z := (u mod 2 ^ bits)%Z.

Definition wrapUnmErr (err : option Error) (v : option (GoType * Value)) : option Error :=
  match err with
  | None => None
  | Some e => Some (CannotUnmarshalError v customUnmarshalError (Some e) "" noFldOrIdx)
  end.

(** [arr[offset][1:]] *)
Definition dropFirst (tok : string) : string :=
  match tok with
  | EmptyString => EmptyString
  | String _ rest => rest
  end.

(** [reflect.New(TypeDeref(t))]: the type and the contents of the new pointer. *)
Definition newOf (t : GoType) : GoType * Value :=
  (TPtr (TypeDeref t), VPtr (Some (zero (TypeDeref t)))).

(** [if t.Kind() != reflect.Ptr { newV = newV.Elem() }] followed by the
    store of [newV] in a slot of type [t] ([reflect.Append], [SetMapIndex]). *)
Definition slotOfNew (t : GoType) (newV : Value) : Outcome Value :=
  match t with
  | TPtr e => if isPtr e then Panic ReflectSet else Ret newV
  | _ => match newV with
         | VPtr (Some x) => Ret x
         | _ => Stuck
         end
  end.

Section Decoder.
Context (W : World) (doc : Node).

(** The loop of [preprocess], on the tokens from [offset] on. *)
Fixpoint preprocessLoop (arr : list string) (s : Selection) : Outcome Selection :=
  match arr with
  | [] => Ret s
  | tok :: rest =>
      match rest with
      | [] => Ret s
      | _ :: _ =>
          b ← firstIsPrefix tok;
          if b : bool then
            match callMethod W (dropFirst tok) doc s with
            | NoSuchMethod => Ret s
            | CallPanics => Panic ReflectCall
            | ReturnsSelection sel => preprocessLoop rest sel
            | ReturnsOther => preprocessLoop rest s
            end
          else Ret s
      end
  end.

Definition preprocess (tag : goqueryTag) (s : Selection) : Outcome Selection :=
  preprocessLoop (Split tag comma) s.

(** [unmarshalLiteral]: the new contents of [v] and the error. *)
Definition unmarshalLiteral (s : string) (t : GoType) (v : Value) : Value * option Error :=
  match t with
  | TInterface n =>
      if (n =? 0)%nat then (VInterface (Some (DString s)), None) else (v, None)
  | TBool =>
      match ParseBool W s with
      | Some b => (VBool b, None)
      | None => (v, Some (NumError "ParseBool" s))
      end
  | TInt bits =>
      match ParseInt W s with
      | Some i => (VInt (wrapSigned bits i), None)
      | None => (v, Some (NumError "ParseInt" s))
      end
  | TUint bits =>
      match ParseUint W s with
      | Some u => (VUint (wrapUnsigned bits u), None)
      | None => (v, Some (NumError "ParseUint" s))
      end
  | TFloat bits =>
      match ParseFloat W s with
      | Some f => (VFloat (if (bits =? 32)%Z then toFloat32 W f else f), None)
      | None => (v, Some (NumError "ParseFloat" s))
      end
  | TString => (VString s, None)
  | _ => (v, None)
  end.

(** A recursive call of [unmarshalByType]. *)
Definition Decoder : Type :=
  GoType → Selection → Value → goqueryTag → M (Value * option Error).

(** The special case [[]*html.Node] of [unmarshalByType]. *)
Definition appendNodes (v : Value) (s : Selection) : option Value :=
  match v with
  | VNodes ns => Some (VNodes (ns ++ s))
  | VInterface (Some (DNodes ns)) => Some (VInterface (Some (DNodes (ns ++ s))))
  | _ => None
  end.

(** The default case of [unmarshalByType]. *)
Definition unmarshalScalar (t : GoType) (s : Selection) (v : Value) (tag : goqueryTag)
  : M (Value * option Error) :=
  vf ← valFunc tag;
  let str := applyVal W doc vf s in
  let '(v', err) := unmarshalLiteral str t v in
  match err with
  | Some e =>
      mret (v', Some (CannotUnmarshalError (Some (t, v')) typeConversionError (Some e) str noFldOrIdx))
  | None => mret (v', None)
  end.

Section Handlers.
Context (unmarshalByType : Decoder).

(** The loop of [unmarshalStruct]: the new contents of the fields and,
    when a field failed, its name and its error. *)
Fixpoint structLoop (fields : list (string * goqueryTag * GoType)) (vals : list Value)
    (s : Selection) : M (list Value * option (string * Error)) :=
  match fields, vals with
  | [], [] => mret ([], None)
  | (name, tag, ft) :: fields', fv :: vals' =>
      if String.eqb tag ignoreTag then
        '(rest, failure) ← structLoop fields' vals' s;
        mret (fv :: rest, failure)
      else
        skip ← (if String.eqb tag "" then
                  r ← lift (indirect ft fv);
                  match r with
                  | foundUnmarshaler _ _ _ => mret None
                  | reached _ v' d => mret (Some (repoint d v'))
                  end
                else mret None);
        match skip with
        | Some fv' =>
            '(rest, failure) ← structLoop fields' vals' s;
            mret (fv' :: rest, failure)
        | None =>
            sel ← lift (preprocess tag s);
            sel ← (if String.eqb tag "" then mret sel
                   else selStr ← lift (selector tag 0); mret (Find W doc sel selStr));
            '(fv', err) ← unmarshalByType ft sel fv tag;
            match err with
            | Some e => mret (fv' :: vals', Some (name, e))
            | None =>
                '(rest, failure) ← structLoop fields' vals' s;
                mret (fv' :: rest, failure)
            end
        end
  | _, _ => λ _, Stuck
  end.

Definition unmarshalStruct (fields : list (string * goqueryTag * GoType))
    (s : Selection) (v : Value) : M (Value * option Error) :=
  match v with
  | VStruct vals =>
      '(vals', failure) ← structLoop fields vals s;
      let v' := VStruct vals' in
      mret (v', match failure with
                | Some (name, e) =>
                    Some (CannotUnmarshalError (Some (TStruct fields, v'))
                            typeConversionError (Some e) "" (fieldName name))
                | None => None
                end)
  | _ => λ _, Stuck
  end.

(** The loop of [unmarshalArray], from index [i] on. *)
Fixpoint arrayLoop (eleT : GoType) (tag : goqueryTag) (s : Selection) (i : nat)
    (elems : list Value) : M (list Value * option (nat * Error)) :=
  match elems with
  | [] => mret ([], None)
  | x :: elems' =>
      '(x', err) ← unmarshalByType eleT (Eq s i) x tag;
      match err with
      | Some e => mret (x' :: elems', Some (i, e))
      | None =>
          '(rest, failure) ← arrayLoop eleT tag s (S i) elems';
          mret (x' :: rest, failure)
      end
  end.

Definition unmarshalArray (len : nat) (eleT : GoType) (s : Selection) (v : Value)
    (tag : goqueryTag) : M (Value * option Error) :=
  match v with
  | VArray elems =>
      if negb (length elems =? len)%nat then λ _, Stuck
      else if negb (len =? length s)%nat then
        mret (v, Some (CannotUnmarshalError (Some (TArray len eleT, v))
                         arrayLengthMismatch None "" noFldOrIdx))
      else
        '(elems', failure) ← arrayLoop eleT tag s 0 elems;
        let v' := VArray elems' in
        mret (v', match failure with
                  | Some (i, e) =>
                      Some (CannotUnmarshalError (Some (TArray len eleT, v'))
                              typeConversionError (Some e) "" (index i))
                  | None => None
                  end)
  | _ => λ _, Stuck
  end.

(** The loop of [unmarshalSlice], from index [i] on, over the nodes that
    are left; [acc] is the local [v] that [reflect.Append] grows. *)
Fixpoint sliceLoop (eleT : GoType) (tag : goqueryTag) (nodes : list NodePtr) (i : nat)
    (acc : list Value) : M (list Value * option (nat * Error)) :=
  match nodes with
  | [] => mret (acc, None)
  | p :: nodes' =>
      let '(nt, nv) := newOf eleT in
      '(newV, err) ← unmarshalByType nt [p] nv tag;
      match err with
      | Some e => mret (acc, Some (i, e))
      | None =>
          x ← lift (slotOfNew eleT newV);
          sliceLoop eleT tag nodes' (S i) (acc ++ [x])
      end
  end.

Definition unmarshalSlice (eleT : GoType) (s : Selection) (v : Value)
    (tag : goqueryTag) : M (Value * option Error) :=
  match v with
  | VSlice elems =>
      '(acc, failure) ← sliceLoop eleT tag s 0 elems;
      match failure with
      | Some (i, e) =>
          mret (v, Some (CannotUnmarshalError (Some (TSlice eleT, VSlice acc))
                           typeConversionError (Some e) "" (index i)))
      | None => mret (VSlice acc, None)
      end
  | _ => λ _, Stuck
  end.

(** [v.SetMapIndex(newK, newV)] *)
Fixpoint setMapIndex (k v : Value) (entries : list (Value * Value)) : list (Value * Value) :=
  match entries with
  | [] => [(k, v)]
  | (k', v') :: rest =>
      if keyEq W k' k then (k', v) :: rest else (k', v') :: setMapIndex k v rest
  end.

(** The function literal that [unmarshalMap] passes to [EachWithBreak],
    run on the node [p]: the new entries, and the error when it returns
    [false]. *)
Definition mapPair (keyT eleT : GoType) (tag valTag : goqueryTag) (p : NodePtr)
    (entries : list (Value * Value)) : M (list (Value * Value) * option Error) :=
  let subS := [p] in
  let '(kt, kv) := newOf keyT in
  let '(et, ev) := newOf eleT in
  '(newK, err) ← unmarshalByType kt subS kv tag;
  match err with
  | Some e =>
      vf ← valFunc valTag;
      mret (entries,
            Some (CannotUnmarshalError (Some (TMap keyT eleT, VMap (Some entries)))
                    mapKeyUnmarshalError (Some e) (applyVal W doc vf subS) (mapKey newK)))
  | None =>
      '(newV, err) ← unmarshalByType et subS ev valTag;
      match err with
      | Some e => mret (entries, Some e)
      | None =>
          newV ← lift (slotOfNew eleT newV);
          newK ← lift (slotOfNew keyT newK);
          mret (setMapIndex newK newV entries, None)
      end
  end.

(** [s.EachWithBreak] with that function. *)
Fixpoint mapLoop (keyT eleT : GoType) (tag valTag : goqueryTag) (nodes : list NodePtr)
    (entries : list (Value * Value)) : M (list (Value * Value) * option Error) :=
  match nodes with
  | [] => mret (entries, None)
  | p :: nodes' =>
      '(entries', err) ← mapPair keyT eleT tag valTag p entries;
      match err with
      | Some e => mret (entries', Some e)
      | None => mapLoop keyT eleT tag valTag nodes' entries'
      end
  end.

(** The end of [unmarshalMap], from [popVal] on, for the key nodes [s]. *)
Definition mapEntries (keyT eleT : GoType) (s : Selection)
    (entries : list (Value * Value)) (tag : goqueryTag) : M (Value * option Error) :=
  let valTag := popVal tag in
  '(entries', err) ← mapLoop keyT eleT tag valTag s entries;
  let v' := VMap (Some entries') in
  mret (v', match err with
            | Some e =>
                Some (CannotUnmarshalError (Some (TMap keyT eleT, v'))
                        typeConversionError (Some e) "" noFldOrIdx)
            | None => None
            end).

Definition unmarshalMap (keyT eleT : GoType) (s : Selection) (v : Value)
    (tag : goqueryTag) : M (Value * option Error) :=
  match v with
  | VMap m =>
      let entries := default [] m in
      keySel ← lift (selector tag 1);
      if String.eqb keySel "" then
        let v' := VMap (Some entries) in
        mret (v', Some (CannotUnmarshalError (Some (TMap keyT eleT, v'))
                          missingValueSelector None "" noFldOrIdx))
      else
        keySel ← lift (selector tag 1);
        s ← lift (childrenUntilMatch W doc s keySel);
        mapEntries keyT eleT s entries tag
  | _ => λ _, Stuck
  end.

(** The body of [unmarshalByType] after [indirect] has reached a value
    that is no [Unmarshaler]. *)
Definition dispatch (t : GoType) (s : Selection) (v : Value) (tag : goqueryTag)
    : M (Value * option Error) :=
  match appendNodes v s with
  | Some v' => mret (v', None)
  | None =>
      match t with
      | TStruct fields => unmarshalStruct fields s v
      | TSlice eleT => unmarshalSlice eleT s v tag
      | TArray len eleT => unmarshalArray len eleT s v tag
      | TMap keyT eleT => unmarshalMap keyT eleT s v tag
      | _ => unmarshalScalar t s v tag
      end
  end.

Definition unmarshalByTypeBody (t : GoType) (s : Selection) (v : Value)
    (tag : goqueryTag) : M (Value * option Error) :=
  r ← lift (indirect t v);
  match r with
  | foundUnmarshaler name cur depth =>
      let '(cur', err) := UnmarshalHTML W name doc s cur in
      mret (repoint depth cur', wrapUnmErr err None)
  | reached t' v' depth =>
      '(v'', err) ← dispatch t' s v' tag;
      mret (repoint depth v'', err)
  end.

End Handlers.

(** [unmarshalByType], with a bound on the depth of its recursion. *)
Fixpoint unmarshalByType (fuel : nat) : Decoder :=
  match fuel with
  | 0 => λ _ _ _ _ _, OutOfFuel
  | S fuel' => unmarshalByTypeBody (unmarshalByType fuel')
  end.

End Decoder.

(** The recursion of [unmarshalByType] follows the type of the destination;
    pointers are followed by [indirect] and cost nothing. Where [indirect]
    enters an interface, the recursion goes on in the type of the value that
    the interface holds ([ifaceFuel]). *)
Fixpoint fuelFor (t : GoType) : nat :=
  match t with
  | TPtr e => fuelFor e
  | TStruct fields => S (foldr Nat.max 0 (map (λ f, fuelFor f.2) fields))
  | TSlice e => S (fuelFor e)
  | TArray _ e => S (fuelFor e)
  | TMap k e => S (Nat.max (fuelFor k) (fuelFor e))
  | _ => 1
  end.

Fixpoint ifaceFuel (v : Value) : nat :=
  match v with
  | VInterface (Some (DPtrPtr elem x)) => fuelFor elem + ifaceFuel x
  | VPtr (Some x) => ifaceFuel x
  | VStruct vals => foldr Nat.max 0 (map ifaceFuel vals)
  | VArray elems => foldr Nat.max 0 (map ifaceFuel elems)
  | _ => 0
  end.

(** [UnmarshalSelection]. The argument [iface] is [None] for a nil
    interface; the result carries the new contents of [iface]. *)
Definition UnmarshalSelection (W : World) (doc : Node) (s : Selection)
    (iface : option (GoType * Value)) : M (option Value * option Error) :=
  match iface with
  | None => mret (None, Some (CannotUnmarshalError None nonPointer None "" noFldOrIdx))
  | Some (t, v) =>
      if negb (isPtr t) then
        mret (Some v, Some (CannotUnmarshalError (Some (t, v)) nonPointer None "" noFldOrIdx))
      else
        match v with
        | VPtr None =>
            mret (Some v, Some (CannotUnmarshalError (Some (t, v)) nilValue None "" noFldOrIdx))
        | _ =>
            r ← lift (indirect t v);
            match r with
            | foundUnmarshaler name cur depth =>
                let '(cur', err) := UnmarshalHTML W name doc s cur in
                mret (Some (repoint depth cur'), wrapUnmErr err None)
            | reached t' v' depth =>
                '(v'', err) ← unmarshalByType W doc (fuelFor t' + ifaceFuel v') t' s v' "";
                mret (Some (repoint depth v''), err)
            end
        end
  end.

(** ** A world to run the decoder in

    Selectors are element names, [.class] and [#id]; [Parent], [Children],
    [Length] and [Find] are the methods a directive can name; numbers are
    decimal. *)
Module Example.

Definition isSpace (c : ascii) : bool :=
  let n := nat_of_ascii c in ((9 <=? n) && (n <=? 13) || (n =? 32))%nat.

Fixpoint trimLeft (s : string) : string :=
  match s with
  | String c s' => if isSpace c then trimLeft s' else s
  | EmptyString => EmptyString
  end.

Fixpoint trimRight (s : string) : string :=
  match s with
  | String c s' =>
      match trimRight s' with
      | EmptyString => if isSpace c then EmptyString else String c EmptyString
      | r => String c r
      end
  | EmptyString => EmptyString
  end.

Definition trimSpace (s : string) : string := trimRight (trimLeft s).

Definition nodeMatches (sel : string) (doc : Node) (p : NodePtr) : bool :=
  match nodeAt doc p with
  | Some (Element name attrs _) =>
      String.eqb sel name
      || String.eqb sel ("." +:+ lookupAttr attrs "class")
      || String.eqb sel ("#" +:+ lookupAttr attrs "id")
  | _ => false
  end.

Fixpoint renderNode (n : Node) : string :=
  match n with
  | Text d => d
  | Element name _ kids =>
      "<" +:+ name +:+ ">" +:+ String.concat "" (map renderNode kids) +:+ "</" +:+ name +:+ ">"
  end.

Definition parentOf (p : NodePtr) : list NodePtr :=
  match p with
  | [] => []
  | _ => [take (length p - 1) p]
  end.

Definition methods (meth : string) (doc : Node) (s : Selection) : MethodResult :=
  if String.eqb meth "Parent" then
    ReturnsSelection (appendWithoutDuplicates [] (s ≫= parentOf))
  else if String.eqb meth "Children" then ReturnsSelection (Children doc s)
  else if String.eqb meth "Length" then ReturnsOther
  else if String.eqb meth "Find" then CallPanics
  else NoSuchMethod.

Definition parseBool (s : string) : option bool :=
  if bool_decide (s ∈ ["1"; "t"; "T"; "TRUE"; "true"; "True"]) then Some true
  else if bool_decide (s ∈ ["0"; "f"; "F"; "FALSE"; "false"; "False"]) then Some false
  else None.

Definition digit (c : ascii) : option Z :=
  let n := nat_of_ascii c in
  if ((48 <=? n) && (n <=? 57))%nat then Some (Z.of_nat n - 48)%Z else None.

Fixpoint digits (s : string) (acc : Z) : option Z :=
  match s with
  | EmptyString => Some acc
  | String c s' => d ← digit c; digits s' (10 * acc + d)%Z
  end.

Definition parseUint (s : string) : option Z :=
  match s with
  | EmptyString => None
  | _ => u ← digits s 0; if (u <? 2 ^ 64)%Z then Some u else None
  end.

Definition parseInt (s : string) : option Z :=
  let '(neg, body) :=
    match s with
    | String "-" s' => (true, s')
    | String "+" s' => (false, s')
    | _ => (false, s)
    end in
  match body with
  | EmptyString => None
  | _ =>
      u ← digits body 0;
      let i := if neg : bool then (- u)%Z else u in
      if ((- 2 ^ 63 <=? i) && (i <? 2 ^ 63))%Z then Some i else None
  end.

Definition keysEqual (a b : Value) : bool :=
  match a, b with
  | VString x, VString y => String.eqb x y
  | VInt x, VInt y => (x =? y)%Z
  | VUint x, VUint y => (x =? y)%Z
  | VBool x, VBool y => Bool.eqb x y
  | _, _ => false
  end.

(** Three user types: [Count] stores the number of nodes it is given,
    [Refuse] returns an error, [Outer] goes up from its nodes to the root
    and stores the text of the whole document. *)
Definition userUnmarshal (name : string) (doc : Node) (nodes : list NodePtr) (cur : Value)
    : Value * option Error :=
  if String.eqb name "Count" then (VInt (Z.of_nat (length nodes)), None)
  else if String.eqb name "Refuse" then (cur, Some (UserError "refused"))
  else if String.eqb name "Outer" then (VString (nodeText doc), None)
  else (cur, None).

Definition world : World := {|
  matches := nodeMatches;
  render := renderNode;
  TrimSpace := trimSpace;
  callMethod := methods;
  ParseBool := parseBool;
  ParseInt := parseInt;
  ParseUint := parseUint;
  ParseFloat := λ s, if String.eqb s "0" then Some 0%Z else None;
  toFloat32 := λ f, f;
  keyEq := keysEqual;
  UnmarshalHTML := userUnmarshal;
|}.

(** The descendant combinator of CSS: the selector [anc self] matches a
    node that matches [self] and has an ancestor that matches [anc],
    wherever that ancestor is. *)
Definition descendantMatches (sel : string) (doc : Node) (p : NodePtr) : bool :=
  match Split sel " "%char with
  | [anc; self] =>
      nodeMatches self doc p
      && existsb (λ k, nodeMatches anc doc (take k p)) (seq 0 (length p))
  | _ => nodeMatches sel doc p
  end.

(** The same world with that combinator. *)
Definition combinatorWorld : World := {|
  matches := descendantMatches;
  render := renderNode;
  TrimSpace := trimSpace;
  callMethod := methods;
  ParseBool := parseBool;
  ParseInt := parseInt;
  ParseUint := parseUint;
  ParseFloat := λ s, if String.eqb s "0" then Some 0%Z else None;
  toFloat32 := λ f, f;
  keyEq := keysEqual;
  UnmarshalHTML := userUnmarshal;
|}.

(** <<
    <ul id="list">
      <li class="item"><span class="key">one</span><b class="val">1</b></li>
      <li class="item"><span class="key">two</span><b class="val">x</b></li>
      <li class="item"><span class="key">three</span><b class="val">3</b></li>
    </ul>
    >> *)
Definition item (k v : string) : Node :=
  Element "li" [("class", "item")]
    [Element "span" [("class", "key")] [Text k];
     Element "b" [("class", "val"); ("data-n", v)] [Text v]].

Definition listDoc : Node :=
  Element "html" []
    [Element "ul" [("id", "list")] [item "one" "1"; item "two" "x"; item "three" "3"]].

(** The same list with another number in the first item. *)
Definition listDoc' : Node :=
  Element "html" []
    [Element "ul" [("id", "list")] [item "one" "9"; item "two" "x"; item "three" "3"]].

(** The same list as an ordered list: [<ol id="list">]. *)
Definition orderedDoc : Node :=
  Element "html" []
    [Element "ol" [("id", "list")] [item "one" "1"; item "two" "x"; item "three" "3"]].

(** [<p class="n">300</p>] *)
Definition numberDoc : Node := Element "p" [("class", "n")] [Text "300"].

(** The three [.val] nodes and the first [.key] node of [listDoc]. *)
Definition valNodes : Selection := [[0; 0; 1]; [0; 1; 1]; [0; 2; 1]].
Definition firstKey : NodePtr := [0; 0; 0].

(** A record whose only field goes up to the parent of the selection. *)
Definition upType : GoType := TStruct [("V", "!Parent,.val", TString)].

End Example.


(** ** Vocabulary of the statements *)

(** Does the byte [c] occur in [s]. *)
Fixpoint hasByte (c : ascii) (s : string) : bool :=
  match s with
  | EmptyString => false
  | String c' s' => Ascii.eqb c' c || hasByte c s'
  end.

(** Every entry of the cache is what [valFunc] computes for its tag: true of
    the empty cache the package starts with, and kept by [valFunc]. *)
Definition cacheOk (c : gmap string valFn) : Prop :=
  ∀ tag f, c !! tag = Some f → resolveValFunc tag = Ret f.

(** The selection [k] generations of children below [s]. *)
Fixpoint generation (doc : Node) (s : Selection) (k : nat) : Selection :=
  match k with
  | 0 => s
  | S k' => Children doc (generation doc s k')
  end.

(** [preprocess] calls a method for this tag: it has a second token and its
    first token starts with the prefix byte. *)
Definition tagHasDirective (tag : goqueryTag) : bool :=
  match Split tag comma with
  | String c _ :: _ :: _ => Ascii.eqb c prePfx
  | _ => false
  end.

(** Types without [Unmarshaler] and without directive in a field tag. *)
Fixpoint plainType (t : GoType) : bool :=
  match t with
  | TUnmarshaler _ _ => false
  | TPtr e => plainType e
  | TStruct fields =>
      forallb (λ f, negb (tagHasDirective f.1.2) && plainType f.2) fields
  | TSlice e => plainType e
  | TArray _ e => plainType e
  | TMap k e => plainType k && plainType e
  | _ => true
  end.

(** The matcher of the world decides a selector on the node alone. *)
Definition contextFree (W : World) : Prop :=
  ∀ sel d d' q q', nodeAt d q = nodeAt d' q' → matches W sel d q = matches W sel d' q'.

(** All nodes of [s] are [p] or below [p]. *)
Definition within (p : NodePtr) (s : Selection) : Prop :=
  Forall (λ q, p `prefix_of` q) s.

(** The kinds that [unmarshalLiteral] parses, and whether the parse fails. *)
Definition parseFails (W : World) (t : GoType) (str : string) : Prop :=
  match t with
  | TBool => ParseBool W str = None
  | TInt _ => ParseInt W str = None
  | TUint _ => ParseUint W str = None
  | TFloat _ => ParseFloat W str = None
  | _ => False
  end.

Definition parserName (t : GoType) : string :=
  match t with
  | TBool => "ParseBool"
  | TInt _ => "ParseInt"
  | TUint _ => "ParseUint"
  | TFloat _ => "ParseFloat"
  | _ => ""
  end.

(** The types that reach the default case of [unmarshalByType]. *)
Definition scalarKind (t : GoType) : bool :=
  match t with
  | TBool | TInt _ | TUint _ | TFloat _ | TString | TOtherKind | TInterface _ => true
  | _ => false
  end.

(** The kinds for which [unmarshalLiteral] has a case that stores something. *)
Definition convertible (t : GoType) : bool :=
  match t with
  | TBool | TInt _ | TUint _ | TFloat _ | TString | TInterface 0 => true
  | _ => false
  end.

(** Every node of [s] that exists has height at most [h]. *)
Definition bounded (doc : Node) (h : nat) (s : Selection) : Prop :=
  ∀ p n, p ∈ s → nodeAt doc p = Some n → height n ≤ h.

(** Every node of [s] is an element of height at most [h]. *)
Definition elementsBelow (doc : Node) (h : nat) (s : Selection) : Prop :=
  ∀ p, p ∈ s → ∃ n, nodeAt doc p = Some n ∧ isElement n = true ∧ height n ≤ h.

(** The type has [UnmarshalHTML] behind some number of pointers. *)
Fixpoint exposesUnmarshaler (t : GoType) : bool :=
  match t with
  | TUnmarshaler _ _ => true
  | TPtr e => exposesUnmarshaler e
  | _ => false
  end.

(** The outcome is an outcome of the Go program: the recursion budget of
    the model was enough. *)
Definition withinBudget {A : Type} (o : Outcome A) : Prop := o ≠ OutOfFuel.

(** ** The rest of the package *)

(** [NodeSelector]: [(&goquery.Selection{}).AddNodes(nodes...)]. *)
Definition NodeSelector (nodes : list NodePtr) : Selection :=
  appendWithoutDuplicates [] nodes.

(** The interface value holds a non-nil pointer to a pointer: the loop of
    [indirect] enters it. *)
Definition holdsPointerToPointer (v : Value) : bool :=
  match v with
  | VInterface (Some (DPtrPtr _ _)) => true
  | _ => false
  end.

(** No interface that the decoder comes to in [v] holds a pointer to a
    pointer. It is so for every value that the decoder allocates. *)
Fixpoint ifaceFree (v : Value) : bool :=
  match v with
  | VInterface (Some (DPtrPtr _ _)) => false
  | VPtr (Some x) => ifaceFree x
  | VStruct vals => forallb ifaceFree vals
  | VArray elems => forallb ifaceFree elems
  | _ => true
  end.

(** The number of pointers and entered interfaces at the head of a value. *)
Fixpoint chainLength (v : Value) : nat :=
  match v with
  | VPtr (Some x) => S (chainLength x)
  | VInterface (Some (DPtrPtr _ x)) => S (chainLength x)
  | _ => 0
  end.

(** The tokens of the field tags of a type: the selectors that the decode
    of a destination of that type can take from its type. *)
Fixpoint typeSelectors (t : GoType) : list string :=
  match t with
  | TPtr e => typeSelectors e
  | TStruct fields => flat_map (λ f, Split f.1.2 comma ++ typeSelectors f.2) fields
  | TSlice e => typeSelectors e
  | TArray _ e => typeSelectors e
  | TMap k e => typeSelectors k ++ typeSelectors e
  | _ => []
  end.

(** The selection that [unmarshalStruct] decodes a field from: the
    selection after the directives of the tag, narrowed by the primary
    selector unless the tag is empty. *)
Definition fieldSelection (W : World) (doc : Node) (tag : goqueryTag) (s : Selection)
    : Outcome Selection :=
  sel ← preprocess W doc tag s;
  if String.eqb tag "" then Ret sel
  else selStr ← selector tag 0; Ret (Find W doc sel selStr).

(** The loop of [unmarshalStruct] has gone past the field [f], which held
    [fv] and now holds [fv'], with the cache going from [c1] to [c2]: the
    field is ignored, or it has no tag and no custom decoder and only its
    pointers were followed, or it was decoded without error. *)
Definition fieldPassed (W : World) (doc : Node) (rec : Decoder) (s : Selection)
    (f : string * goqueryTag * GoType) (fv : Value) (c1 : gmap string valFn)
    (fv' : Value) (c2 : gmap string valFn) : Prop :=
  (f.1.2 = ignoreTag ∧ fv' = fv ∧ c2 = c1)
  ∨ (f.1.2 = "" ∧ c2 = c1
     ∧ ∃ t0 v0 d, indirect f.2 fv = Ret (reached t0 v0 d) ∧ fv' = repoint d v0)
  ∨ (f.1.2 ≠ ignoreTag
     ∧ ∃ sel, fieldSelection W doc f.1.2 s = Ret sel
              ∧ rec f.2 sel fv f.1.2 c1 = Ret (fv', None, c2)).

(** The number of pointers in front of a type. *)
Fixpoint ptrDepth (t : GoType) : nat :=
  match t with
  | TPtr e => S (ptrDepth e)
  | _ => 0
  end.

(** The token starts with the prefix byte. *)
Definition isDirective (tok : string) : Prop := firstIsPrefix tok = Ret true.

(** The entry points that start from bytes. *)
Module Top.

(** What [Decode] and [Unmarshal] return: the error of the reader, passed
  on as it is; the [CannotUnmarshalError] whose reason is the text
  "resulting document was nil"; or the error of [UnmarshalSelection]. *)
Inductive DecodeError : Type :=
| readerError (e : Error)
| documentWasNil
| unmarshalError (e : Error).

(** [Decoder]: the error and the document that
  [goquery.NewDocumentFromReader] returned. *)
Record Decoder : Type := { err : option Error; doc : option Node }.

Section EntryPoints.
(* goquery.NewDocumentFromReader on the bytes of the reader: the document
   and the error *)
Context (NewDocumentFromReader : string → option Node * option Error).
Context (W : World).

(** [NewDecoder] *)
Definition NewDecoder (r : string) : Decoder :=
  let '(d, e) := NewDocumentFromReader r in {| err := e; doc := d |}.

Definition entryResult (m : M (option Value * option Error))
: M (option Value * option DecodeError) :=
  '(v, e) ← m; mret (v, unmarshalError <$> e).

(** [Decode]. The result carries the new contents of [dest]. *)
Definition Decode (d : Decoder) (dest : option (GoType * Value))
: M (option Value * option DecodeError) :=
  match err d with
  | Some e => mret (snd <$> dest, Some (readerError e))
  | None =>
  match doc d with
  | None => mret (snd <$> dest, Some documentWasNil)
  | Some document => entryResult (UnmarshalSelection W document [[]] dest)
  end
  end.

(** [Unmarshal]. goquery returns a document whenever it returns no error;
no document and no error is no execution of the package. *)
Definition Unmarshal (bs : string) (v : option (GoType * Value))
: M (option Value * option DecodeError) :=
  let '(d, e) := NewDocumentFromReader bs in
  match e with
  | Some e => mret (snd <$> v, Some (readerError e))
  | None =>
  match d with
  | None => λ _, Stuck
  | Some document => entryResult (UnmarshalSelection W document [[]] v)
  end
  end.

End EntryPoints.

End Top.

(** Two outcomes that differ at most in the cache they leave. *)
Definition sameResult {A : Type} (o1 o2 : Outcome (A * gmap string valFn)) : Prop :=
  match o1, o2 with
  | Ret (a1, _), Ret (a2, _) => a1 = a2
  | Panic k1, Panic k2 => k1 = k2
  | Stuck, Stuck => True
  | OutOfFuel, OutOfFuel => True
  | _, _ => False
  end.

(** A computation that uses the cache as a cache: it only adds entries, it
    keeps a cache filled by [valFunc] in that state, and what it returns
    does not depend on which such cache it starts from. *)
Definition cacheSafe {A : Type} (m : M A) : Prop :=
  (∀ c a c', m c = Ret (a, c') → c ⊆ c' ∧ (cacheOk c → cacheOk c'))
  ∧ (∀ c1 c2, cacheOk c1 → cacheOk c2 → sameResult (m c1) (m c2)).

(** * Properties *)

(** ** [Split] and [Join] *)

Lemma Split_nonempty s sep : Split s sep ≠ [].
Proof.
  destruct s as [|c s]; simpl; [done|].
  destruct (Ascii.eqb c sep); [done|]. by destruct (Split s sep).
Qed.

Lemma Split_single tok : hasByte comma tok = false → Split tok comma = [tok].
Proof.
  induction tok as [|c tok IH]; simpl; [done|].
  intros [Hc Htok]%orb_false_elim. rewrite Hc, (IH Htok). done.
Qed.

Lemma Split_app tok s :
  hasByte comma tok = false →
  Split (tok +:+ String comma s) comma = tok :: Split s comma.
Proof.
  induction tok as [|c tok IH]; simpl.
  - done.
  - intros [Hc Htok]%orb_false_elim. rewrite Hc. fold (tok +:+ String comma s).
    by rewrite (IH Htok).
Qed.

Lemma Split_Join (l : list string) :
  l ≠ [] → Forall (λ tok, hasByte comma tok = false) l →
  Split (Join l ",") comma = l.
Proof.
  intros Hne Hl. induction Hl as [|tok l Htok Hl IH]; [done|].
  destruct l as [|tok' l].
  - simpl. by apply Split_single.
  - change (Join (tok :: tok' :: l) ",") with (tok +:+ String comma (Join (tok' :: l) ",")).
    rewrite Split_app by done. f_equal. by apply IH.
Qed.

Lemma Split_tokens s : Forall (λ tok, hasByte comma tok = false) (Split s comma).
Proof.
  induction s as [|c s IH]; simpl.
  - by repeat constructor.
  - destruct (Ascii.eqb c comma) eqn:Hc.
    + by constructor.
    + destruct (Split s comma) as [|tok rest]; simpl.
      * repeat constructor. simpl. by rewrite Hc.
      * inversion IH; subst. constructor; [|done]. simpl. by rewrite Hc.
Qed.

(** [popVal] removes the second token, whatever it is. *)
Lemma popVal_tokens tag a0 a1 rest :
  Split tag comma = a0 :: a1 :: rest →
  Split (popVal tag) comma = a0 :: rest.
Proof.
  intros Harr. unfold popVal. rewrite Harr.
  change (Split (Join (a0 :: rest) ",") comma = a0 :: rest).
  pose proof (Split_tokens tag) as Htok. rewrite Harr in Htok.
  apply Split_Join; [done|].
  inversion Htok as [|? ? H0 H1]; subst. inversion H1; subst. by constructor.
Qed.

Lemma popVal_short tag a0 : Split tag comma = [a0] → popVal tag = tag.
Proof. intros Harr. unfold popVal. by rewrite Harr. Qed.

(** On a tag whose first token is a selector, [selector] reads the token of
    that index. *)
Lemma selector_plain tag a0 rest k :
  Split tag comma = a0 :: rest → firstIsPrefix a0 = Ret false →
  selector tag k = Ret (default "" ((a0 :: rest) !! k)).
Proof.
  intros Harr Ha0. unfold selector. rewrite Harr. simpl length.
  destruct (Nat.ltb_spec (S (length rest) - 1) k) as [Hlt|Hge].
  - rewrite (lookup_ge_None_2 (a0 :: rest) k); [done|simpl; lia].
  - simpl. rewrite Ha0. simpl. rewrite Nat.add_0_r.
    destruct (lookup_lt_is_Some_2 (a0 :: rest) k) as [tok Htok]; [simpl; lia|].
    by rewrite Htok.
Qed.

(** Without directive, popping keeps slot 0 and shifts the later slots. *)
Lemma popVal_shift tag a0 rest :
  Split tag comma = a0 :: rest → firstIsPrefix a0 = Ret false →
  selector (popVal tag) 0 = selector tag 0
  ∧ ∀ k, 1 ≤ k → selector (popVal tag) k = selector tag (S k).
Proof.
  intros Harr Ha0. destruct rest as [|a1 rest].
  - rewrite (popVal_short _ _ Harr). split; [done|]. intros k Hk.
    rewrite !(selector_plain _ _ _ _ Harr Ha0).
    rewrite !(lookup_ge_None_2 [a0]); simpl; [done|lia|lia].
  - pose proof (popVal_tokens _ _ _ _ Harr) as Hpop.
    split.
    + by rewrite (selector_plain _ _ _ _ Hpop Ha0), (selector_plain _ _ _ _ Harr Ha0).
    + intros k Hk.
      rewrite (selector_plain _ _ _ _ Hpop Ha0), (selector_plain _ _ _ _ Harr Ha0).
      destruct k as [|k]; [lia|]. done.
Qed.

(** C1. Popping an annotation is claimed to remove selector slot 1 and to
    leave slot 0 alone also when directives lead the annotation. On
    ["!Parent,a,[href]"] the primary selector is [a] and the value selector
    is [[href]]; [popVal] removes [a]: afterwards the value selector sits in
    slot 0 and reading slot 1 panics. *)
Theorem popVal_after_directive_removes_primary_selector :
  selector "!Parent,a,[href]" 0 = Ret "a"
  ∧ selector "!Parent,a,[href]" 1 = Ret "[href]"
  ∧ popVal "!Parent,a,[href]" = "!Parent,[href]"
  ∧ selector (popVal "!Parent,a,[href]") 0 = Ret "[href]"
  ∧ selector (popVal "!Parent,a,[href]") 1 = Panic IndexOutOfRange.
Proof. repeat split; reflexivity. Qed.

(** ** The value-function resolver *)

Lemma cacheOk_empty : cacheOk ∅.
Proof. intros tag f. by rewrite lookup_empty. Qed.

(** The cache is an optimisation: with a cache filled by [valFunc], the
    function returned is the one the tag resolves to. *)
Lemma valFunc_resolve tag (c : gmap string valFn) :
  cacheOk c →
  match resolveValFunc tag with
  | Ret f => ∃ c', valFunc tag c = Ret (f, c') ∧ cacheOk c'
  | Panic k => valFunc tag c = Panic k
  | Stuck => valFunc tag c = Stuck
  | OutOfFuel => valFunc tag c = OutOfFuel
  end.
Proof.
  intros Hc. unfold valFunc. destruct (c !! tag) as [fn|] eqn:Hlook.
  - rewrite (Hc _ _ Hlook). eauto.
  - destruct (resolveValFunc tag) as [f| | |] eqn:Hres; try done.
    eexists; split; [done|]. intros tag' f'.
    destruct (decide (tag = tag')) as [->|Hne].
    + rewrite lookup_insert_eq. congruence.
    + rewrite lookup_insert_ne by done. apply Hc.
Qed.

Lemma resolveValFunc_Split tag :
  resolveValFunc tag =
    match Split tag comma with
    | _ :: src :: _ =>
        match src with
        | EmptyString => Panic IndexOutOfRange
        | String c _ =>
            if Ascii.eqb c "["%char then attr ← attrName src; Ret (attrFunc attr)
            else if String.eqb src "html" then Ret htmlVal
            else Ret textVal
        end
    | _ => Ret textVal
    end.
Proof.
  unfold resolveValFunc. destruct (Split tag comma) as [|a0 [|src rest]]; try done.
  simpl. destruct src as [|c src]; [done|].
  destruct (Ascii.eqb c "["); [done|].
  by destruct (String.eqb (String c src) "html"), (String.eqb (String c src) "text").
Qed.

Lemma substring_all s t : String.substring 0 (String.length s) (s +:+ t) = s.
Proof. induction s as [|c s IH]; simpl; [by destruct t|]. by rewrite IH. Qed.

Lemma attrName_brackets name : attrName (String "[" (name +:+ "]")) = Ret name.
Proof.
  unfold attrName. simpl String.length.
  assert (String.length (name +:+ "]") = S (String.length name)) as Hlen.
  { induction name as [|c n IH]; simpl; [done|]. by rewrite IH. }
  rewrite Hlen. simpl. by rewrite Nat.sub_0_r, substring_all.
Qed.

(** What the resolver does with the second token of a tag. *)
Lemma resolveValFunc_token_1 tag a0 rest :
  Split tag comma = a0 :: rest →
  match rest with
  | [] => resolveValFunc tag = Ret textVal
  | src :: _ =>
      (∀ name, src = String "[" (name +:+ "]") → resolveValFunc tag = Ret (attrFunc name))
      ∧ (src = "html" → resolveValFunc tag = Ret htmlVal)
      ∧ (src ≠ "html" → (∀ c r, src = String c r → c ≠ "["%char) → src ≠ "" →
         resolveValFunc tag = Ret textVal)
  end.
Proof.
  intros Harr. rewrite resolveValFunc_Split, Harr.
  destruct rest as [|src rest]; [done|]. repeat split.
  - intros name ->. rewrite Ascii.eqb_refl, attrName_brackets. done.
  - intros ->. done.
  - intros Hhtml Hc Hne. destruct src as [|c r]; [done|].
    destruct (Ascii.eqb_spec c "["); [by edestruct Hc|].
    destruct (String.eqb_spec (String c r) "html"); done.
Qed.

(** C2. The value function is claimed to be resolved from selector slot 1,
    counted after the leading directives. On ["!Parent,a,[href]"] slot 1 is
    the bracketed [[href]], yet [valFunc] looks at the second token [a] and
    returns the text extraction. *)
Theorem valFunc_after_directive_ignores_slot_1 :
  selector "!Parent,a,[href]" 1 = Ret "[href]"
  ∧ valFunc "!Parent,a,[href]" ∅ = Ret (textVal, {[ "!Parent,a,[href]" := textVal ]})
  ∧ valFunc "a,[href]" ∅ = Ret (attrFunc "href", {[ "a,[href]" := attrFunc "href" ]}).
Proof. repeat split; reflexivity. Qed.

(** ** Documents: pointers, children, generations *)

(** *** Selections without repetition *)

Lemma appendWithoutDuplicates_spec target nodes :
  NoDup target →
  NoDup (appendWithoutDuplicates target nodes)
  ∧ (∀ n, n ∈ appendWithoutDuplicates target nodes ↔ n ∈ target ∨ n ∈ nodes)
  ∧ target `prefix_of` appendWithoutDuplicates target nodes.
Proof.
  revert target. induction nodes as [|n nodes IH]; intros target Htarget; simpl.
  - split; [done|]. split; [|done]. intros n. rewrite elem_of_nil. naive_solver.
  - case_bool_decide as Hn.
    + destruct (IH target Htarget) as (Hnd & Hin & Hpre). split; [done|]. split; [|done].
      intros n'. rewrite Hin, elem_of_cons. naive_solver.
    + destruct (IH (target ++ [n])) as (Hnd & Hin & Hpre).
      { apply NoDup_app. split; [done|]. split; [|apply NoDup_singleton].
        intros x Hx ->%list_elem_of_singleton. done. }
      split; [done|]. split.
      * intros n'. rewrite Hin, elem_of_app, list_elem_of_singleton, elem_of_cons.
        naive_solver.
      * etrans; [|exact Hpre]. by apply prefix_app_r.
Qed.

Lemma appendWithoutDuplicates_NoDup target nodes :
  NoDup (target ++ nodes) → appendWithoutDuplicates target nodes = target ++ nodes.
Proof.
  revert target. induction nodes as [|n nodes IH]; intros target Hnd; simpl.
  - by rewrite app_nil_r.
  - apply NoDup_app in Hnd as Hnd'. destruct Hnd' as (_ & Hdis & _).
    rewrite bool_decide_eq_false_2.
    + rewrite IH; rewrite <- app_assoc; done.
    + intros Hn. apply (Hdis _ Hn). by left.
Qed.

Lemma elem_of_appendWithoutDuplicates (nodes : list NodePtr) n :
  n ∈ appendWithoutDuplicates [] nodes ↔ n ∈ nodes.
Proof.
  destruct (appendWithoutDuplicates_spec [] nodes) as (_ & Hin & _); [constructor|].
  rewrite Hin, elem_of_nil. naive_solver.
Qed.

Lemma NoDup_appendWithoutDuplicates (nodes : list NodePtr) :
  NoDup (appendWithoutDuplicates [] nodes).
Proof. apply appendWithoutDuplicates_spec. constructor. Qed.


Section ProviderFacts.
Context (W : World) (doc : Node).

Lemma nodeAt_app (d : Node) (p q : NodePtr) :
  nodeAt d (p ++ q) = n ← nodeAt d p; nodeAt n q.
Proof.
  revert d. induction p as [|i p IH]; intros d; simpl; [done|].
  destruct d as [name attrs kids|]; [|done].
  destruct (kids !! i) as [k|]; simpl; [apply IH|done].
Qed.

Lemma height_kid name attrs kids i k :
  kids !! i = Some k → height k < height (Element name attrs kids).
Proof.
  simpl. revert i. induction kids as [|k' kids IH]; intros [|i] Hk; simplify_eq/=.
  - lia.
  - specialize (IH _ Hk). lia.
Qed.

Lemma height_nodeAt (d : Node) p n : nodeAt d p = Some n → height n ≤ height d.
Proof.
  revert d. induction p as [|i p IH]; intros d Hn; simplify_eq/=; [done|].
  destruct d as [name attrs kids|]; [|done].
  destruct (kids !! i) as [k|] eqn:Hk; simplify_eq/=.
  pose proof (height_kid name attrs _ _ _ Hk) as Hlt. simpl in Hlt.
  specialize (IH _ Hn). lia.
Qed.

Lemma elem_of_childPtrs q p :
  q ∈ childPtrs doc p ↔
  ∃ name attrs kids i k,
    nodeAt doc p = Some (Element name attrs kids) ∧ kids !! i = Some k
    ∧ isElement k = true ∧ q = p ++ [i].
Proof.
  unfold childPtrs. split.
  - destruct (nodeAt doc p) as [[name attrs kids|]|] eqn:Hp; try by intros ?%elem_of_nil.
    intros (l & Hq & Hl)%list_elem_of_join.
    apply elem_of_lookup_imap in Hl as (i & k & -> & Hk).
    destruct (isElement k) eqn:Hel; [|by apply elem_of_nil in Hq].
    apply list_elem_of_singleton in Hq as ->. by exists name, attrs, kids, i, k.
  - intros (name & attrs & kids & i & k & -> & Hk & Hel & ->).
    apply list_elem_of_join. exists [p ++ [i]]. split; [by apply list_elem_of_singleton|].
    apply elem_of_lookup_imap. exists i, k. by rewrite Hel.
Qed.

Lemma elem_of_Children q s :
  q ∈ Children doc s ↔ ∃ p, p ∈ s ∧ q ∈ childPtrs doc p.
Proof.
  unfold Children. rewrite elem_of_appendWithoutDuplicates, list_elem_of_bind.
  split; intros (p & ? & ?); by exists p.
Qed.

Lemma Children_nil : Children doc [] = [].
Proof. done. Qed.

Lemma generation_Children s k :
  generation doc (Children doc s) k = generation doc s (S k).
Proof. induction k as [|k IH]; simpl; [done|]. by rewrite IH. Qed.

Lemma generation_nil k : generation doc [] k = [].
Proof. induction k as [|k IH]; simpl; [done|]. by rewrite IH. Qed.

Lemma generation_add s j k :
  generation doc s (j + k) = generation doc (generation doc s k) j.
Proof. induction j as [|j IH]; simpl; [done|]. by rewrite IH. Qed.

Lemma bounded_doc s : bounded doc (height doc) s.
Proof. intros p n _ Hn. by eapply height_nodeAt. Qed.

Lemma elementsBelow_bounded h s : elementsBelow doc h s → bounded doc h s.
Proof. intros Hs p n Hp Hn. destruct (Hs p Hp) as (n' & Hn' & _ & Hh). congruence. Qed.

Lemma elementsBelow_0 s : elementsBelow doc 0 s → s = [].
Proof.
  destruct s as [|p s]; [done|]. intros Hs.
  destruct (Hs p) as (n & _ & Hel & Hh); [by left|].
  destruct n; simpl in *; [lia|done].
Qed.

Lemma Children_below h s : bounded doc (S h) s → elementsBelow doc h (Children doc s).
Proof.
  intros Hs q (p & Hp & Hq)%elem_of_Children.
  apply elem_of_childPtrs in Hq as (name & attrs & kids & i & k & Hn & Hk & Hel & ->).
  exists k. split_and!; [|done|].
  - rewrite nodeAt_app, Hn. simpl. by rewrite Hk.
  - pose proof (height_kid name attrs _ _ _ Hk). specialize (Hs _ _ Hp Hn). lia.
Qed.

(** The loop of [childrenUntilMatch] ends within the height of the
    document. *)
Lemma untilMatch_total fuel s sel :
  elementsBelow doc fuel s → ∃ r, untilMatch W doc fuel s sel = Ret r.
Proof.
  revert s. induction fuel as [|fuel IH]; intros s Hs.
  - rewrite (elementsBelow_0 _ Hs). by eexists.
  - simpl. destruct (negb _ && _); [|by eexists].
    apply IH, Children_below, elementsBelow_bounded.
    intros p Hp. destruct (Hs p Hp) as (n & ? & ? & ?). exists n. split_and!; [done..|lia].
Qed.

(** Where the loop stops: at the first generation that is empty or has a
    match. *)
Lemma untilMatch_ret fuel s sel r :
  untilMatch W doc fuel s sel = Ret r →
  ∃ k, r = generation doc s k
       ∧ (r = [] ∨ Filter W doc r sel ≠ [])
       ∧ ∀ j, j < k → Filter W doc (generation doc s j) sel = [].
Proof.
  revert s. induction fuel as [|fuel IH]; intros s; simpl.
  - destruct (negb (length s =? 0) && (length (Filter W doc s sel) =? 0)) eqn:Hc; [done|].
    intros [= <-]. exists 0. split_and!; [done| |lia].
    apply andb_false_iff in Hc as [Hc|Hc].
    + left. apply negb_false_iff, Nat.eqb_eq in Hc. by destruct s.
    + right. apply Nat.eqb_neq in Hc. by destruct (Filter W doc s sel).
  - destruct (negb (length s =? 0) && (length (Filter W doc s sel) =? 0)) eqn:Hc.
    + intros (k & -> & Hstop & Hbefore)%IH. exists (S k).
      rewrite generation_Children in Hstop |- *. split_and!; [done..|].
      intros [|j] Hj.
      * apply andb_true_iff in Hc as [_ Hc]. apply Nat.eqb_eq in Hc.
        simpl. by destruct (Filter W doc s sel).
      * rewrite <- generation_Children. apply Hbefore. lia.
    + intros [= <-]. exists 0. split_and!; [done| |lia].
      apply andb_false_iff in Hc as [Hc|Hc].
      * left. apply negb_false_iff, Nat.eqb_eq in Hc. by destruct s.
      * right. apply Nat.eqb_neq in Hc. by destruct (Filter W doc s sel).
Qed.

Lemma childrenUntilMatch_spec s sel :
  ∃ r, childrenUntilMatch W doc s sel = Ret r
    ∧ ((∃ k, 1 ≤ k
            ∧ Filter W doc (generation doc s k) sel ≠ []
            ∧ (∀ j, 1 ≤ j < k → Filter W doc (generation doc s j) sel = [])
            ∧ r = Filter W doc (generation doc s k) sel)
       ∨ ((∀ k, 1 ≤ k → Filter W doc (generation doc s k) sel = []) ∧ r = s)).
Proof.
  unfold childrenUntilMatch.
  destruct (untilMatch_total (height doc) (Children doc s) sel) as [g Hg].
  { apply Children_below. intros p n Hp Hn. pose proof (bounded_doc s p n Hp Hn). lia. }
  rewrite Hg. simpl.
  apply untilMatch_ret in Hg as (k & -> & Hstop & Hbefore).
  rewrite generation_Children in Hstop |- *.
  destruct (Nat.eqb_spec (length (generation doc s (S k))) 0) as [Hlen|Hlen].
  - exists s. split; [done|]. right. split; [|done].
    assert (generation doc s (S k) = []) as Hnil.
    { by destruct (generation doc s (S k)). }
    intros k' Hk'. destruct (decide (k' < S k)) as [Hlt|Hge].
    + destruct k' as [|k']; [lia|]. rewrite <- generation_Children. apply Hbefore. lia.
    + replace k' with ((k' - S k) + S k) by lia.
      by rewrite generation_add, Hnil, generation_nil.
  - eexists. split; [done|]. left. exists (S k). split_and!; [lia| | |done].
    + destruct Hstop as [Hnil|Hne]; [|done]. by rewrite Hnil in Hlen.
    + intros [|j] Hj; [lia|]. rewrite <- generation_Children. apply Hbefore. lia.
Qed.

End ProviderFacts.

(** C3. The key search of a mapping decode goes down one generation of
    children at a time. The first generation with a node that matches the
    key selector (slot 1) is filtered to its matching nodes, and these are
    the nodes the pairs are decoded from; when no generation has a match the
    selection itself is used, and no error is raised. The search always
    returns. *)
Theorem key_search_first_matching_generation
    W doc (rec : Decoder) keyT eleT (s : Selection) m tag keySel :
  selector tag 1 = Ret keySel → keySel ≠ "" →
  ∃ keys,
    childrenUntilMatch W doc s keySel = Ret keys
    ∧ ((∃ k, 1 ≤ k
            ∧ Filter W doc (generation doc s k) keySel ≠ []
            ∧ (∀ j, 1 ≤ j < k → Filter W doc (generation doc s j) keySel = [])
            ∧ keys = Filter W doc (generation doc s k) keySel)
       ∨ ((∀ k, 1 ≤ k → Filter W doc (generation doc s k) keySel = []) ∧ keys = s))
    ∧ ∀ c, unmarshalMap W doc rec keyT eleT s (VMap m) tag c
           = mapEntries W doc rec keyT eleT keys (default [] m) tag c.
Proof.
  intros Hsel Hne.
  destruct (childrenUntilMatch_spec W doc s keySel) as (keys & Hkeys & Hspec).
  exists keys. split_and!; [done..|]. intros c.
  unfold unmarshalMap, mbind, m_mbind, m_bind, lift. rewrite Hsel.
  destruct (String.eqb_spec keySel ""); [done|]. by rewrite Hkeys.
Qed.

(** ** The type dispatcher *)

Ltac munfold :=
  unfold mbind, mret, m_mbind, m_mret, m_bind, m_ret, lift,
    outcome_mbind, outcome_ret, outcome_bind in *.

(** *** Indirection *)

(** The body of the loop of [indirect]. *)
Lemma indirect_eq t v :
  indirect t v
  = match t with
    | TUnmarshaler name _ => Ret (foundUnmarshaler name v [])
    | TPtr e =>
        match v with
        | VPtr (Some x) => r ← indirect e x; Ret (deeper viaPtr r)
        | VPtr None =>
            if isPtr e then Panic ReflectSet
            else Ret (deeper viaPtr (arrive e (zero e)))
        | _ => Stuck
        end
    | TInterface _ =>
        match v with
        | VInterface (Some (DPtrPtr elem x)) =>
            r ← indirect (TPtr elem) x; Ret (deeper (viaInterface elem) r)
        | _ => Ret (reached t v [])
        end
    | _ => Ret (reached t v [])
    end.
Proof. destruct v; reflexivity. Qed.

(** Induction along the pointers and the entered interfaces of a value. *)
Lemma chain_ind (P : Value → Prop) :
  (∀ v, (∀ x, chainLength x < chainLength v → P x) → P v) → ∀ v, P v.
Proof.
  intros Hstep v. remember (chainLength v) as n eqn:Hn. revert v Hn.
  induction n as [n IH] using lt_wf_ind. intros v ->.
  apply Hstep. intros x Hx. by eapply IH.
Qed.

(** The zero value of a type that is no pointer ends the loop: the closed
    form [arrive] is what a further round of the loop gives. *)
Lemma indirect_zero t : isPtr t = false → indirect t (zero t) = Ret (arrive t (zero t)).
Proof. intros Ht. rewrite indirect_eq. by destruct t. Qed.

(** *** Custom decoders *)

Lemma indirect_exposed t v :
  exposesUnmarshaler t = true →
  match indirect t v with
  | Ret (reached _ _ _) => False
  | _ => True
  end.
Proof.
  revert v. induction t; intros v Hex; try done; rewrite indirect_eq; [|done].
  destruct v as [| | | | | | | |p| | | |]; try done.
  destruct p as [x|].
  - specialize (IHt x Hex). munfold. by destruct (indirect t x) as [[]| | |].
  - destruct (isPtr t) eqn:Hp; [done|]. by destruct t.
Qed.

(** When [indirect] finds an [Unmarshaler], the result of the decode is the
    result of its method on the nodes of the selection; the tag is not
    looked at and the cache of value functions is not touched. *)
Lemma unmarshaler_takes_precedence W doc fuel t s v tag c name cur depth :
  indirect t v = Ret (foundUnmarshaler name cur depth) →
  unmarshalByType W doc (S fuel) t s v tag c
  = Ret (repoint depth (UnmarshalHTML W name doc s cur).1,
         wrapUnmErr (UnmarshalHTML W name doc s cur).2 None, c).
Proof.
  intros Hind. cbn [unmarshalByType]. unfold unmarshalByTypeBody. munfold. rewrite Hind.
  by destruct (UnmarshalHTML W name doc s cur).
Qed.

(** For a destination whose type has [UnmarshalHTML] behind its pointers,
    the decode is the method's result or a panic of [indirect]: the built-in
    dispatch does not run. *)
Lemma exposed_unmarshaler_decides W doc fuel t s v tag c :
  exposesUnmarshaler t = true →
  unmarshalByType W doc (S fuel) t s v tag c
  = match indirect t v with
    | Ret (foundUnmarshaler name cur depth) =>
        Ret (repoint depth (UnmarshalHTML W name doc s cur).1,
             wrapUnmErr (UnmarshalHTML W name doc s cur).2 None, c)
    | Ret (reached _ _ _) => Stuck
    | Panic k => Panic k
    | Stuck => Stuck
    | OutOfFuel => OutOfFuel
    end.
Proof.
  intros Hex. pose proof (indirect_exposed t v Hex) as Hind.
  destruct (indirect t v) as [[name cur depth|]| | |] eqn:Ht; try done.
  - by apply unmarshaler_takes_precedence.
  - cbn [unmarshalByType]. unfold unmarshalByTypeBody. munfold. by rewrite Ht.
  - cbn [unmarshalByType]. unfold unmarshalByTypeBody. munfold. by rewrite Ht.
  - cbn [unmarshalByType]. unfold unmarshalByTypeBody. munfold. by rewrite Ht.
Qed.

(** C5. A custom decoder is claimed to be invoked at any depth of pointer
    indirection. For a nil pointer to a pointer to a type with
    [UnmarshalHTML], [indirect] allocates with the fully dereferenced type
    and [reflect.Value.Set] panics: the method is not invoked, neither for a
    field nor for the root destination. One pointer is handled. *)
Theorem nil_pointer_to_pointer_to_unmarshaler_panics W doc fuel name u s tag c :
  indirect (TPtr (TPtr (TUnmarshaler name u))) (VPtr None) = Panic ReflectSet
  ∧ unmarshalByType W doc (S fuel) (TPtr (TPtr (TUnmarshaler name u))) s (VPtr None) tag c
    = Panic ReflectSet
  ∧ UnmarshalSelection W doc s
      (Some (TPtr (TPtr (TPtr (TUnmarshaler name u))), VPtr (Some (VPtr None)))) c
    = Panic ReflectSet
  ∧ unmarshalByType W doc (S fuel) (TPtr (TUnmarshaler name u)) s (VPtr None) tag c
    = Ret (VPtr (Some (UnmarshalHTML W name doc s (zero u)).1),
           wrapUnmErr (UnmarshalHTML W name doc s (zero u)).2 None, c).
Proof.
  split_and!; try reflexivity.
  by rewrite (unmarshaler_takes_precedence _ _ _ _ _ _ _ _ name (zero u) [viaPtr]).
Qed.

(** *** Tags that begin with a comma *)

(** C8. An annotation that begins with a comma has an empty slot 0 and is
    claimed to decode with the selection unchanged. Both [preprocess] and
    [selector] read the first byte of the empty first token, and the decode
    of a record with such a field panics. *)
Theorem leading_comma_tag_panics W doc (rec : Decoder) rest name ft fields s fv vals c :
  preprocess W doc (String comma rest) s = Panic IndexOutOfRange
  ∧ selector (String comma rest) 0 = Panic IndexOutOfRange
  ∧ unmarshalStruct W doc rec ((name, String comma rest, ft) :: fields) s
      (VStruct (fv :: vals)) c
    = Panic IndexOutOfRange.
Proof.
  assert (∃ tok toks, Split (String comma rest) comma = "" :: tok :: toks) as (tok & toks & Harr).
  { simpl. pose proof (Split_nonempty rest comma). destruct (Split rest comma); [done|eauto]. }
  assert (preprocess W doc (String comma rest) s = Panic IndexOutOfRange) as Hpre.
  { unfold preprocess. by rewrite Harr. }
  split_and!; [done| |].
  - unfold selector. rewrite Harr. done.
  - unfold unmarshalStruct. cbn [structLoop].
    change (String.eqb (String comma rest) ignoreTag) with false.
    change (String.eqb (String comma rest) "") with false.
    cbv iota. munfold. by rewrite Hpre.
Qed.

(** *** Fixed-size sequences *)

Section ArrayFacts.
Context (rec : Decoder).

Lemma arrayLoop_failure eleT tag s i elems c elems' j e c' :
  arrayLoop rec eleT tag s i elems c = Ret (elems', Some (j, e), c') →
  ∃ x x' c1 c2,
    i ≤ j < i + length elems ∧ elems !! (j - i) = Some x
    ∧ rec eleT (Eq s j) x tag c1 = Ret (x', Some e, c2).
Proof.
  revert i c elems'. induction elems as [|x elems IH]; intros i c elems'; simpl.
  - munfold. done.
  - munfold. destruct (rec eleT (Eq s i) x tag c) as [[[x' [e'|]] c1]| | |] eqn:Hx; try done.
    + intros [= <- <- <- <-]. exists x, x', c, c1.
      rewrite Nat.sub_diag. split_and!; [lia..|done|done].
    + destruct (arrayLoop rec eleT tag s (S i) elems c1) as [[[rest f] c2]| | |] eqn:Hrest;
        try done.
      intros [= <- -> <-].
      destruct (IH _ _ _ Hrest) as (y & y' & d1 & d2 & Hj & Hy & Hrec).
      exists y, y', d1, d2. split_and!; [lia..| |done].
      replace (j - i) with (S (j - S i)) by lia. done.
Qed.

End ArrayFacts.

Section ArrayTurns.
Context (rec : Decoder).

(** The loop of [unmarshalArray] returns without failure exactly when
    the elements decode in turn; [cs] are the caches after each of them. *)
Lemma arrayLoop_succeeds eleT tag s i elems c elems' c' :
  arrayLoop rec eleT tag s i elems c = Ret (elems', None, c')
  ↔ ∃ cs : list (gmap string valFn),
      length cs = length elems ∧ length elems' = length elems
      ∧ (c :: cs) !! length elems = Some c'
      ∧ ∀ j x, elems !! j = Some x →
          ∃ x' c1 c2,
            (c :: cs) !! j = Some c1 ∧ cs !! j = Some c2 ∧ elems' !! j = Some x'
            ∧ rec eleT (Eq s (i + j)) x tag c1 = Ret (x', None, c2).
Proof.
  revert i c elems'. induction elems as [|x elems IH]; intros i c elems'.
  - simpl. munfold. split.
    + intros [= <- <-]. exists []. split_and!; [done..|]. intros j x Hx.
      by rewrite lookup_nil in Hx.
    + intros (cs & Hcs & Hlen & Hc & _). destruct cs; [|done]. destruct elems'; [|done].
      by injection Hc as ->.
  - cbn [arrayLoop]. munfold. split.
    + destruct (rec eleT (Eq s i) x tag c) as [[[x' [e|]] c1]| | |] eqn:Hx; try done.
      destruct (arrayLoop rec eleT tag s (S i) elems c1) as [[[rest f] c2]| | |] eqn:Hrest;
        try done.
      intros [= <- -> <-]. apply IH in Hrest as (cs & Hcs & Hlen & Hc & Hall).
      exists (c1 :: cs). split_and!; [simpl; lia..|done|].
      intros [|j] y Hy; simplify_eq/=.
      * exists x', c, c1. by rewrite Nat.add_0_r.
      * destruct (Hall j y Hy) as (y' & d1 & d2 & Hd1 & Hd2 & Hy' & Hrec).
        exists y', d1, d2. by replace (i + S j) with (S i + j) by lia.
    + intros (cs & Hcs & Hlen & Hc & Hall).
      destruct (Hall 0 x eq_refl) as (x' & c1 & c2 & Hc1 & Hc2 & Hx' & Hrec).
      rewrite Nat.add_0_r in Hrec. simplify_eq/=.
      destruct cs as [|c2' cs]; simplify_eq/=. destruct elems' as [|x'' rest]; simplify_eq/=.
      rewrite Hrec.
      assert (arrayLoop rec eleT tag s (S i) elems c2 = Ret (rest, None, c')) as ->; [|done].
      apply IH. exists cs. split_and!; [lia..|done|].
      intros j y Hy. destruct (Hall (S j) y Hy) as (y' & d1 & d2 & Hd1 & Hd2 & Hy' & Hr).
      exists y', d1, d2. by replace (S i + j) with (i + S j) by lia.
Qed.

(** The loop returns the failure [e] of the element of index [k] exactly
    when the elements before it decode in turn and that element fails
    with [e]; the elements after it are not touched. *)
Lemma arrayLoop_fails eleT tag s i elems c elems' j e c' :
  arrayLoop rec eleT tag s i elems c = Ret (elems', Some (j, e), c')
  ↔ ∃ (k : nat) (cs : list (gmap string valFn)) x x' ck,
      j = i + k ∧ length cs = k ∧ length elems' = length elems
      ∧ elems !! k = Some x ∧ (c :: cs) !! k = Some ck ∧ elems' !! k = Some x'
      ∧ rec eleT (Eq s (i + k)) x tag ck = Ret (x', Some e, c')
      ∧ (∀ m y, m < k → elems !! m = Some y →
           ∃ y' c1 c2,
             (c :: cs) !! m = Some c1 ∧ cs !! m = Some c2 ∧ elems' !! m = Some y'
             ∧ rec eleT (Eq s (i + m)) y tag c1 = Ret (y', None, c2))
      ∧ ∀ m, k < m → elems' !! m = elems !! m.
Proof.
  revert i c elems'. induction elems as [|x elems IH]; intros i c elems'.
  - simpl. munfold. split; [done|]. by intros (k & cs & y & y' & ck & _ & _ & _ & ? & _).
  - cbn [arrayLoop]. munfold. split.
    + destruct (rec eleT (Eq s i) x tag c) as [[[x' [e'|]] c1]| | |] eqn:Hx; try done.
      * intros [= <- <- <- <-]. exists 0, [], x, x', c. rewrite Nat.add_0_r.
        split_and!; try done; [intros; lia|]. by intros [|m] Hm; [lia|].
      * destruct (arrayLoop rec eleT tag s (S i) elems c1) as [[[rest f] c2]| | |] eqn:Hrest;
          try done.
        intros [= <- -> <-].
        apply IH in Hrest
          as (k & cs & y & y' & ck & -> & Hcs & Hlen & Hy & Hck & Hy' & Hrec & Hbefore & Hafter).
        exists (S k), (c1 :: cs), y, y', ck.
        split_and!; try done; [lia|simpl; lia..| | |].
        -- by replace (i + S k) with (S i + k) by lia.
        -- intros [|m] z Hm Hz; simplify_eq/=.
           ++ exists x', c, c1. by rewrite Nat.add_0_r.
           ++ destruct (Hbefore m z) as (z' & d1 & d2 & ? & ? & ? & ?); [lia|done|].
              exists z', d1, d2. by replace (i + S m) with (S i + m) by lia.
        -- intros [|m] Hm; [lia|]. simpl. apply Hafter. lia.
    + intros (k & cs & y & y' & ck & -> & Hcs & Hlen & Hy & Hck & Hy' & Hrec & Hbefore & Hafter).
      destruct k as [|k].
      * rewrite Nat.add_0_r in *. simplify_eq/=. rewrite Hrec.
        destruct elems' as [|x'' rest]; simplify_eq/=.
        assert (rest = elems) as ->; [|done].
        apply list_eq. intros m. apply (Hafter (S m)). lia.
      * destruct (Hbefore 0 x) as (x' & c1 & c2 & Hc1 & Hc2 & Hx' & Hr); [lia|done|].
        rewrite Nat.add_0_r in Hr. simplify_eq/=.
        destruct cs as [|c2' cs]; simplify_eq/=. destruct elems' as [|x'' rest]; simplify_eq/=.
        rewrite Hr.
        assert (arrayLoop rec eleT tag s (S i) elems c2
                = Ret (rest, Some (i + S (length cs), e), c')) as ->; [|done].
        apply IH. exists (length cs), cs, y, y', ck.
        split_and!; try done; [lia| | |].
        -- by replace (S i + length cs) with (i + S (length cs)) by lia.
        -- intros m z Hm Hz. destruct (Hbefore (S m) z) as (z' & d1 & d2 & ? & ? & ? & ?);
             [lia|done|].
           exists z', d1, d2. by replace (S i + m) with (i + S m) by lia.
        -- intros m Hm. apply (Hafter (S m)). lia.
Qed.

End ArrayTurns.

(** C6, as amended. For an array destination of declared length N: when the
    selection does not have exactly N nodes, the decode returns a
    length-mismatch error that references the destination, decodes no
    element and leaves destination and cache as they were. When it has
    exactly N nodes, the elements are decoded one after the other, each
    against the node of its index, the cache going from one decode to the
    next: the decode succeeds exactly when every element decode succeeds,
    and the array then holds the decoded elements; it returns an error
    exactly when the elements before some index decode and the element of
    that index fails, and the error is then the error of that element
    tagged with its index, the elements after it being left as they were. *)
Theorem unmarshalArray_exact_length (rec : Decoder) len eleT s elems tag c :
  length elems = len →
  (len ≠ length s →
     unmarshalArray rec len eleT s (VArray elems) tag c
     = Ret (VArray elems,
            Some (CannotUnmarshalError (Some (TArray len eleT, VArray elems))
                    arrayLengthMismatch None "" noFldOrIdx), c))
  ∧ (len = length s →
       (∀ v' c',
          unmarshalArray rec len eleT s (VArray elems) tag c = Ret (v', None, c')
          ↔ ∃ elems' (cs : list (gmap string valFn)),
              v' = VArray elems' ∧ length cs = len ∧ length elems' = len
              ∧ (c :: cs) !! len = Some c'
              ∧ ∀ j x, elems !! j = Some x →
                  ∃ x' c1 c2,
                    (c :: cs) !! j = Some c1 ∧ cs !! j = Some c2 ∧ elems' !! j = Some x'
                    ∧ rec eleT (Eq s j) x tag c1 = Ret (x', None, c2))
       ∧ (∀ v' e c',
            unmarshalArray rec len eleT s (VArray elems) tag c = Ret (v', Some e, c')
            ↔ ∃ elems' (k : nat) (cs : list (gmap string valFn)) x x' ck inner,
                v' = VArray elems'
                ∧ e = CannotUnmarshalError (Some (TArray len eleT, v'))
                        typeConversionError (Some inner) "" (index k)
                ∧ length cs = k ∧ length elems' = len
                ∧ elems !! k = Some x ∧ (c :: cs) !! k = Some ck ∧ elems' !! k = Some x'
                ∧ rec eleT (Eq s k) x tag ck = Ret (x', Some inner, c')
                ∧ (∀ m y, m < k → elems !! m = Some y →
                     ∃ y' c1 c2,
                       (c :: cs) !! m = Some c1 ∧ cs !! m = Some c2 ∧ elems' !! m = Some y'
                       ∧ rec eleT (Eq s m) y tag c1 = Ret (y', None, c2))
                ∧ ∀ m, k < m → elems' !! m = elems !! m)).
Proof.
  intros Hlen. unfold unmarshalArray.
  destruct (Nat.eqb_spec (length elems) len) as [_|?]; [|done].
  destruct (Nat.eqb_spec len (length s)) as [Heq|Hne]; simpl; [|by split].
  split; [done|intros _]. munfold. split.
  - intros v' c'. split.
    + destruct (arrayLoop rec eleT tag s 0 elems c) as [[[elems' [[j inner]|]] c1]| | |] eqn:Hloop;
        try done.
      intros [= <- <-]. apply arrayLoop_succeeds in Hloop as (cs & Hcs & Hlen' & Hc & Hall).
      exists elems', cs. rewrite Hlen in *. done.
    + intros (elems' & cs & -> & Hcs & Hlen' & Hc & Hall).
      assert (arrayLoop rec eleT tag s 0 elems c = Ret (elems', None, c')) as ->; [|done].
      apply arrayLoop_succeeds. exists cs. rewrite Hlen. done.
  - intros v' e c'. split.
    + destruct (arrayLoop rec eleT tag s 0 elems c) as [[[elems' [[j inner]|]] c1]| | |] eqn:Hloop;
        try done.
      intros [= <- <- <-]. apply arrayLoop_fails in Hloop
        as (k & cs & x & x' & ck & -> & Hcs & Hlen' & Hx & Hck & Hx' & Hrec & Hbefore & Hafter).
      exists elems', k, cs, x, x', ck, inner. rewrite Hlen in *. done.
    + intros (elems' & k & cs & x & x' & ck & inner & -> & -> & Hcs & Hlen' & Hx & Hck & Hx'
              & Hrec & Hbefore & Hafter).
      assert (arrayLoop rec eleT tag s 0 elems c = Ret (elems', Some (k, inner), c')) as ->;
        [|done].
      apply arrayLoop_fails. exists k, cs, x, x', ck. rewrite Hlen. done.
Qed.

(** *** Scalars *)

Lemma indirect_scalar t v :
  scalarKind t = true → holdsPointerToPointer v = false →
  indirect t v = Ret (reached t v []).
Proof.
  intros Ht Hv. rewrite indirect_eq. destruct t; try done.
  by destruct v as [| | | | | |[[]|]| | | | | |].
Qed.

Lemma unmarshalByType_scalar W doc fuel t s v tag c :
  scalarKind t = true → holdsPointerToPointer v = false → appendNodes v s = None →
  unmarshalByType W doc (S fuel) t s v tag c = unmarshalScalar W doc t s v tag c.
Proof.
  intros Hsc Hv Hnodes. cbn [unmarshalByType]. unfold unmarshalByTypeBody.
  rewrite (indirect_scalar _ _ Hsc Hv). munfold. cbv beta iota.
  unfold dispatch. rewrite Hnodes.
  destruct t; try done;
    by destruct (unmarshalScalar W doc _ s v tag c) as [[[? ?] ?]| | |].
Qed.

(** What [reflect.Value.SetInt] and [SetUint] keep of a 64-bit number. *)
Lemma wrapSigned_fits bits i :
  (0 < bits)%Z → (- 2 ^ (bits - 1) ≤ i < 2 ^ (bits - 1))%Z → wrapSigned bits i = i.
Proof.
  intros Hbits Hi. unfold wrapSigned.
  assert (2 ^ bits = 2 * 2 ^ (bits - 1))%Z as Hpow.
  { replace bits with (Z.succ (bits - 1)) at 1 by lia. rewrite Z.pow_succ_r; lia. }
  assert (0 < 2 ^ (bits - 1))%Z as Hpos by (apply Z.pow_pos_nonneg; lia).
  destruct (Z.le_gt_cases 0 i) as [Hnn|Hneg].
  - rewrite Z.mod_small by lia. destruct (Z.ltb_spec i (2 ^ (bits - 1))); lia.
  - assert (i mod 2 ^ bits = i + 2 ^ bits)%Z as ->.
    { symmetry. apply (Z.mod_unique_pos _ _ (-1)); lia. }
    destruct (Z.ltb_spec (i + 2 ^ bits) (2 ^ (bits - 1))); lia.
Qed.

Lemma wrapUnsigned_fits bits u : (0 ≤ u < 2 ^ bits)%Z → wrapUnsigned bits u = u.
Proof. intros Hu. unfold wrapUnsigned. by apply Z.mod_small. Qed.


(** *** Mappings *)

Section MapFacts.
Context (W : World) (doc : Node) (rec : Decoder).

Lemma mapLoop_app keyT eleT tag valTag pre rest entries c :
  mapLoop W doc rec keyT eleT tag valTag (pre ++ rest) entries c
  = match mapLoop W doc rec keyT eleT tag valTag pre entries c with
    | Ret (entries1, None, c1) => mapLoop W doc rec keyT eleT tag valTag rest entries1 c1
    | other => other
    end.
Proof.
  revert entries c. induction pre as [|p pre IH]; intros entries c; [done|].
  cbn [app mapLoop]. munfold.
  destruct (mapPair W doc rec keyT eleT tag valTag p entries c)
    as [[[entries' [e|]] c1]| | |]; first [done|apply IH].
Qed.

(** A pair that fails adds nothing to the map. *)
Lemma mapPair_failure keyT eleT tag valTag p entries c entries' e c' :
  mapPair W doc rec keyT eleT tag valTag p entries c = Ret (entries', Some e, c') →
  entries' = entries.
Proof.
  unfold mapPair. simpl. munfold.
  destruct (rec _ [p] _ tag c) as [[[newK [ek|]] ck]| | |]; try done.
  - destruct (valFunc valTag ck) as [[vf cv]| | |]; try done. by intros [= <- _ _].
  - destruct (rec _ [p] _ valTag ck) as [[[newV [ev|]] cv]| | |]; try done.
    + by intros [= <- _ _].
    + destruct (slotOfNew eleT newV); try done. by destruct (slotOfNew keyT newK).
Qed.

End MapFacts.


(** *** Records *)

Section StructFacts.
Context (W : World) (doc : Node) (rec : Decoder).

Lemma structLoop_ignore fields1 fields2 name ft vals1 vals2 fv s c :
  length fields1 = length vals1 →
  structLoop W doc rec (fields1 ++ (name, ignoreTag, ft) :: fields2)
    (vals1 ++ fv :: vals2) s c
  = match structLoop W doc rec (fields1 ++ fields2) (vals1 ++ vals2) s c with
    | Ret (vals', failure, c') =>
        Ret (take (length vals1) vals' ++ fv :: drop (length vals1) vals', failure, c')
    | Panic k => Panic k
    | Stuck => Stuck
    | OutOfFuel => OutOfFuel
    end.
Proof.
  revert vals1 c. induction fields1 as [|[[n1 t1] ft1] fields1 IH];
    intros [|v1 vals1] c Hlen; simplify_eq/=.
  - munfold. by destruct (structLoop W doc rec fields2 vals2 s c) as [[[? ?] ?]| | |].
  - specialize (IH vals1). munfold.
    destruct (String.eqb t1 ignoreTag).
    { rewrite IH by done.
      by destruct (structLoop W doc rec (fields1 ++ fields2) (vals1 ++ vals2) s c)
        as [[[? ?] ?]| | |]. }
    destruct (String.eqb t1 "").
    + destruct (indirect ft1 v1) as [[]| | |]; try done.
      * destruct (preprocess W doc t1 s); try done.
        destruct (rec ft1 _ v1 t1 c) as [[[fv' [e|]] c1]| | |]; try done.
        { cbn [take drop app]. by rewrite take_app_length, drop_app_length. }
        rewrite IH by done.
        by destruct (structLoop W doc rec (fields1 ++ fields2) (vals1 ++ vals2) s c1)
          as [[[? ?] ?]| | |].
      * rewrite IH by done.
        by destruct (structLoop W doc rec (fields1 ++ fields2) (vals1 ++ vals2) s c)
          as [[[? ?] ?]| | |].
    + destruct (preprocess W doc t1 s); try done.
      destruct (selector t1 0); try done.
      destruct (rec ft1 _ v1 t1 c) as [[[fv' [e|]] c1]| | |]; try done.
      { cbn [take drop app]. by rewrite take_app_length, drop_app_length. }
      rewrite IH by done.
      by destruct (structLoop W doc rec (fields1 ++ fields2) (vals1 ++ vals2) s c1)
        as [[[? ?] ?]| | |].
Qed.

End StructFacts.

(** C10. A field whose tag is exactly ["!ignore"] is skipped, whatever its
    type, a type with [UnmarshalHTML] included: the decode of the record is
    the decode of the record without that field, with the field put back at
    its place with the contents it had; the error, if any, is the error of
    another field. *)
Theorem ignored_field_is_skipped
    W doc (rec : Decoder) fields1 fields2 name ft vals1 vals2 fv s c :
  length fields1 = length vals1 →
  let fields := fields1 ++ (name, ignoreTag, ft) :: fields2 in
  unmarshalStruct W doc rec fields s (VStruct (vals1 ++ fv :: vals2)) c
  = match structLoop W doc rec (fields1 ++ fields2) (vals1 ++ vals2) s c with
    | Ret (vals', failure, c') =>
        let v' := VStruct (take (length vals1) vals' ++ fv :: drop (length vals1) vals') in
        Ret (v',
             match failure with
             | Some (other, e) =>
                 Some (CannotUnmarshalError (Some (TStruct fields, v'))
                         typeConversionError (Some e) "" (fieldName other))
             | None => None
             end, c')
    | Panic k => Panic k
    | Stuck => Stuck
    | OutOfFuel => OutOfFuel
    end.
Proof.
  intros Hlen fields. unfold unmarshalStruct. munfold.
  unfold fields. rewrite structLoop_ignore by done.
  by destruct (structLoop W doc rec (fields1 ++ fields2) (vals1 ++ vals2) s c)
    as [[[? [[? ?]|]] ?]| | |].
Qed.

(** ** Decoding below a node *)

Lemma bind_agree {A B} (f g : A → list B) (l : list A) :
  Forall (λ x, f x = g x) l → l ≫= f = l ≫= g.
Proof. induction 1 as [|x l Hx _ IH]; [done|]. cbn. by rewrite Hx, IH. Qed.

Lemma filter_agree {A} (P Q : A → Prop) `{∀ x, Decision (P x)} `{∀ x, Decision (Q x)}
    (l : list A) :
  Forall (λ x, P x ↔ Q x) l → filter P l = filter Q l.
Proof.
  induction 1 as [|x l Hx _ IH]; [done|]. rewrite !filter_cons, IH.
  destruct (decide (P x)) as [HP|HP], (decide (Q x)) as [HQ|HQ];
    [done|destruct HQ; by apply Hx|destruct HP; by apply Hx|done].
Qed.

Lemma omap_agree {A B} (f g : A → option B) (l : list A) :
  Forall (λ x, f x = g x) l → omap f l = omap g l.
Proof. induction 1 as [|x l Hx _ IH]; [done|]. cbn. by rewrite Hx, IH. Qed.

Lemma within_nil p : within p [].
Proof. constructor. Qed.

Lemma within_singleton p q : within p [q] ↔ p `prefix_of` q.
Proof. unfold within. rewrite Forall_singleton. done. Qed.

Lemma within_elem p s q : within p s → q ∈ s → p `prefix_of` q.
Proof. unfold within. rewrite Forall_forall. eauto. Qed.

Lemma within_Eq p s i : within p s → within p (Eq s i).
Proof.
  intros Hs. unfold Eq. destruct (s !! i) as [q|] eqn:Hq; [|apply within_nil].
  apply within_singleton, (within_elem _ s); [done|]. by eapply list_elem_of_lookup_2.
Qed.

(** The pointers to the descendants of a node extend the pointer to the
    node. *)
Lemma descendants_prefix h n q :
  height n ≤ h → Forall (λ r, q `prefix_of` r) (descendants n q).
Proof.
  revert n q. induction h as [|h IH]; intros [name attrs kids|d] q Hh; simpl in *;
    try by (constructor || lia).
  assert (Forall (λ k, height k ≤ h) kids) as Hkids.
  { apply Forall_forall. intros k [i Hk]%list_elem_of_lookup_1.
    pose proof (height_kid name attrs _ _ _ Hk) as Hlt. simpl in Hlt. lia. }
  clear Hh. generalize 0 as i. induction Hkids as [|k kids Hk _ IHk]; intros i; [constructor|].
  rewrite !Forall_app. split_and!.
  - destruct (isElement k); constructor; [|constructor]. by apply prefix_app_r.
  - eapply Forall_impl; [apply IH, Hk|]. simpl. intros r Hr.
    etrans; [|exact Hr]. by apply prefix_app_r.
  - apply IHk.
Qed.

(** The pointers to the descendants of a node are longer than the pointer
    to the node. *)
Lemma descendants_longer h n q :
  height n ≤ h → Forall (λ r, length q < length r) (descendants n q).
Proof.
  revert n q. induction h as [|h IH]; intros [name attrs kids|d] q Hh; simpl in *;
    try by (constructor || lia).
  assert (Forall (λ k, height k ≤ h) kids) as Hkids.
  { apply Forall_forall. intros k [i Hk]%list_elem_of_lookup_1.
    pose proof (height_kid name attrs _ _ _ Hk) as Hlt. simpl in Hlt. lia. }
  clear Hh. generalize 0 as i. induction Hkids as [|k kids Hk _ IHk]; intros i; [constructor|].
  rewrite !Forall_app. split_and!.
  - destruct (isElement k); constructor; [|constructor]. rewrite length_app. simpl. lia.
  - eapply Forall_impl; [apply IH, Hk|]. simpl. intros r Hr.
    rewrite length_app in Hr. simpl in Hr. lia.
  - apply IHk.
Qed.

Section Locality.
Context (W : World) (d1 d2 : Node) (p : NodePtr) (L : string → Prop).
Hypothesis Hsub : nodeAt d1 p = nodeAt d2 p.
Hypothesis Hmatch :
  ∀ sel q, L sel → p `prefix_of` q → matches W sel d1 q = matches W sel d2 q.

Lemma nodeAt_agree q : p `prefix_of` q → nodeAt d1 q = nodeAt d2 q.
Proof. intros [r ->]. by rewrite !nodeAt_app, Hsub. Qed.

Lemma childPtrs_agree q : p `prefix_of` q → childPtrs d1 q = childPtrs d2 q.
Proof. intros Hq. unfold childPtrs. by rewrite (nodeAt_agree q Hq). Qed.

Lemma Children_agree s : within p s → Children d1 s = Children d2 s.
Proof.
  intros Hs. unfold Children. f_equal. apply bind_agree.
  eapply Forall_impl; [exact Hs|]. apply childPtrs_agree.
Qed.

Lemma Children_within d s : within p s → within p (Children d s).
Proof.
  intros Hs. apply Forall_forall. intros q (q' & Hq' & Hq)%elem_of_Children.
  apply elem_of_childPtrs in Hq as (? & ? & ? & i & ? & _ & _ & _ & ->).
  apply prefix_app_r. by eapply within_elem.
Qed.

Lemma Filter_agree s sel : L sel → within p s → Filter W d1 s sel = Filter W d2 s sel.
Proof.
  intros Hsel Hs. unfold Filter. apply filter_agree.
  eapply Forall_impl; [exact Hs|]. intros q Hq. simpl. by rewrite (Hmatch sel q Hsel Hq).
Qed.

Lemma Filter_within d s sel : within p s → within p (Filter W d s sel).
Proof.
  intros Hs. apply Forall_forall. intros q [_ Hq]%list_elem_of_filter.
  by eapply within_elem.
Qed.

Lemma Find_within d s sel : within p s → within p (Find W d s sel).
Proof.
  intros Hs. apply Forall_forall. unfold Find.
  intros q (q' & Hq & Hq')%elem_of_appendWithoutDuplicates%list_elem_of_bind.
  destruct (nodeAt d q') as [n|]; [|by apply elem_of_nil in Hq].
  apply list_elem_of_filter in Hq as [_ Hq].
  pose proof (descendants_prefix (height n) n q' (le_n _)) as Hdesc.
  rewrite Forall_forall in Hdesc. etrans; [|by apply Hdesc]. by eapply within_elem.
Qed.

Lemma Find_agree s sel : L sel → within p s → Find W d1 s sel = Find W d2 s sel.
Proof.
  intros Hsel Hs. unfold Find. f_equal. apply bind_agree.
  eapply Forall_impl; [exact Hs|]. intros q Hq. simpl.
  rewrite (nodeAt_agree q Hq). destruct (nodeAt d2 q) as [n|]; [|done].
  apply filter_agree.
  eapply Forall_impl; [apply (descendants_prefix (height n)); lia|].
  intros r Hr. simpl. rewrite (Hmatch sel r Hsel); [done|]. by etrans.
Qed.

Lemma applyVal_agree f s : within p s → applyVal W d1 f s = applyVal W d2 f s.
Proof.
  intros Hs. destruct f as [| |attr]; simpl.
  - f_equal. unfold SelText. f_equal. apply omap_agree.
    eapply Forall_impl; [exact Hs|]. intros q Hq. simpl. by rewrite (nodeAt_agree q Hq).
  - f_equal. unfold SelHtml. destruct Hs as [|q s Hq _]; [done|].
    by rewrite (nodeAt_agree q Hq).
  - unfold SelAttr. destruct Hs as [|q s Hq _]; [done|].
    by rewrite (nodeAt_agree q Hq).
Qed.

Lemma untilMatch_agree fuel s sel :
  L sel → within p s → untilMatch W d1 fuel s sel = untilMatch W d2 fuel s sel.
Proof.
  intros Hsel. revert s. induction fuel as [|fuel IH]; intros s Hs; simpl;
    rewrite (Filter_agree s sel Hsel Hs); [done|].
  destruct (negb _ && _); [|done].
  rewrite (Children_agree s Hs). apply IH. by apply Children_within.
Qed.

Lemma untilMatch_mono d fuel fuel' s sel r :
  untilMatch W d fuel s sel = Ret r → fuel ≤ fuel' → untilMatch W d fuel' s sel = Ret r.
Proof.
  revert fuel' s. induction fuel as [|fuel IH]; intros [|fuel'] s; simpl; try lia;
    destruct (negb _ && _); try done.
  intros Hr Hle. apply IH; [done|lia].
Qed.

Lemma generation_within d s k : within p s → within p (generation d s k).
Proof. intros Hs. induction k as [|k IH]; [done|]. simpl. by apply Children_within. Qed.

Lemma childrenUntilMatch_agree s sel :
  L sel → within p s →
  childrenUntilMatch W d1 s sel = childrenUntilMatch W d2 s sel
  ∧ ∀ r, childrenUntilMatch W d1 s sel = Ret r → within p r.
Proof.
  intros Hsel Hs. unfold childrenUntilMatch.
  destruct (untilMatch_total W d1 (height d1) (Children d1 s) sel) as [g1 Hg1].
  { apply Children_below. intros q n Hq Hn. pose proof (bounded_doc d1 s q n Hq Hn). lia. }
  destruct (untilMatch_total W d2 (height d2) (Children d2 s) sel) as [g2 Hg2].
  { apply Children_below. intros q n Hq Hn. pose proof (bounded_doc d2 s q n Hq Hn). lia. }
  assert (g1 = g2) as <-.
  { apply (untilMatch_mono _ _ (height d1 `max` height d2)) in Hg1; [|lia].
    apply (untilMatch_mono _ _ (height d1 `max` height d2)) in Hg2; [|lia].
    rewrite (Children_agree s Hs), untilMatch_agree in Hg1 by (done || by apply Children_within).
    congruence. }
  rewrite Hg1, Hg2. simpl.
  assert (within p g1) as Hg.
  { apply untilMatch_ret in Hg1 as (k & -> & _). by apply generation_within, Children_within. }
  rewrite (Filter_agree g1 sel Hsel Hg). split; [done|].
  intros r. destruct (length g1 =? 0); intros [= <-]; [done|]. by apply Filter_within.
Qed.

End Locality.

Lemma plainType_TypeDeref t : plainType (TypeDeref t) = plainType t.
Proof. induction t; simpl; done. Qed.

Lemma plainType_newOf t : plainType t = true → plainType (TPtr (TypeDeref t)) = true.
Proof. intros Ht. simpl. by rewrite plainType_TypeDeref. Qed.

(** Induction on types, with the types of the fields of a record. *)
Lemma GoType_fields_ind (P : GoType → Prop) :
  P TBool → (∀ bits, P (TInt bits)) → (∀ bits, P (TUint bits)) → (∀ bits, P (TFloat bits)) →
  P TString → P TOtherKind → (∀ n, P (TInterface n)) → P TNodes →
  (∀ e, P e → P (TPtr e)) →
  (∀ fields, Forall (λ f, P f.2) fields → P (TStruct fields)) →
  (∀ e, P e → P (TSlice e)) → (∀ len e, P e → P (TArray len e)) →
  (∀ k e, P k → P e → P (TMap k e)) →
  (∀ name u, P u → P (TUnmarshaler name u)) →
  ∀ t, P t.
Proof.
  intros HBool HInt HUint HFloat HString HOther HIface HNodes HPtr HStruct HSlice HArray
    HMap HUnm.
  fix IH 1. intros [|bits|bits|bits| | |n| |e|fields|e|len e|k e|name u].
  - apply HBool.
  - apply HInt.
  - apply HUint.
  - apply HFloat.
  - apply HString.
  - apply HOther.
  - apply HIface.
  - apply HNodes.
  - apply HPtr, IH.
  - apply HStruct. induction fields as [|[[name tag] ft] fields IHfields]; constructor.
    + apply IH.
    + apply IHfields.
  - apply HSlice, IH.
  - apply HArray, IH.
  - apply HMap; apply IH.
  - apply HUnm, IH.
Qed.

Lemma typeSelectors_TypeDeref t : typeSelectors (TypeDeref t) = typeSelectors t.
Proof. induction t; simpl; done. Qed.

Lemma ifaceFree_zero t : ifaceFree (zero t) = true.
Proof.
  induction t as [| | | | | | | | |fields IH| |len e IH| |] using GoType_fields_ind;
    simpl; try done.
  - apply forallb_forall. intros v (f & <- & Hf)%in_map_iff.
    rewrite Forall_forall in IH. apply IH. by apply list_elem_of_In.
  - apply forallb_forall. intros v Hv%list_elem_of_In.
    by apply elem_of_replicate in Hv as [-> _].
Qed.

(** On a destination without custom decoder whose interfaces hold no
    pointer to a pointer, [indirect] follows the pointers of the type. *)
Lemma indirect_plain t v :
  plainType t = true → ifaceFree v = true →
  match indirect t v with
  | Ret (reached t' v' _) =>
      plainType t' = true ∧ ifaceFree v' = true ∧ typeSelectors t' = typeSelectors t
  | Ret (foundUnmarshaler _ _ _) => False
  | _ => True
  end.
Proof.
  revert v. induction t; intros v Ht Hv; rewrite indirect_eq; try done.
  - by destruct v as [| | | | | |[[]|]| | | | | |].
  - simpl in Ht. destruct v as [| | | | | | | |q| | | |]; try done. munfold.
    destruct q as [x|]; simpl.
    + specialize (IHt x Ht Hv). by destruct (indirect t x) as [[]| | |].
    + destruct (isPtr t) eqn:Hp; [done|].
      pose proof (ifaceFree_zero t). by destruct t.
Qed.

Lemma preprocess_plain W d W' d' tag s :
  tagHasDirective tag = false →
  preprocess W d tag s = preprocess W' d' tag s
  ∧ ∀ r, preprocess W d tag s = Ret r → r = s.
Proof.
  unfold tagHasDirective, preprocess.
  destruct (Split tag comma) as [|tok [|tok' toks]]; simpl;
    [intros _; split; [done|by intros r [= <-]]..|].
  destruct tok as [|ch tok]; simpl; [done|]. intros ->. split; [done|by intros r [= <-]].
Qed.

(** [selector] returns a token of the tag, or the empty string. *)
Lemma selector_token tag which sel :
  selector tag which = Ret sel →
  sel ∈ Split tag comma ∨ (sel = "" ∧ which ≠ 0).
Proof.
  unfold selector. destruct (Nat.ltb_spec (length (Split tag comma) - 1) which) as [Hlt|Hge].
  - intros [= <-]. right. split; [done|lia].
  - munfold. destruct (selectorOffset (Split tag comma) 0) as [off| | |]; try done.
    destruct (Split tag comma !! (which + off)) as [tok|] eqn:Htok; [|done].
    intros [= <-]. left. by eapply list_elem_of_lookup_2.
Qed.

Lemma popVal_subset tag tok : tok ∈ Split (popVal tag) comma → tok ∈ Split tag comma.
Proof.
  destruct (Split tag comma) as [|a0 [|a1 rest]] eqn:Harr.
  - by destruct (Split_nonempty tag comma).
  - by rewrite (popVal_short _ _ Harr), Harr.
  - rewrite (popVal_tokens _ _ _ _ Harr). rewrite !elem_of_cons. naive_solver.
Qed.

Section DecoderLocality.
Context (W : World) (d1 d2 : Node) (p : NodePtr) (L : string → Prop).
Hypothesis Hsub : nodeAt d1 p = nodeAt d2 p.
Hypothesis Hmatch :
  ∀ sel q, L sel → p `prefix_of` q → matches W sel d1 q = matches W sel d2 q.

(** The tokens of the tag and of the field tags of the type are
    selectors on which the two documents agree below [p]. *)
Definition agreed (tag : goqueryTag) (t : GoType) : Prop :=
  (∀ tok, tok ∈ Split tag comma → L tok) ∧ (∀ tok, tok ∈ typeSelectors t → L tok).

Section Handlers.
Context (rec1 rec2 : Decoder).
Hypothesis Hrec : ∀ t s v tag c,
  plainType t = true → ifaceFree v = true → within p s → agreed tag t →
  rec1 t s v tag c = rec2 t s v tag c.

Lemma structLoop_agree fields vals s c :
  forallb (λ f, negb (tagHasDirective f.1.2) && plainType f.2) fields = true →
  forallb ifaceFree vals = true →
  (∀ tok, tok ∈ typeSelectors (TStruct fields) → L tok) →
  within p s →
  structLoop W d1 rec1 fields vals s c = structLoop W d2 rec2 fields vals s c.
Proof.
  intros Hfields Hvals HL Hs. revert vals c Hfields Hvals HL.
  induction fields as [|[[name tag] ft] fields IH]; intros [|fv vals] c Hfields Hvals HL;
    try done.
  simpl in Hfields, Hvals. apply andb_prop in Hfields as [[Htag Hft]%andb_prop Hfields].
  apply andb_prop in Hvals as [Hfv Hvals]. apply negb_true_iff in Htag.
  assert (agreed tag ft) as Hagreed.
  { split; intros tok Htok; apply HL; simpl; rewrite !elem_of_app; auto. }
  cbn [structLoop]. munfold.
  assert (∀ c', structLoop W d1 rec1 fields vals s c' = structLoop W d2 rec2 fields vals s c')
    as IH'.
  { intros c'. apply IH; [done..|]. intros tok Htok. apply HL. simpl.
    rewrite !elem_of_app. auto. }
  destruct (String.eqb tag ignoreTag); [by rewrite IH'|].
  destruct (preprocess_plain W d2 W d1 tag s Htag) as [Hpre Hpre'].
  rewrite <- Hpre.
  destruct (String.eqb tag "").
  - destruct (indirect ft fv) as [[]| | |]; try done; [|by rewrite IH'].
    destruct (preprocess W d2 tag s) as [r| | |] eqn:Hr; try done.
    rewrite (Hpre' r eq_refl), (Hrec _ _ _ _ _ Hft Hfv Hs Hagreed).
    destruct (rec2 ft s fv tag c) as [[[? [?|]] ?]| | |]; try done. by rewrite IH'.
  - destruct (preprocess W d2 tag s) as [r| | |] eqn:Hr; try done.
    rewrite (Hpre' r eq_refl).
    destruct (selector tag 0) as [selStr| | |] eqn:Hsel; try done.
    apply selector_token in Hsel as [Hsel|[_ ?]]; [|done].
    rewrite (Find_agree W d1 d2 p L Hsub Hmatch s selStr (proj1 Hagreed _ Hsel) Hs).
    rewrite (Hrec _ _ _ _ _ Hft Hfv (Find_within W p d2 s selStr Hs) Hagreed).
    destruct (rec2 ft _ fv tag c) as [[[? [?|]] ?]| | |]; try done. by rewrite IH'.
Qed.

Lemma arrayLoop_agree eleT tag s i elems c :
  plainType eleT = true → forallb ifaceFree elems = true → agreed tag eleT → within p s →
  arrayLoop rec1 eleT tag s i elems c = arrayLoop rec2 eleT tag s i elems c.
Proof.
  intros Ht Helems HL Hs. revert i c Helems.
  induction elems as [|x elems IH]; intros i c Helems; [done|].
  simpl in Helems. apply andb_prop in Helems as [Hx Helems].
  cbn [arrayLoop]. munfold. rewrite (Hrec _ _ _ _ _ Ht Hx (within_Eq p s i Hs) HL).
  destruct (rec2 eleT _ x tag c) as [[[? [?|]] ?]| | |]; try done. by rewrite IH.
Qed.

Lemma agreed_newOf tag t : agreed tag t → agreed tag (TPtr (TypeDeref t)).
Proof. intros [? ?]. split; [done|]. simpl. by rewrite typeSelectors_TypeDeref. Qed.

Lemma ifaceFree_newOf t : ifaceFree (VPtr (Some (zero (TypeDeref t)))) = true.
Proof. apply ifaceFree_zero. Qed.

Lemma sliceLoop_agree eleT tag nodes i acc c :
  plainType eleT = true → agreed tag eleT → within p nodes →
  sliceLoop rec1 eleT tag nodes i acc c = sliceLoop rec2 eleT tag nodes i acc c.
Proof.
  intros Ht HL Hs. revert i acc c.
  induction Hs as [|q nodes Hq _ IH]; intros i acc c; [done|].
  cbn [sliceLoop]. unfold newOf. munfold.
  rewrite Hrec;
    [|by apply plainType_newOf|apply ifaceFree_newOf|by apply within_singleton
     |by apply agreed_newOf].
  destruct (rec2 (TPtr (TypeDeref eleT)) _ _ tag c) as [[[newV [?|]] ?]| | |]; try done.
  destruct (slotOfNew eleT newV); first [done|apply IH].
Qed.

Lemma mapPair_agree keyT eleT tag valTag q entries c :
  plainType keyT = true → plainType eleT = true →
  agreed tag keyT → agreed valTag eleT → p `prefix_of` q →
  mapPair W d1 rec1 keyT eleT tag valTag q entries c
  = mapPair W d2 rec2 keyT eleT tag valTag q entries c.
Proof.
  intros Hk He HLk HLe Hq. apply within_singleton in Hq.
  unfold mapPair, newOf. munfold.
  rewrite Hrec;
    [|by apply plainType_newOf|apply ifaceFree_newOf|done|by apply agreed_newOf].
  destruct (rec2 (TPtr (TypeDeref keyT)) _ _ tag c) as [[[newK [?|]] ck]| | |]; try done.
  - destruct (valFunc valTag ck) as [[vf ?]| | |]; try done.
    by rewrite (applyVal_agree W d1 d2 p Hsub vf _ Hq).
  - rewrite Hrec;
      [done|by apply plainType_newOf|apply ifaceFree_newOf|done|by apply agreed_newOf].
Qed.

Lemma mapLoop_agree keyT eleT tag valTag nodes entries c :
  plainType keyT = true → plainType eleT = true →
  agreed tag keyT → agreed valTag eleT → within p nodes →
  mapLoop W d1 rec1 keyT eleT tag valTag nodes entries c
  = mapLoop W d2 rec2 keyT eleT tag valTag nodes entries c.
Proof.
  intros Hk He HLk HLe Hs. revert entries c.
  induction Hs as [|q nodes Hq _ IH]; intros entries c; [done|].
  cbn [mapLoop]. munfold. rewrite (mapPair_agree _ _ _ _ _ _ _ Hk He HLk HLe Hq).
  destruct (mapPair W d2 rec2 keyT eleT tag valTag q entries c)
    as [[[? [?|]] ?]| | |]; first [done|apply IH].
Qed.

Lemma dispatch_agree t s v tag c :
  plainType t = true → ifaceFree v = true → agreed tag t → within p s →
  dispatch W d1 rec1 t s v tag c = dispatch W d2 rec2 t s v tag c.
Proof.
  intros Ht Hv HL Hs. unfold dispatch. destruct (appendNodes v s); [done|].
  assert (unmarshalScalar W d1 t s v tag c = unmarshalScalar W d2 t s v tag c) as Hscalar.
  { unfold unmarshalScalar. munfold.
    destruct (valFunc tag c) as [[vf ?]| | |]; try done.
    by rewrite (applyVal_agree W d1 d2 p Hsub vf s Hs). }
  destruct t as [| | | | | | | | |fields|eleT|len eleT|keyT eleT|]; try done;
    simpl in Ht.
  - unfold unmarshalStruct. destruct v; try done. munfold.
    by rewrite (structLoop_agree _ _ _ _ Ht Hv (proj2 HL) Hs).
  - unfold unmarshalSlice. destruct v; try done. munfold.
    by rewrite (sliceLoop_agree _ _ _ _ _ _ Ht HL Hs).
  - unfold unmarshalArray. destruct v; try done.
    destruct (negb _); [done|]. destruct (negb _); [done|]. munfold.
    by rewrite (arrayLoop_agree _ _ _ _ _ _ Ht Hv HL Hs).
  - apply andb_prop in Ht as [Hk He].
    unfold unmarshalMap. destruct v; try done. munfold.
    destruct (selector tag 1) as [keySel| | |] eqn:Hsel; try done.
    destruct (String.eqb_spec keySel "") as [|Hne]; [done|].
    apply selector_token in Hsel as [Hsel|[? _]]; [|done].
    destruct (childrenUntilMatch_agree W d1 d2 p L Hsub Hmatch s keySel
                (proj1 HL _ Hsel) Hs) as [Hkeys Hwithin].
    rewrite Hkeys in Hwithin |- *.
    destruct (childrenUntilMatch W d2 s keySel) as [keys| | |]; try done.
    unfold mapEntries. munfold.
    rewrite (mapLoop_agree keyT eleT tag (popVal tag) keys); [done..| | |by apply Hwithin].
    + destruct HL as [HLt HLs]. split; [done|]. intros tok Htok. apply HLs. simpl.
      rewrite elem_of_app. auto.
    + destruct HL as [HLt HLs]. split.
      * intros tok Htok. by apply HLt, popVal_subset.
      * intros tok Htok. apply HLs. simpl. rewrite elem_of_app. auto.
Qed.

Lemma unmarshalByTypeBody_agree t s v tag c :
  plainType t = true → ifaceFree v = true → agreed tag t → within p s →
  unmarshalByTypeBody W d1 rec1 t s v tag c = unmarshalByTypeBody W d2 rec2 t s v tag c.
Proof.
  intros Ht Hv HL Hs. unfold unmarshalByTypeBody. munfold.
  pose proof (indirect_plain t v Ht Hv) as Hind.
  destruct (indirect t v) as [[|t' v' depth]| | |]; try done.
  destruct Hind as (Ht' & Hv' & Hsels).
  rewrite (dispatch_agree t' s v' tag c); [done..| |done].
  destruct HL as [HLt HLs]. split; [done|]. by rewrite Hsels.
Qed.

End Handlers.

(** The decode of a destination without custom decoder and without
    directive, from a selection at or below [p], reads the document below
    [p] only. *)
Lemma unmarshalByType_agree fuel t s v tag c :
  plainType t = true → ifaceFree v = true → agreed tag t → within p s →
  unmarshalByType W d1 fuel t s v tag c = unmarshalByType W d2 fuel t s v tag c.
Proof.
  revert t s v tag c. induction fuel as [|fuel IH]; intros t s v tag c Ht Hv HL Hs; [done|].
  cbn [unmarshalByType]. apply unmarshalByTypeBody_agree; [|done..].
  intros t0 s0 v0 tag0 c0 ? ? ? ?. by apply IH.
Qed.

End DecoderLocality.

(** What the value functions read from the empty selection. *)
Lemma applyVal_nil W doc vf : TrimSpace W "" = "" → applyVal W doc vf [] = "".
Proof. intros Htrim. by destruct vf. Qed.

Lemma Find_nothing_below W doc p sel :
  (∀ q, p `prefix_of` q → q ≠ p → matches W sel doc q = false) →
  Find W doc [p] sel = [].
Proof.
  intros Hnone. unfold Find. simpl. rewrite app_nil_r.
  destruct (nodeAt doc p) as [n|]; [|done].
  assert (filter (λ q, matches W sel doc q = true) (descendants n p) = []) as ->; [|done].
  pose proof (descendants_prefix (height n) n p (le_n _)) as Hpre.
  pose proof (descendants_longer (height n) n p (le_n _)) as Hlen.
  induction (descendants n p) as [|q l IH]; [done|].
  inversion Hpre as [|? ? Hq Hpre']; subst. inversion Hlen as [|? ? Hq' Hlen']; subst.
  rewrite filter_cons, (IH Hpre' Hlen').
  destruct (decide (matches W sel doc q = true)) as [Hm|]; [|done].
  rewrite Hnone in Hm; [done..|]. intros ->. lia.
Qed.

(** A string field whose selector matches nothing below the node it is
    decoded from receives the text of the empty selection. *)
Lemma unmatched_field_is_empty W doc fuel name (sel : goqueryTag) p tag c :
  hasByte comma sel = false → firstIsPrefix sel = Ret false → TrimSpace W "" = "" →
  (∀ q, p `prefix_of` q → q ≠ p → matches W sel doc q = false) →
  ∃ c',
    unmarshalByType W doc (S (S fuel)) (newOf (TStruct [(name, sel, TString)])).1 [p]
      (newOf (TStruct [(name, sel, TString)])).2 tag c
    = Ret (VPtr (Some (VStruct [VString ""])), None, c').
Proof.
  intros Hcomma Hpre Htrim Hnone.
  assert (∃ vf c', valFunc sel c = Ret (vf, c')) as (vf & c' & Hvf).
  { unfold valFunc. cbv beta. destruct (c !! (sel : goqueryTag)) as [fn|]; [by exists fn, c|].
    unfold resolveValFunc. rewrite (Split_single _ Hcomma). by eexists _, _. }
  exists c'. destruct sel as [|ch sel]; [done|]. injection Hpre as Hch.
  assert (String.eqb (String ch sel) ignoreTag = false) as Hign.
  { apply String.eqb_neq. intros [= -> _]. done. }
  cbn [unmarshalByType newOf fst snd TypeDeref zero map]. unfold unmarshalByTypeBody.
  rewrite indirect_eq. cbn [indirect]. munfold. cbn [deeper].
  unfold dispatch. cbn [appendNodes]. unfold unmarshalStruct. cbn [structLoop]. munfold.
  rewrite Hign. change (String.eqb (String ch sel) "") with false. cbv iota.
  unfold preprocess. rewrite (Split_single _ Hcomma). cbn [preprocessLoop].
  rewrite (selector_plain _ _ [] 0 (Split_single _ Hcomma)) by (simpl; by rewrite Hch).
  change (default "" ([String ch sel] !! 0)) with (String ch sel).
  rewrite (Find_nothing_below _ _ _ _ Hnone).
  cbn [unmarshalByType]. unfold unmarshalByTypeBody. rewrite indirect_eq. munfold.
  unfold dispatch. cbn [appendNodes]. unfold unmarshalScalar. munfold. rewrite Hvf.
  rewrite (applyVal_nil _ _ _ Htrim). done.
Qed.


(** ** The recursion budget *)

Lemma withinBudget_bind {A B} (m : M A) (f : A → M B) c :
  withinBudget (m c) → (∀ a c', withinBudget (f a c')) → withinBudget ((m ≫= f) c).
Proof.
  intros Hm Hf. munfold. unfold withinBudget in *.
  destruct (m c) as [[a c']| | |]; first [done|apply Hf].
Qed.

Lemma withinBudget_bind_ret {A B} (m : M A) (f : A → M B) c :
  withinBudget (m c) → (∀ a c', m c = Ret (a, c') → withinBudget (f a c')) →
  withinBudget ((m ≫= f) c).
Proof.
  intros Hm Hf. munfold. unfold withinBudget in *.
  destruct (m c) as [[a c']| | |]; first [done|by apply Hf].
Qed.

Lemma withinBudget_lift {A} (o : Outcome A) c : withinBudget o → withinBudget (lift o c).
Proof. unfold withinBudget, lift. by destruct o. Qed.

Lemma withinBudget_obind {A B} (o : Outcome A) (f : A → Outcome B) :
  withinBudget o → (∀ a, withinBudget (f a)) → withinBudget (o ≫= f).
Proof. intros Ho Hf. munfold. unfold withinBudget in *. destruct o; first [done|apply Hf]. Qed.

Lemma firstIsPrefix_budget tok : withinBudget (firstIsPrefix tok).
Proof. by destruct tok. Qed.

Lemma selector_budget tag which : withinBudget (selector tag which).
Proof.
  unfold selector. destruct (_ <? _); [done|].
  apply withinBudget_obind; [|intros off; by destruct (_ !! _)].
  generalize 0. induction (Split tag comma) as [|tok toks IH]; intros off; [done|].
  simpl. apply withinBudget_obind; [apply firstIsPrefix_budget|]. intros [|]; [apply IH|done].
Qed.

Lemma resolveValFunc_budget tag : withinBudget (resolveValFunc tag).
Proof.
  rewrite resolveValFunc_Split.
  destruct (Split tag comma) as [|? [|[|ch src] ?]]; try done.
  destruct (Ascii.eqb ch "["); [|by destruct (String.eqb _ _)].
  unfold attrName. by destruct (_ <? _).
Qed.

Lemma valFunc_budget tag c : withinBudget (valFunc tag c).
Proof.
  unfold valFunc. destruct (c !! tag); [done|].
  pose proof (resolveValFunc_budget tag). by destruct (resolveValFunc tag).
Qed.

Lemma indirect_budget t v : withinBudget (indirect t v).
Proof.
  revert t. induction v as [v IH] using chain_ind. intros t.
  rewrite indirect_eq. destruct t as [| | | | | |n| |e| | | | |]; try done.
  - destruct v as [| | | | | |[[| |elem x|]|]| | | | | |]; try done.
    apply withinBudget_obind; [|done]. apply IH. simpl. lia.
  - destruct v as [| | | | | | | |[x|]| | | |]; try done.
    + apply withinBudget_obind; [|done]. apply IH. simpl. lia.
    + by destruct (isPtr e).
Qed.

Lemma ifaceFuel_zero t : ifaceFuel (zero t) = 0.
Proof.
  induction t as [| | | | | | | | |fields IH| |len e IH| |] using GoType_fields_ind;
    simpl; try done.
  - induction IH as [|f fields Hf _ IHfields]; simpl; [done|]. by rewrite Hf, IHfields.
  - induction len as [|len IHlen]; simpl; [done|]. by rewrite IH, IHlen.
Qed.

(** The budget of the value that [indirect] reaches is within the budget
    of the destination. *)
Lemma indirect_fuelFor t v t' v' d :
  indirect t v = Ret (reached t' v' d) →
  fuelFor t' + ifaceFuel v' ≤ fuelFor t + ifaceFuel v.
Proof.
  revert t t' v' d. induction v as [v IH] using chain_ind. intros t t' v' d.
  rewrite indirect_eq. destruct t as [| | | | | |n| |e| | | | |]; try by intros [= <- <- _].
  - destruct v as [| | | | | |[[| |elem x|]|]| | | | | |]; try by intros [= <- <- _].
    munfold. destruct (indirect (TPtr elem) x) as [[]| | |] eqn:Hx; try done.
    intros [= <- <- _]. apply IH in Hx; [|simpl; lia]. simpl in *. lia.
  - destruct v as [| | | | | | | |[x|]| | | |]; try done.
    + munfold. destruct (indirect e x) as [[]| | |] eqn:Hx; try done.
      intros [= <- <- _]. apply IH in Hx; [|simpl; lia]. simpl in *. lia.
    + destruct (isPtr e); [done|]. pose proof (ifaceFuel_zero e).
      destruct e; simpl; try done; intros [= <- <- _]; simpl in *; lia.
Qed.

Lemma fuelFor_TypeDeref t : fuelFor (TypeDeref t) = fuelFor t.
Proof. induction t; simpl; done. Qed.

Lemma fuelFor_pos t : 1 ≤ fuelFor t.
Proof. induction t; simpl; lia. Qed.

Lemma slotOfNew_budget t v : withinBudget (slotOfNew t v).
Proof. destruct t; simpl; try by destruct v as [| | | | | | | |[]| | | |]. by destruct (isPtr t). Qed.

Lemma preprocess_budget W doc tag s : withinBudget (preprocess W doc tag s).
Proof.
  unfold preprocess. revert s.
  induction (Split tag comma) as [|tok toks IH]; intros s; [done|]. simpl.
  destruct toks as [|tok' toks]; [done|].
  apply withinBudget_obind; [apply firstIsPrefix_budget|]. intros [|]; [|done].
  destruct (callMethod W (dropFirst tok) doc s); first [done|apply IH].
Qed.

Lemma childrenUntilMatch_budget W doc s sel : withinBudget (childrenUntilMatch W doc s sel).
Proof. destruct (childrenUntilMatch_spec W doc s sel) as (r & -> & _). done. Qed.

Lemma max_bound {A} (f : A → nat) (l : list A) (x : A) :
  x ∈ l → f x ≤ foldr Nat.max 0 (map f l).
Proof.
  induction l as [|y l IH]; [by intros ?%elem_of_nil|].
  intros [->|Hin]%elem_of_cons; simpl; [lia|]. specialize (IH Hin). lia.
Qed.

Section Budget.
Context (W : World) (doc : Node) (rec : Decoder) (n : nat).
Hypothesis Hrec : ∀ t s v tag c,
fuelFor t + ifaceFuel v ≤ n → withinBudget (rec t s v tag c).

Lemma structLoop_budget fields vals s c a b :
Forall (λ f, fuelFor f.2 ≤ a) fields → Forall (λ v, ifaceFuel v ≤ b) vals → a + b ≤ n →
withinBudget (structLoop W doc rec fields vals s c).
Proof.
intros Hfields Hvals Hab. revert vals Hvals c.
induction Hfields as [|[[name tag] ft] fields Hft _ IH]; intros [|fv vals] Hvals c; try done.
inversion Hvals as [|? ? Hfv Hvals']; subst.
cbn [structLoop]. simpl in Hft.
assert (∀ x c', withinBudget
          (('(rest, failure) ← structLoop W doc rec fields vals s;
            mret (x :: rest, failure)) c')) as Hrest.
{ intros x c'. apply withinBudget_bind; [by apply IH|]. by intros [? ?] ?. }
destruct (String.eqb tag ignoreTag); [apply Hrest|].
apply withinBudget_bind.
{ destruct (String.eqb tag ""); [|done].
  apply withinBudget_bind; [apply withinBudget_lift, indirect_budget|]. by intros [] ?. }
intros [fv'|] c'; [apply Hrest|].
apply withinBudget_bind; [apply withinBudget_lift, preprocess_budget|]. intros sel c1.
apply withinBudget_bind.
{ destruct (String.eqb tag ""); [done|].
  apply withinBudget_bind; [apply withinBudget_lift, selector_budget|]. done. }
intros sel' c2. apply withinBudget_bind; [apply Hrec; lia|].
intros [fv' [e|]] c3; [done|apply Hrest].
Qed.

Lemma arrayLoop_budget eleT tag s i elems c b :
Forall (λ v, ifaceFuel v ≤ b) elems → fuelFor eleT + b ≤ n →
withinBudget (arrayLoop rec eleT tag s i elems c).
Proof.
intros Helems Ht. revert i c. induction Helems as [|x elems Hx _ IH]; intros i c; [done|].
cbn [arrayLoop]. apply withinBudget_bind; [apply Hrec; lia|].
intros [x' [e|]] c1; [done|]. apply withinBudget_bind; [apply IH|]. by intros [? ?] ?.
Qed.

Lemma newOf_budget t : fuelFor t ≤ n → fuelFor (newOf t).1 + ifaceFuel (newOf t).2 ≤ n.
Proof. intros Ht. simpl. rewrite fuelFor_TypeDeref, ifaceFuel_zero. lia. Qed.

Lemma sliceLoop_budget eleT tag nodes i acc c :
fuelFor eleT ≤ n → withinBudget (sliceLoop rec eleT tag nodes i acc c).
Proof.
intros Ht. revert i acc c. induction nodes as [|q nodes IH]; intros i acc c; [done|].
cbn [sliceLoop]. unfold newOf. apply withinBudget_bind.
{ apply Hrec. by apply (newOf_budget eleT). }
intros [newV [e|]] c1; [done|].
apply withinBudget_bind; [apply withinBudget_lift, slotOfNew_budget|]. intros x c2. apply IH.
Qed.

Lemma mapLoop_budget keyT eleT tag valTag nodes entries c :
fuelFor keyT ≤ n → fuelFor eleT ≤ n →
withinBudget (mapLoop W doc rec keyT eleT tag valTag nodes entries c).
Proof.
intros Hk He. revert entries c.
induction nodes as [|q nodes IH]; intros entries c; [done|].
cbn [mapLoop]. apply withinBudget_bind; [|intros [? [?|]] ?; [done|apply IH]].
unfold mapPair, newOf. apply withinBudget_bind.
{ apply Hrec. by apply (newOf_budget keyT). }
intros [newK [e|]] c1.
- apply withinBudget_bind; [apply valFunc_budget|done].
- apply withinBudget_bind.
  { apply Hrec. by apply (newOf_budget eleT). }
  intros [newV [e|]] c2; [done|].
  apply withinBudget_bind; [apply withinBudget_lift, slotOfNew_budget|]. intros x c3.
  apply withinBudget_bind; [apply withinBudget_lift, slotOfNew_budget|]. done.
Qed.

Lemma dispatch_budget t s v tag c :
fuelFor t + ifaceFuel v ≤ S n → withinBudget (dispatch W doc rec t s v tag c).
Proof.
intros Ht. unfold dispatch. destruct (appendNodes v s); [done|].
assert (withinBudget (unmarshalScalar W doc t s v tag c)) as Hscalar.
{ unfold unmarshalScalar. apply withinBudget_bind; [apply valFunc_budget|].
  intros vf c1. destruct (unmarshalLiteral _ _ _ _) as [? [?|]]; done. }
destruct t as [| | | | | | | | |fields|eleT|len eleT|keyT eleT|]; try done; simpl in Ht.
- unfold unmarshalStruct. destruct v as [| | | | | | | | |vals| | |]; try done.
  simpl in Ht. apply withinBudget_bind; [|by intros [? ?] ?].
  apply (structLoop_budget _ _ _ _ (foldr Nat.max 0 (map (λ f, fuelFor f.2) fields))
           (foldr Nat.max 0 (map ifaceFuel vals))); [| |lia].
  + apply Forall_forall. intros f Hf. by apply (max_bound (λ f, fuelFor f.2)).
  + apply Forall_forall. intros x Hx. by apply (max_bound ifaceFuel).
- unfold unmarshalSlice. destruct v; try done.
  apply withinBudget_bind; [apply sliceLoop_budget; lia|]. by intros [? [[? ?]|]] ?.
- unfold unmarshalArray. destruct v as [| | | | | | | | | | |elems|]; try done.
  destruct (negb _); [done|]. destruct (negb _); [done|]. simpl in Ht.
  apply withinBudget_bind; [|by intros [? ?] ?].
  apply (arrayLoop_budget _ _ _ _ _ _ (foldr Nat.max 0 (map ifaceFuel elems))); [|lia].
  apply Forall_forall. intros x Hx. by apply (max_bound ifaceFuel).
- unfold unmarshalMap. destruct v; try done.
  apply withinBudget_bind; [apply withinBudget_lift, selector_budget|]. intros keySel c1.
  destruct (String.eqb keySel ""); [done|].
  apply withinBudget_bind; [apply withinBudget_lift, selector_budget|]. intros keySel' c2.
  apply withinBudget_bind; [apply withinBudget_lift, childrenUntilMatch_budget|].
  intros keys c3. unfold mapEntries.
  apply withinBudget_bind; [apply mapLoop_budget; lia|]. by intros [? ?] ?.
Qed.

End Budget.

(** The budget [fuelFor t + ifaceFuel v] is enough for a destination of
    type [t] that holds [v]: the outcome of the model is then an outcome of
    the Go program. *)
Lemma unmarshalByType_budget W doc fuel t s v tag c :
  fuelFor t + ifaceFuel v ≤ fuel → withinBudget (unmarshalByType W doc fuel t s v tag c).
Proof.
  revert t s v tag c. induction fuel as [|fuel IH]; intros t s v tag c Ht.
  { pose proof (fuelFor_pos t). lia. }
  cbn [unmarshalByType]. unfold unmarshalByTypeBody.
  apply withinBudget_bind_ret; [apply withinBudget_lift, indirect_budget|].
  intros r c1 Hr. destruct r as [name cur d|t' v' d].
  - by destruct (UnmarshalHTML W name doc s cur).
  - apply withinBudget_bind; [|by intros [? ?] ?].
    apply (dispatch_budget W doc _ fuel); [exact IH|].
    unfold lift in Hr. destruct (indirect t v) as [r| | |] eqn:Hind; try done.
    injection Hr as -> _. pose proof (indirect_fuelFor _ _ _ _ _ Hind). lia.
Qed.

Lemma UnmarshalSelection_budget W doc s iface c :
  withinBudget (UnmarshalSelection W doc s iface c).
Proof.
  unfold UnmarshalSelection. destruct iface as [[t v]|]; [|done].
  destruct (negb (isPtr t)); [done|].
  assert (withinBudget
    ((r ← lift (indirect t v);
      match r with
      | foundUnmarshaler name cur depth =>
          let '(cur', err) := UnmarshalHTML W name doc s cur in
          mret (Some (repoint depth cur'), wrapUnmErr err None)
      | reached t' v' depth =>
          '(v'', err) ← unmarshalByType W doc (fuelFor t' + ifaceFuel v') t' s v' "";
          mret (Some (repoint depth v''), err)
      end) c)) as Hrun.
  { apply withinBudget_bind; [apply withinBudget_lift, indirect_budget|].
    intros [name cur d|t' v' d] c1.
    - by destruct (UnmarshalHTML W name doc s cur).
    - apply withinBudget_bind; [by apply unmarshalByType_budget|]. by intros [? ?] ?. }
  destruct v as [| | | | | | | |[x|]| | | |]; done.
Qed.

(** ** The decoder at work *)

Import Example.

Example decode_keys :
  unmarshalByType world listDoc 3
    (TStruct [("Keys", ".key", TSlice TString)]) [[]] (VStruct [VSlice []]) "" ∅
  = Ret (VStruct [VSlice [VString "one"; VString "two"; VString "three"]], None,
         {[ ".key" := textVal ]}).
Proof. vm_compute. reflexivity. Qed.

Example decode_map_of_attributes :
  unmarshalByType world listDoc 3
    (TStruct [("M", "#list,.val,[data-n]", TMap TString TString)]) [[]]
    (VStruct [VMap None]) "" ∅
  = Ret (VStruct [VMap (Some [(VString "1", VString "1"); (VString "x", VString "x");
                              (VString "3", VString "3")])], None,
         {[ "#list,.val,[data-n]" := textVal; "#list,[data-n]" := attrFunc "data-n" ]}).
Proof. vm_compute. reflexivity. Qed.

Example decode_root_pointer :
  UnmarshalSelection world listDoc [[]]
    (Some (TPtr (TStruct [("N", ".key", TUnmarshaler "Count" (TInt 64))]),
           VPtr (Some (VStruct [VInt 0])))) ∅
  = Ret (Some (VPtr (Some (VStruct [VInt 3]))), None, ∅).
Proof. vm_compute. reflexivity. Qed.

Example decode_field_with_leading_comma :
  unmarshalByType world listDoc 2 (TStruct [("F", ",[bang]", TString)]) [[]]
    (VStruct [VString ""]) "" ∅
  = Panic IndexOutOfRange.
Proof. vm_compute. reflexivity. Qed.

Example decode_nil_double_pointer :
  unmarshalByType world listDoc 2
    (TStruct [("F", ".key", TPtr (TPtr (TUnmarshaler "Count" (TInt 64))))]) [[]]
    (VStruct [VPtr None]) "" ∅
  = Panic ReflectSet
  ∧ unmarshalByType world listDoc 2
      (TStruct [("F", ".key", TPtr (TPtr (TUnmarshaler "Count" (TInt 64))))]) [[]]
      (VStruct [VPtr (Some (VPtr None))]) "" ∅
    = Ret (VStruct [VPtr (Some (VPtr (Some (VInt 3))))], None, ∅).
Proof. split; vm_compute; reflexivity. Qed.

Lemma world_contextFree : contextFree world.
Proof. intros sel d d' q q' Hq. simpl. unfold nodeMatches. by rewrite Hq. Qed.

(** With a matcher that decides on the node alone, two documents that
    agree below [p] agree on every selector below [p]. *)
Lemma contextFree_agree W d1 d2 p :
  contextFree W → nodeAt d1 p = nodeAt d2 p →
  ∀ sel q, p `prefix_of` q → matches W sel d1 q = matches W sel d2 q.
Proof.
  intros Hcf Hsub sel q [r ->]. apply Hcf. by rewrite !nodeAt_app, Hsub.
Qed.

(** Below the first key of the list there is its text and nothing else. *)
Lemma nothing_below_firstKey sel q :
  firstKey `prefix_of` q → q ≠ firstKey → matches world sel listDoc q = false.
Proof.
  intros [r ->] Hne. change (matches world) with nodeMatches.
  unfold nodeMatches. rewrite nodeAt_app.
  destruct r as [|[|i] [|j r]]; done.
Qed.

(** ** Instances of the theorems, and the inputs on which claims fail *)

Lemma key_search_first_matching_generation_witness :
  selector "#list,.key" 1 = Ret ".key" ∧ ".key" ≠ ""
  ∧ ∃ keys,
      childrenUntilMatch world listDoc [[]] ".key" = Ret keys
      ∧ ((∃ k, 1 ≤ k
              ∧ Filter world listDoc (generation listDoc [[]] k) ".key" ≠ []
              ∧ (∀ j, 1 ≤ j < k → Filter world listDoc (generation listDoc [[]] j) ".key" = [])
              ∧ keys = Filter world listDoc (generation listDoc [[]] k) ".key")
         ∨ ((∀ k, 1 ≤ k → Filter world listDoc (generation listDoc [[]] k) ".key" = [])
            ∧ keys = [[]]))
      ∧ ∀ c, unmarshalMap world listDoc (unmarshalByType world listDoc 1)
               TString TString [[]] (VMap None) "#list,.key" c
             = mapEntries world listDoc (unmarshalByType world listDoc 1)
                 TString TString keys (default [] None) "#list,.key" c.
Proof.
  split; [reflexivity|]. split; [done|].
  apply (key_search_first_matching_generation world listDoc
           (unmarshalByType world listDoc 1) TString TString [[]] None "#list,.key" ".key");
    [reflexivity|done].
Defined.



(** The value decoded for the first key of the list, with a record whose
    field selects the class of the sibling. *)
Example unmatched_sibling_gives_empty_field :
  mapPair world listDoc (unmarshalByType world listDoc 2) TString
    (TStruct [("V", ".val", TString)]) "ul,.key" (popVal "ul,.key") firstKey [] ∅
  = Ret ([(VString "one", VStruct [VString ""])], None,
         {[ "ul,.key" := textVal; ".val" := textVal ]}).
Proof. vm_compute. reflexivity. Qed.

(** C6, as stated, fails: the array has length 3, the selection has exactly
    3 nodes, and the decode does not succeed, because the text of the second
    node is no number. *)
Lemma array_of_matching_length_can_fail :
  length valNodes = 3
  ∧ unmarshalByType world listDoc 2 (TArray 3 (TInt 64)) valNodes
      (VArray [VInt 0; VInt 0; VInt 0]) ".val" ∅
    = Ret (VArray [VInt 1; VInt 0; VInt 0],
           Some (CannotUnmarshalError
                   (Some (TArray 3 (TInt 64), VArray [VInt 1; VInt 0; VInt 0]))
                   typeConversionError
                   (Some (CannotUnmarshalError (Some (TInt 64, VInt 0)) typeConversionError
                            (Some (NumError "ParseInt" "x")) "x" noFldOrIdx))
                   "" (index 1)),
           {[ ".val" := textVal ]}).
Proof. split; vm_compute; reflexivity. Qed.

Lemma unmarshalArray_exact_length_witness :
  let rec := unmarshalByType world listDoc 1 in
  let elems := [VInt 0; VInt 0; VInt 0] in
  length elems = 3
  ∧ (3 ≠ length valNodes →
       unmarshalArray rec 3 (TInt 64) valNodes (VArray elems) ".val" ∅
       = Ret (VArray elems,
              Some (CannotUnmarshalError (Some (TArray 3 (TInt 64), VArray elems))
                      arrayLengthMismatch None "" noFldOrIdx), ∅))
  ∧ (3 = length valNodes →
       (∀ v' c',
          unmarshalArray rec 3 (TInt 64) valNodes (VArray elems) ".val" ∅ = Ret (v', None, c')
          ↔ ∃ elems' (cs : list (gmap string valFn)),
              v' = VArray elems' ∧ length cs = 3 ∧ length elems' = 3
              ∧ (∅ :: cs) !! 3 = Some c'
              ∧ ∀ j x, elems !! j = Some x →
                  ∃ x' c1 c2,
                    (∅ :: cs) !! j = Some c1 ∧ cs !! j = Some c2 ∧ elems' !! j = Some x'
                    ∧ rec (TInt 64) (Eq valNodes j) x ".val" c1 = Ret (x', None, c2))
       ∧ (∀ v' e c',
            unmarshalArray rec 3 (TInt 64) valNodes (VArray elems) ".val" ∅
            = Ret (v', Some e, c')
            ↔ ∃ elems' (k : nat) (cs : list (gmap string valFn)) x x' ck inner,
                v' = VArray elems'
                ∧ e = CannotUnmarshalError (Some (TArray 3 (TInt 64), v'))
                        typeConversionError (Some inner) "" (index k)
                ∧ length cs = k ∧ length elems' = 3
                ∧ elems !! k = Some x ∧ (∅ :: cs) !! k = Some ck ∧ elems' !! k = Some x'
                ∧ rec (TInt 64) (Eq valNodes k) x ".val" ck = Ret (x', Some inner, c')
                ∧ (∀ m y, m < k → elems !! m = Some y →
                     ∃ y' c1 c2,
                       (∅ :: cs) !! m = Some c1 ∧ cs !! m = Some c2 ∧ elems' !! m = Some y'
                       ∧ rec (TInt 64) (Eq valNodes m) y ".val" c1 = Ret (y', None, c2))
                ∧ ∀ m, k < m → elems' !! m = elems !! m)).
Proof.
  intros rec elems. split; [reflexivity|].
  apply (unmarshalArray_exact_length rec 3 (TInt 64) valNodes elems ".val" ∅). reflexivity.
Defined.





(** The mapping decode that the instance above speaks of: the value of the
    second pair is no number. *)
Example decode_map_with_failing_value :
  unmarshalMap world listDoc (unmarshalByType world listDoc 1) TString (TInt 64) [[0]]
    (VMap None) "ul,.val" ∅
  = Ret (VMap (Some [(VString "1", VInt 1)]),
         Some (CannotUnmarshalError
                 (Some (TMap TString (TInt 64), VMap (Some [(VString "1", VInt 1)])))
                 typeConversionError
                 (Some (CannotUnmarshalError (Some (TInt 64, VInt 0)) typeConversionError
                          (Some (NumError "ParseInt" "x")) "x" noFldOrIdx))
                 "" noFldOrIdx),
         {[ "ul,.val" := textVal; "ul" := textVal ]}).
Proof. vm_compute. reflexivity. Qed.

Lemma ignored_field_is_skipped_witness :
  let rec := unmarshalByType world listDoc 2 in
  let fields1 := [("Keys", ".key", TSlice TString)] in
  let ignored := ("Skip", ignoreTag, TUnmarshaler "Refuse" (TInt 64)) in
  let vals1 := [VSlice []] in
  length fields1 = length vals1
  ∧ unmarshalStruct world listDoc rec (fields1 ++ ignored :: []) [[]]
      (VStruct (vals1 ++ VInt 7 :: [])) ∅
    = match structLoop world listDoc rec (fields1 ++ []) (vals1 ++ []) [[]] ∅ with
      | Ret (vals', failure, c') =>
          let v' := VStruct (take (length vals1) vals' ++ VInt 7 :: drop (length vals1) vals') in
          Ret (v',
               match failure with
               | Some (other, e) =>
                   Some (CannotUnmarshalError (Some (TStruct (fields1 ++ ignored :: []), v'))
                           typeConversionError (Some e) "" (fieldName other))
               | None => None
               end, c')
      | Panic k => Panic k
      | Stuck => Stuck
      | OutOfFuel => OutOfFuel
      end.
Proof.
  intros rec fields1 ignored vals1. split; [reflexivity|].
  apply (ignored_field_is_skipped world listDoc rec fields1 [] "Skip"
           (TUnmarshaler "Refuse" (TInt 64)) vals1 [] (VInt 7) [[]] ∅).
  reflexivity.
Defined.

Example decode_with_skipped_field :
  unmarshalStruct world listDoc (unmarshalByType world listDoc 2)
    [("Keys", ".key", TSlice TString); ("Skip", ignoreTag, TUnmarshaler "Refuse" (TInt 64))]
    [[]] (VStruct [VSlice []; VInt 7]) ∅
  = Ret (VStruct [VSlice [VString "one"; VString "two"; VString "three"]; VInt 7], None,
         {[ ".key" := textVal ]}).
Proof. vm_compute. reflexivity. Qed.

(** * Further properties of the package *)

(** ** Tags *)

(** Popping [k] times keeps the first token and drops the [k] tokens after
    it: the selectors of an annotation are handed down one nesting level at
    a time, and the first token is never removed. *)
Theorem popVal_iterated tag k :
  Split (Nat.iter k popVal tag) comma
  = take 1 (Split tag comma) ++ drop (S k) (Split tag comma).
Proof.
  induction k as [|k IH].
  - simpl. by rewrite take_drop.
  - change (Nat.iter (S k) popVal tag) with (popVal (Nat.iter k popVal tag)).
    destruct (Split tag comma) as [|a0 arr] eqn:Harr; [by apply Split_nonempty in Harr|].
    cbn [take drop app] in IH |- *.
    destruct (drop k arr) as [|b rest] eqn:Hdrop.
    + rewrite (popVal_short _ _ IH), IH. f_equal.
      apply drop_nil_inv in Hdrop. rewrite drop_ge; [done|lia].
    + rewrite (popVal_tokens _ _ _ _ IH). f_equal.
      replace (S k) with (k + 1) by lia. rewrite <- drop_drop, Hdrop. done.
Qed.

Lemma selectorOffset_directives dirs rest n :
  Forall isDirective dirs →
  selectorOffset (dirs ++ rest) n = selectorOffset rest (n + length dirs).
Proof.
  intros Hdirs. revert n. induction Hdirs as [|d dirs Hd _ IH]; intros n; simpl.
  - by rewrite Nat.add_0_r.
  - rewrite Hd. simpl. rewrite IH. f_equal. lia.
Qed.

(** [selector] on a tag whose tokens are the directives [dirs] followed by
    the selectors [sels]. The bound is checked against all tokens and the
    index is taken after the directives: beyond the tokens the result is
    the empty string; a slot that exists is returned; a slot between the
    number of selectors and the number of tokens is an index out of range. *)
Theorem selector_after_directives tag dirs sels which :
  Split tag comma = dirs ++ sels →
  Forall isDirective dirs →
  match sels with [] => True | tok :: _ => firstIsPrefix tok = Ret false end →
  selector tag which
  = if length (dirs ++ sels) - 1 <? which then Ret ""
    else match sels !! which with
         | Some tok => Ret tok
         | None => Panic IndexOutOfRange
         end.
Proof.
  intros Harr Hdirs Hsels. unfold selector. rewrite Harr.
  destruct (_ <? _); [done|].
  rewrite selectorOffset_directives by done. simpl.
  assert (selectorOffset sels (length dirs) = Ret (length dirs)) as ->.
  { destruct sels as [|tok sels]; [done|]. simpl. by rewrite Hsels. }
  simpl. rewrite lookup_app_r by lia.
  by replace (which + length dirs - length dirs) with which by lia.
Qed.

Lemma selector_after_directives_witness :
  Split "!Parent,a" comma = ["!Parent"] ++ ["a"]
  ∧ Forall isDirective ["!Parent"]
  ∧ firstIsPrefix "a" = Ret false
  ∧ selector "!Parent,a" 1
    = if length (["!Parent"] ++ ["a"]) - 1 <? 1 then Ret ""
      else match ["a"] !! 1 with
           | Some tok => Ret tok
           | None => Panic IndexOutOfRange
           end.
Proof.
  split; [reflexivity|]. split; [by repeat constructor|]. split; [reflexivity|].
  apply (selector_after_directives "!Parent,a" ["!Parent"] ["a"] 1);
    [reflexivity|by repeat constructor|reflexivity].
Defined.

(** A field whose tag is one directive and nothing else, other than
    ["!ignore"], makes the decode of the record panic: [preprocess] leaves
    the last token alone and [selector] then indexes past the tokens. *)
Theorem lone_directive_tag_panics W doc (rec : Decoder) rest name ft fields s fv vals c :
  hasByte comma rest = false → String prePfx rest ≠ ignoreTag →
  preprocess W doc (String prePfx rest) s = Ret s
  ∧ unmarshalStruct W doc rec ((name, String prePfx rest, ft) :: fields) s
      (VStruct (fv :: vals)) c
    = Panic IndexOutOfRange.
Proof.
  intros Hrest Hne.
  assert (Split (String prePfx rest) comma = [String prePfx rest]) as Harr.
  { apply Split_single. simpl. by rewrite Hrest. }
  assert (preprocess W doc (String prePfx rest) s = Ret s) as Hpre.
  { unfold preprocess. by rewrite Harr. }
  split; [done|].
  assert (selector (String prePfx rest) 0 = Panic IndexOutOfRange) as Hsel.
  { unfold selector. by rewrite Harr. }
  unfold unmarshalStruct. cbn [structLoop].
  destruct (String.eqb_spec (String prePfx rest) ignoreTag); [done|].
  change (String.eqb (String prePfx rest) "") with false. cbv iota.
  munfold. by rewrite Hpre, Hsel.
Qed.

Lemma lone_directive_tag_panics_witness :
  hasByte comma "Parent" = false ∧ String prePfx "Parent" ≠ ignoreTag
  ∧ preprocess world listDoc (String prePfx "Parent") [[0]] = Ret [[0]]
  ∧ unmarshalStruct world listDoc (unmarshalByType world listDoc 1)
      (("F", String prePfx "Parent", TString) :: []) [[0]] (VStruct (VString "" :: [])) ∅
    = Panic IndexOutOfRange.
Proof.
  split; [reflexivity|]. split; [done|].
  apply (lone_directive_tag_panics world listDoc (unmarshalByType world listDoc 1)
           "Parent" "F" TString [] [[0]] (VString "") [] ∅); [reflexivity|done].
Defined.

(** [preprocess] takes the directives one at a time. For a tag that starts
    with the directive [!meth] and goes on with the tokens [toks]: an
    unknown method ends the preprocessing with the selection as it is, also
    when more directives follow; a method that returns a selection replaces
    the selection; a method that returns something else is skipped; then
    the rest of the tag is preprocessed. *)
Theorem preprocess_directive W doc meth toks s :
  hasByte comma meth = false → toks ≠ [] →
  Forall (λ tok, hasByte comma tok = false) toks →
  preprocess W doc (Join (String prePfx meth :: toks) ",") s
  = match callMethod W meth doc s with
    | NoSuchMethod => Ret s
    | CallPanics => Panic ReflectCall
    | ReturnsSelection sel => preprocess W doc (Join toks ",") sel
    | ReturnsOther => preprocess W doc (Join toks ",") s
    end.
Proof.
  intros Hmeth Hne Htoks. unfold preprocess.
  rewrite Split_Join; [|done|by constructor].
  rewrite (Split_Join toks) by done.
  destruct toks as [|tok toks]; [done|]. done.
Qed.

Lemma preprocess_directive_witness :
  hasByte comma "Parent" = false ∧ [".val"] ≠ []
  ∧ Forall (λ tok, hasByte comma tok = false) [".val"]
  ∧ preprocess world listDoc (Join (String prePfx "Parent" :: [".val"]) ",") [firstKey]
    = match callMethod world "Parent" listDoc [firstKey] with
      | NoSuchMethod => Ret [firstKey]
      | CallPanics => Panic ReflectCall
      | ReturnsSelection sel => preprocess world listDoc (Join [".val"] ",") sel
      | ReturnsOther => preprocess world listDoc (Join [".val"] ",") [firstKey]
      end.
Proof.
  split; [reflexivity|]. split; [done|]. split; [by repeat constructor|].
  apply (preprocess_directive world listDoc "Parent" [".val"] [firstKey]);
    [reflexivity|done|by repeat constructor].
Defined.

(** ** The cache of value functions *)

(** [valFunc] memoizes: a call that returns adds at most the entry of its
    tag, leaves every other entry alone, and the same call on the new cache
    returns the same function without changing the cache again. *)
Theorem valFunc_memoizes tag (c c' : gmap string valFn) f :
  valFunc tag c = Ret (f, c') →
  c' !! tag = Some f
  ∧ (∀ other, other ≠ tag → c' !! other = c !! other)
  ∧ (∀ g, c !! tag = Some g → g = f ∧ c' = c)
  ∧ valFunc tag c' = Ret (f, c').
Proof.
  unfold valFunc. destruct (c !! tag) as [fn|] eqn:Hlook.
  - intros [= <- <-]. rewrite Hlook. split_and!; [done..|by intros g [= <-]|done].
  - destruct (resolveValFunc tag) as [f'| | |]; try done. intros [= <- <-].
    rewrite lookup_insert_eq. split_and!; [done| |done|done].
    intros other Hother. by rewrite lookup_insert_ne.
Qed.

Lemma valFunc_memoizes_witness :
  valFunc "a,[href]" ∅ = Ret (attrFunc "href", {[ "a,[href]" := attrFunc "href" ]})
  ∧ ({[ "a,[href]" := attrFunc "href" ]} : gmap string valFn) !! "a,[href]"
    = Some (attrFunc "href")
  ∧ (∀ other, other ≠ "a,[href]" →
       ({[ "a,[href]" := attrFunc "href" ]} : gmap string valFn) !! other
       = (∅ : gmap string valFn) !! other)
  ∧ (∀ g, (∅ : gmap string valFn) !! "a,[href]" = Some g →
       g = attrFunc "href" ∧ ({[ "a,[href]" := attrFunc "href" ]} : gmap string valFn) = ∅)
  ∧ valFunc "a,[href]" {[ "a,[href]" := attrFunc "href" ]}
    = Ret (attrFunc "href", {[ "a,[href]" := attrFunc "href" ]}).
Proof.
  split; [reflexivity|].
  apply (valFunc_memoizes "a,[href]" ∅ {[ "a,[href]" := attrFunc "href" ]} (attrFunc "href")).
  reflexivity.
Defined.

(** The resolver panics exactly on a tag whose second token is empty
    (index out of range) or is the opening bracket alone (slice bounds out
    of range); every other tag resolves. *)
Theorem resolveValFunc_panics tag k :
  resolveValFunc tag = Panic k
  ↔ ∃ a0 src rest,
      Split tag comma = a0 :: src :: rest
      ∧ ((src = "" ∧ k = IndexOutOfRange) ∨ (src = "[" ∧ k = SliceBounds)).
Proof.
  rewrite resolveValFunc_Split.
  destruct (Split tag comma) as [|a0 [|src rest]] eqn:Harr.
  - split; [done|]. by intros (? & ? & ? & ? & _).
  - split; [done|]. by intros (? & ? & ? & ? & _).
  - destruct src as [|ch src].
    { split.
      - intros [= <-]. exists a0, "", rest. by split; [|left].
      - intros (? & ? & ? & [= <- <- <-] & [[_ ->]|[? _]]); done. }
    destruct (Ascii.eqb_spec ch "[") as [->|Hch].
    + unfold attrName. destruct src as [|ch' src]; simpl.
      * split.
        -- intros [= <-]. exists a0, "[", rest. by split; [|right].
        -- intros (? & ? & ? & [= <- <- <-] & [[? _]|[_ ->]]); done.
      * split; [done|].
        intros (? & ? & ? & [= <- <- <-] & [[? _]|[? _]]); done.
    + split.
      * by destruct (String.eqb _ _).
      * intros (? & ? & ? & [= <- <- <-] & [[? _]|[[= ->] _]]); done.
Qed.

Lemma attrName_any_last name ch : attrName (String "[" (name +:+ String ch "")) = Ret name.
Proof.
  unfold attrName. simpl String.length.
  assert (String.length (name +:+ String ch "") = S (String.length name)) as Hlen.
  { induction name as [|c n IH]; simpl; [done|]. by rewrite IH. }
  rewrite Hlen. simpl. by rewrite Nat.sub_0_r, substring_all.
Qed.

(** A second token that starts with a bracket selects an attribute whose
    name is the token without its first and its last byte: the closing
    bracket is not looked at. *)
Theorem resolveValFunc_bracket tag a0 name last rest :
  Split tag comma = a0 :: String "[" (name +:+ String last "") :: rest →
  resolveValFunc tag = Ret (attrFunc name).
Proof.
  intros Harr. rewrite resolveValFunc_Split, Harr.
  by rewrite Ascii.eqb_refl, attrName_any_last.
Qed.

Lemma resolveValFunc_bracket_witness :
  Split "a,[href" comma = "a" :: String "[" ("hre" +:+ String "f" "") :: []
  ∧ resolveValFunc "a,[href" = Ret (attrFunc "hre").
Proof.
  split; [reflexivity|].
  apply (resolveValFunc_bracket "a,[href" "a" "hre" "f"%char []). reflexivity.
Defined.

(** ** Variable-length sequences *)

(** What the loop of [unmarshalSlice] has done when it returns. *)
Lemma sliceLoop_ret (rec : Decoder) eleT tag nodes i acc c acc' failure c' :
  sliceLoop rec eleT tag nodes i acc c = Ret (acc', failure, c') →
  ∃ new,
    acc' = acc ++ new
    ∧ (∀ j p x, nodes !! j = Some p → new !! j = Some x →
         ∃ newV c1 c2,
           rec (newOf eleT).1 [p] (newOf eleT).2 tag c1 = Ret (newV, None, c2)
           ∧ slotOfNew eleT newV = Ret x)
    ∧ match failure with
      | None => length new = length nodes
      | Some (k, e) =>
          k = i + length new
          ∧ ∃ p newV c1 c2,
              nodes !! length new = Some p
              ∧ rec (newOf eleT).1 [p] (newOf eleT).2 tag c1 = Ret (newV, Some e, c2)
      end.
Proof.
  revert i acc c. induction nodes as [|p nodes IH]; intros i acc c.
  - intros [= <- <- <-]. exists []. rewrite app_nil_r. split; [done|]. split; [|done].
    intros j q x Hq. by rewrite lookup_nil in Hq.
  - cbn [sliceLoop]. unfold newOf. munfold.
    destruct (rec _ [p] _ tag c) as [[[newV [e|]] c1]| | |] eqn:Hrec; try done.
    + intros [= <- <- <-]. exists []. rewrite app_nil_r. split; [done|]. split.
      * intros j q x _ Hx. by rewrite lookup_nil in Hx.
      * simpl. split; [lia|]. by exists p, newV, c, c1.
    + destruct (slotOfNew eleT newV) as [x| | |] eqn:Hslot; try done.
      intros (new & -> & Hnew & Hfail)%IH. exists (x :: new).
      rewrite <- app_assoc. split; [done|]. split.
      * intros [|j] q y Hq Hy; simplify_eq/=; [by exists newV, c, c1|]. by eapply Hnew.
      * destruct failure as [[k e]|]; simpl.
        -- destruct Hfail as (-> & Hp). split; [lia|done].
        -- by rewrite Hfail.
Qed.

(** A slice decode that succeeds appends to the elements that the slice
    already holds one element per node of the selection, in the order of the
    selection, each decoded from its node alone. *)
Theorem unmarshalSlice_appends (rec : Decoder) eleT s elems tag c v' c' :
  unmarshalSlice rec eleT s (VSlice elems) tag c = Ret (v', None, c') →
  ∃ new,
    v' = VSlice (elems ++ new) ∧ length new = length s
    ∧ ∀ j p x, s !! j = Some p → new !! j = Some x →
        ∃ newV c1 c2,
          rec (newOf eleT).1 [p] (newOf eleT).2 tag c1 = Ret (newV, None, c2)
          ∧ slotOfNew eleT newV = Ret x.
Proof.
  unfold unmarshalSlice. munfold.
  destruct (sliceLoop rec eleT tag s 0 elems c) as [[[acc [[k e]|]] c1]| | |] eqn:Hloop;
    try done.
  intros [= <- <-]. apply sliceLoop_ret in Hloop as (new & -> & Hnew & Hlen).
  by exists new.
Qed.

(** What the loop of [unmarshalSlice] has done when it returns, with the
    caches [cs] that the element decodes have left one after the other. *)
Lemma sliceLoop_turns (rec : Decoder) eleT tag nodes i acc c acc' failure c' :
  sliceLoop rec eleT tag nodes i acc c = Ret (acc', failure, c') →
  ∃ new (cs : list (gmap string valFn)),
    acc' = acc ++ new ∧ length cs = length new
    ∧ (∀ j p x, nodes !! j = Some p → new !! j = Some x →
         ∃ newV c1 c2,
           (c :: cs) !! j = Some c1 ∧ cs !! j = Some c2
           ∧ rec (newOf eleT).1 [p] (newOf eleT).2 tag c1 = Ret (newV, None, c2)
           ∧ slotOfNew eleT newV = Ret x)
    ∧ match failure with
      | None => length new = length nodes ∧ (c :: cs) !! length new = Some c'
      | Some (k, e) =>
          k = i + length new
          ∧ ∃ p newV ck,
              nodes !! length new = Some p ∧ (c :: cs) !! length new = Some ck
              ∧ rec (newOf eleT).1 [p] (newOf eleT).2 tag ck = Ret (newV, Some e, c')
      end.
Proof.
  revert i acc c. induction nodes as [|p nodes IH]; intros i acc c.
  - intros [= <- <- <-]. exists [], []. rewrite app_nil_r. by split_and!.
  - cbn [sliceLoop]. unfold newOf. munfold.
    destruct (rec _ [p] _ tag c) as [[[newV [e|]] c1]| | |] eqn:Hrec; try done.
    + intros [= <- <- <-]. exists [], []. rewrite app_nil_r.
      split_and!; try done. by exists p, newV, c.
    + destruct (slotOfNew eleT newV) as [x| | |] eqn:Hslot; try done.
      intros (new & cs & -> & Hcs & Hnew & Hfail)%IH. exists (x :: new), (c1 :: cs).
      rewrite <- app_assoc. split_and!; [done|simpl; lia| |].
      * intros [|j] q y Hq Hy; simplify_eq/=; [by exists newV, c, c1|]. by eapply Hnew.
      * destruct failure as [[k e]|]; simpl.
        -- destruct Hfail as (-> & Hp). split; [lia|done].
        -- destruct Hfail as [-> ?]. done.
Qed.

(** A slice decode that fails has decoded the nodes before some index one
    after the other without error, the cache going from one to the next,
    and has failed on the node of that index: it stops there, leaves the
    destination as it was, and returns that node's error tagged with the
    index; the field [V] of the error holds the elements that the slice
    held followed by the elements decoded from the nodes before. *)
Theorem unmarshalSlice_failure (rec : Decoder) eleT s elems tag c v' e c' :
  unmarshalSlice rec eleT s (VSlice elems) tag c = Ret (v', Some e, c') →
  v' = VSlice elems
  ∧ ∃ new (cs : list (gmap string valFn)) inner p newV ck,
      e = CannotUnmarshalError (Some (TSlice eleT, VSlice (elems ++ new)))
            typeConversionError (Some inner) "" (index (length new))
      ∧ length cs = length new
      ∧ (∀ j q x, s !! j = Some q → new !! j = Some x →
           ∃ newX c1 c2,
             (c :: cs) !! j = Some c1 ∧ cs !! j = Some c2
             ∧ rec (newOf eleT).1 [q] (newOf eleT).2 tag c1 = Ret (newX, None, c2)
             ∧ slotOfNew eleT newX = Ret x)
      ∧ s !! length new = Some p ∧ (c :: cs) !! length new = Some ck
      ∧ rec (newOf eleT).1 [p] (newOf eleT).2 tag ck = Ret (newV, Some inner, c').
Proof.
  unfold unmarshalSlice. munfold.
  destruct (sliceLoop rec eleT tag s 0 elems c) as [[[acc [[k inner]|]] c1]| | |] eqn:Hloop;
    try done.
  intros [= <- <- <-]. split; [done|].
  apply sliceLoop_turns in Hloop
    as (new & cs & -> & Hcs & Hnew & -> & p & newV & ck & Hp & Hck & Hrec).
  by exists new, cs, inner, p, newV, ck.
Qed.

(** ** Fixed-size sequences *)

Lemma arrayLoop_frame (rec : Decoder) eleT tag s i elems c elems' failure c' :
  arrayLoop rec eleT tag s i elems c = Ret (elems', failure, c') →
  length elems' = length elems
  ∧ ∀ j e, failure = Some (j, e) → ∀ k, j < i + k → elems' !! k = elems !! k.
Proof.
  revert i c elems' failure. induction elems as [|x elems IH]; intros i c elems' failure.
  - intros [= <- <- <-]. done.
  - cbn [arrayLoop]. munfold.
    destruct (rec eleT (Eq s i) x tag c) as [[[x' [e|]] c1]| | |]; try done.
    + intros [= <- <- <-]. split; [done|]. intros j e' [= <- <-] [|k] Hk; [lia|done].
    + destruct (arrayLoop rec eleT tag s (S i) elems c1) as [[[rest f] c2]| | |] eqn:Hrest;
        try done.
      intros [= <- <- <-]. pose proof Hrest as Hrest'.
      apply IH in Hrest as [Hlen Hframe].
      split; [simpl; by rewrite Hlen|]. intros j e' -> [|k] Hk.
      * apply arrayLoop_failure in Hrest' as (? & ? & ? & ? & Hj & _). lia.
      * simpl. apply (Hframe j e' eq_refl). lia.
Qed.

(** An array decode never changes the length of the array, and when the
    element of index [j] fails, the elements after it are left as they
    were. *)
Theorem unmarshalArray_frame (rec : Decoder) len eleT s elems tag c v' err c' :
  unmarshalArray rec len eleT s (VArray elems) tag c = Ret (v', err, c') →
  ∃ elems',
    v' = VArray elems' ∧ length elems' = length elems
    ∧ ∀ V inner j,
        err = Some (CannotUnmarshalError V typeConversionError inner "" (index j)) →
        ∀ k, j < k → elems' !! k = elems !! k.
Proof.
  unfold unmarshalArray. destruct (negb _); [done|].
  destruct (negb _).
  - intros [= <- <- <-]. exists elems. split; [done|]. split; [done|]. done.
  - munfold.
    destruct (arrayLoop rec eleT tag s 0 elems c) as [[[elems' failure] c1]| | |] eqn:Hloop;
      try done.
    intros [= <- <- <-]. apply arrayLoop_frame in Hloop as [Hlen Hframe].
    exists elems'. split; [done|]. split; [done|].
    intros V inner j Herr k Hk. destruct failure as [[j' e]|]; [|done].
    simplify_eq. by eapply Hframe.
Qed.

Lemma unmarshalSlice_appends_witness :
  let rec := unmarshalByType world listDoc 1 in
  let v' := VSlice ([VString "zero"] ++ [VString "1"; VString "x"; VString "3"]) in
  let c' : gmap string valFn := {[ ".val" := textVal ]} in
  unmarshalSlice rec TString valNodes (VSlice [VString "zero"]) ".val" ∅ = Ret (v', None, c')
  ∧ ∃ new,
      v' = VSlice ([VString "zero"] ++ new) ∧ length new = length valNodes
      ∧ ∀ j p x, valNodes !! j = Some p → new !! j = Some x →
          ∃ newV c1 c2,
            rec (newOf TString).1 [p] (newOf TString).2 ".val" c1 = Ret (newV, None, c2)
            ∧ slotOfNew TString newV = Ret x.
Proof.
  intros rec v' c'. split; [vm_compute; reflexivity|].
  apply (unmarshalSlice_appends rec TString valNodes [VString "zero"] ".val" ∅ v' c').
  vm_compute. reflexivity.
Defined.

Lemma unmarshalSlice_failure_witness :
  let rec := unmarshalByType world listDoc 1 in
  let inner := CannotUnmarshalError (Some (TInt 64, VInt 0)) typeConversionError
                 (Some (NumError "ParseInt" "x")) "x" noFldOrIdx in
  let e := CannotUnmarshalError (Some (TSlice (TInt 64), VSlice [VInt 7; VInt 1]))
             typeConversionError (Some inner) "" (index 1) in
  let c' : gmap string valFn := {[ ".val" := textVal ]} in
  unmarshalSlice rec (TInt 64) valNodes (VSlice [VInt 7]) ".val" ∅
  = Ret (VSlice [VInt 7], Some e, c')
  ∧ VSlice [VInt 7] = VSlice [VInt 7]
  ∧ ∃ new (cs : list (gmap string valFn)) inner' p newV ck,
      e = CannotUnmarshalError (Some (TSlice (TInt 64), VSlice ([VInt 7] ++ new)))
            typeConversionError (Some inner') "" (index (length new))
      ∧ length cs = length new
      ∧ (∀ j q x, valNodes !! j = Some q → new !! j = Some x →
           ∃ newX c1 c2,
             (∅ :: cs) !! j = Some c1 ∧ cs !! j = Some c2
             ∧ rec (newOf (TInt 64)).1 [q] (newOf (TInt 64)).2 ".val" c1
               = Ret (newX, None, c2)
             ∧ slotOfNew (TInt 64) newX = Ret x)
      ∧ valNodes !! length new = Some p ∧ (∅ :: cs) !! length new = Some ck
      ∧ rec (newOf (TInt 64)).1 [p] (newOf (TInt 64)).2 ".val" ck
        = Ret (newV, Some inner', c').
Proof.
  intros rec inner e c'. split; [vm_compute; reflexivity|].
  apply (unmarshalSlice_failure rec (TInt 64) valNodes [VInt 7] ".val" ∅ (VSlice [VInt 7]) e c').
  vm_compute. reflexivity.
Defined.

Lemma unmarshalArray_frame_witness :
  let rec := unmarshalByType world listDoc 1 in
  let elems := [VInt 7; VInt 8; VInt 9] in
  let v' := VArray [VInt 1; VInt 8; VInt 9] in
  let err := Some (CannotUnmarshalError (Some (TArray 3 (TInt 64), v')) typeConversionError
                     (Some (CannotUnmarshalError (Some (TInt 64, VInt 8)) typeConversionError
                              (Some (NumError "ParseInt" "x")) "x" noFldOrIdx))
                     "" (index 1)) in
  let c' : gmap string valFn := {[ ".val" := textVal ]} in
  unmarshalArray rec 3 (TInt 64) valNodes (VArray elems) ".val" ∅ = Ret (v', err, c')
  ∧ ∃ elems',
      v' = VArray elems' ∧ length elems' = length elems
      ∧ ∀ V inner j,
          err = Some (CannotUnmarshalError V typeConversionError inner "" (index j)) →
          ∀ k, j < k → elems' !! k = elems !! k.
Proof.
  intros rec elems v' err c'. split; [vm_compute; reflexivity|].
  apply (unmarshalArray_frame rec 3 (TInt 64) valNodes elems ".val" ∅ v' err c').
  vm_compute. reflexivity.
Defined.

(** ** Records *)

Lemma indirect_direct t v :
  isPtr t = false → exposesUnmarshaler t = false → holdsPointerToPointer v = false →
  indirect t v = Ret (reached t v []).
Proof.
  intros Hp Hu Hv. rewrite indirect_eq. destruct t; try done.
  by destruct v as [| | | | | |[[]|]| | | | | |].
Qed.

(** A record all of whose fields have no tag, no pointer type and no custom
    decoder, and hold no interface with a pointer to a pointer in it, is
    left untouched: no field is read or written, no error is returned and
    the cache of value functions is as before. *)
Theorem untagged_record_is_untouched W doc (rec : Decoder) fields vals s c :
  Forall (λ f, f.1.2 = "" ∧ isPtr f.2 = false ∧ exposesUnmarshaler f.2 = false) fields →
  Forall (λ fv, holdsPointerToPointer fv = false) vals →
  length vals = length fields →
  unmarshalStruct W doc rec fields s (VStruct vals) c = Ret (VStruct vals, None, c).
Proof.
  intros Hfields Hvals Hlen. unfold unmarshalStruct. munfold.
  assert (structLoop W doc rec fields vals s c = Ret (vals, None, c)) as ->; [|done].
  revert vals Hvals Hlen.
  induction Hfields as [|[[name tag] ft] fields (Htag & Hp & Hu) _ IH];
    intros [|fv vals] Hvals Hlen; simplify_eq/=; [done|].
  inversion Hvals as [|? ? Hfv Hvals']; subst.
  cbn [structLoop]. change (String.eqb "" ignoreTag) with false.
  change (String.eqb "" "") with true. cbv iota.
  munfold. rewrite (indirect_direct _ _ Hp Hu Hfv). simpl. by rewrite IH.
Qed.

Lemma untagged_record_is_untouched_witness :
  let fields := [("A", "", TString); ("B", "", TSlice (TInt 64))] in
  let vals := [VString "kept"; VSlice [VInt 1]] in
  Forall (λ f, f.1.2 = "" ∧ isPtr f.2 = false ∧ exposesUnmarshaler f.2 = false) fields
  ∧ Forall (λ fv, holdsPointerToPointer fv = false) vals
  ∧ length vals = length fields
  ∧ unmarshalStruct world listDoc (unmarshalByType world listDoc 2) fields [[]]
      (VStruct vals) ∅
    = Ret (VStruct vals, None, ∅).
Proof.
  intros fields vals. split; [by repeat constructor|]. split; [by repeat constructor|].
  split; [reflexivity|].
  apply (untagged_record_is_untouched world listDoc (unmarshalByType world listDoc 2)
           fields vals [[]] ∅); [by repeat constructor..|reflexivity].
Defined.

(** A field without tag whose type is a pointer to a type without custom
    decoder is not decoded, but a nil pointer in it is replaced by a pointer
    to a zero value: the check for a custom decoder allocates. *)
Theorem untagged_nil_pointer_is_allocated W doc (rec : Decoder) name e fields vals s c :
  isPtr e = false → exposesUnmarshaler e = false →
  unmarshalStruct W doc rec ((name, "", TPtr e) :: fields) s (VStruct (VPtr None :: vals)) c
  = unmarshalStruct W doc rec ((name, "", TPtr e) :: fields) s
      (VStruct (VPtr (Some (zero e)) :: vals)) c
  ∧ ∀ vals' failure c',
      structLoop W doc rec fields vals s c = Ret (vals', failure, c') →
      ∃ err,
        unmarshalStruct W doc rec ((name, "", TPtr e) :: fields) s
          (VStruct (VPtr None :: vals)) c
        = Ret (VStruct (VPtr (Some (zero e)) :: vals'), err, c').
Proof.
  intros Hp Hu. unfold unmarshalStruct. cbn [structLoop].
  change (String.eqb "" ignoreTag) with false. change (String.eqb "" "") with true.
  cbv iota. munfold. rewrite !(indirect_eq (TPtr e)), (indirect_zero _ Hp), Hp.
  assert (arrive e (zero e) = reached e (zero e) []) as -> by by destruct e.
  simpl. split; [done|]. intros vals' failure c' ->. by eexists.
Qed.

Lemma untagged_nil_pointer_is_allocated_witness :
  isPtr (TInt 64) = false ∧ exposesUnmarshaler (TInt 64) = false
  ∧ (unmarshalStruct world listDoc (unmarshalByType world listDoc 1)
       (("P", "", TPtr (TInt 64)) :: []) [[]] (VStruct (VPtr None :: [])) ∅
     = unmarshalStruct world listDoc (unmarshalByType world listDoc 1)
         (("P", "", TPtr (TInt 64)) :: []) [[]] (VStruct (VPtr (Some (zero (TInt 64))) :: [])) ∅
     ∧ ∀ vals' failure c',
         structLoop world listDoc (unmarshalByType world listDoc 1) [] [] [[]] ∅
         = Ret (vals', failure, c') →
         ∃ err,
           unmarshalStruct world listDoc (unmarshalByType world listDoc 1)
             (("P", "", TPtr (TInt 64)) :: []) [[]] (VStruct (VPtr None :: [])) ∅
           = Ret (VStruct (VPtr (Some (zero (TInt 64))) :: vals'), err, c')).
Proof.
  split; [reflexivity|]. split; [reflexivity|].
  apply (untagged_nil_pointer_is_allocated world listDoc (unmarshalByType world listDoc 1)
           "P" (TInt 64) [] [] [[]] ∅); reflexivity.
Defined.

(** One round of the loop of [unmarshalStruct]. *)
Lemma structLoop_round W doc (rec : Decoder) name tag ft fields fv vals s c vals' failure c' :
  structLoop W doc rec ((name, tag, ft) :: fields) (fv :: vals) s c
  = Ret (vals', failure, c') →
  (∃ x' c1 rest,
     fieldPassed W doc rec s (name, tag, ft) fv c x' c1
     ∧ structLoop W doc rec fields vals s c1 = Ret (rest, failure, c')
     ∧ vals' = x' :: rest)
  ∨ (∃ sel x' e,
       tag ≠ ignoreTag ∧ fieldSelection W doc tag s = Ret sel
       ∧ rec ft sel fv tag c = Ret (x', Some e, c')
       ∧ vals' = x' :: vals ∧ failure = Some (name, e)).
Proof.
  cbn [structLoop]. munfold. unfold fieldPassed, fieldSelection. munfold. simpl.
  assert (∀ x c1,
    match structLoop W doc rec fields vals s c1 with
    | Ret (a, c2) => (let '(rest, failure) := a in λ c3, Ret (x :: rest, failure, c3)) c2
    | Panic k => Panic k
    | Stuck => Stuck
    | OutOfFuel => OutOfFuel
    end = Ret (vals', failure, c') →
    ∃ rest, structLoop W doc rec fields vals s c1 = Ret (rest, failure, c')
            ∧ vals' = x :: rest) as Hrest.
  { intros x c1.
    destruct (structLoop W doc rec fields vals s c1) as [[[rest f] c2]| | |]; try done.
    intros [= <- <- <-]. by exists rest. }
  destruct (String.eqb_spec tag ignoreTag) as [->|Hign].
  { intros (rest & Hloop & ->)%Hrest. left. exists fv, c, rest. split; [|done]. by left. }
  assert (∀ sel,
    match rec ft sel fv tag c with
    | Ret (a, c2) =>
        (let '(fv', err) := a in
         match err with
         | Some e => λ c3, Ret (fv' :: vals, Some (name, e), c3)
         | None =>
             λ c3,
               match structLoop W doc rec fields vals s c3 with
               | Ret (a0, c4) =>
                   (let '(rest, failure) := a0 in λ c5, Ret (fv' :: rest, failure, c5)) c4
               | Panic k => Panic k
               | Stuck => Stuck
               | OutOfFuel => OutOfFuel
               end
         end) c2
    | Panic k => Panic k
    | Stuck => Stuck
    | OutOfFuel => OutOfFuel
    end = Ret (vals', failure, c') →
    (∃ x' c1 rest,
       rec ft sel fv tag c = Ret (x', None, c1)
       ∧ structLoop W doc rec fields vals s c1 = Ret (rest, failure, c')
       ∧ vals' = x' :: rest)
    ∨ (∃ x' e, rec ft sel fv tag c = Ret (x', Some e, c')
               ∧ vals' = x' :: vals ∧ failure = Some (name, e))) as Hdecode.
  { intros sel. destruct (rec ft sel fv tag c) as [[[fv' [e|]] c2]| | |]; try done.
    - intros [= <- <- <-]. right. by exists fv', e.
    - intros (rest & Hloop & ->)%Hrest. left. by exists fv', c2, rest. }
  destruct (String.eqb_spec tag "") as [->|Hempty].
  - destruct (indirect ft fv) as [[uname cur d|t0 v0 d]| | |] eqn:Hind; try done.
    + destruct (preprocess W doc "" s) as [sel| | |]; try done.
      intros [(x' & c1 & rest & Hrec & Hloop & ->)|(x' & e & Hrec & -> & ->)]%Hdecode.
      * left. exists x', c1, rest. split; [|done]. right. right. split; [done|]. by exists sel.
      * right. by exists sel, x', e.
    + intros (rest & Hloop & ->)%Hrest. left. exists (repoint d v0), c, rest.
      split; [|done]. right. left. split; [done|]. split; [done|]. by exists t0, v0, d.
  - destruct (preprocess W doc tag s) as [pre| | |]; try done.
    destruct (selector tag 0) as [selStr| | |]; try done.
    intros [(x' & c1 & rest & Hrec & Hloop & ->)|(x' & e & Hrec & -> & ->)]%Hdecode.
    + left. exists x', c1, rest. split; [|done]. right. right. split; [done|]. by eexists.
    + right. by eexists _, x', e.
Qed.

(** What the loop of [unmarshalStruct] has done when it returns a
    failure: the fields before the failing one were passed one after the
    other, with the caches [cs] between them. *)
Lemma structLoop_fails W doc (rec : Decoder) fields vals s c vals' name e c' :
  structLoop W doc rec fields vals s c = Ret (vals', Some (name, e), c') →
  ∃ (i : nat) tag ft fv fv' sel (cs : list (gmap string valFn)) ck,
    length vals' = length vals
    ∧ fields !! i = Some (name, tag, ft) ∧ vals !! i = Some fv ∧ tag ≠ ignoreTag
    ∧ length cs = i ∧ (c :: cs) !! i = Some ck
    ∧ fieldSelection W doc tag s = Ret sel
    ∧ rec ft sel fv tag ck = Ret (fv', Some e, c')
    ∧ vals' !! i = Some fv'
    ∧ drop (S i) vals' = drop (S i) vals
    ∧ ∀ j f x, j < i → fields !! j = Some f → vals !! j = Some x →
        ∃ x' c1 c2,
          (c :: cs) !! j = Some c1 ∧ cs !! j = Some c2 ∧ vals' !! j = Some x'
          ∧ fieldPassed W doc rec s f x c1 x' c2.
Proof.
  revert vals c vals'.
  induction fields as [|[[n1 t1] ft1] fields IH]; intros [|fv vals] c vals'; try done.
  intros [(x' & c1 & rest & Hpassed & Hloop & ->)
         |(sel & x' & e' & Hign & Hsel & Hrec & -> & [= <- <-])]%structLoop_round.
  - apply IH in Hloop
      as (i & tag & ft & y & y' & sel & cs & ck & Hlen & Hf & Hy & Hign & Hcs & Hck & Hsel
          & Hrec & Hy' & Hdrop & Hbefore).
    exists (S i), tag, ft, y, y', sel, (c1 :: cs), ck.
    split_and!; try done; [simpl; lia..|].
    intros [|j] f x Hj Hfj Hx; simplify_eq/=.
    + by exists x', c, c1.
    + apply (Hbefore j f x); [lia|done..].
  - exists 0, t1, ft1, fv, x', sel, [], c. split_and!; try done. intros; lia.
Qed.

(** A record decode that fails has passed the fields before some field one
    after the other, the cache going from one to the next, and has failed
    on that field: it returns the error of the decode of that field from
    its selection, tagged with the name of the field, which is a declared
    field whose tag is not ["!ignore"]; the fields before it were ignored,
    skipped or decoded without error, and the fields after it are left as
    they were. *)
Theorem unmarshalStruct_failure W doc (rec : Decoder) fields vals s c v' e c' :
  unmarshalStruct W doc rec fields s (VStruct vals) c = Ret (v', Some e, c') →
  ∃ vals' (i : nat) name tag ft fv fv' inner sel (cs : list (gmap string valFn)) ck,
    v' = VStruct vals' ∧ length vals' = length vals
    ∧ e = CannotUnmarshalError (Some (TStruct fields, v')) typeConversionError
            (Some inner) "" (fieldName name)
    ∧ fields !! i = Some (name, tag, ft) ∧ vals !! i = Some fv ∧ tag ≠ ignoreTag
    ∧ length cs = i ∧ (c :: cs) !! i = Some ck
    ∧ fieldSelection W doc tag s = Ret sel
    ∧ rec ft sel fv tag ck = Ret (fv', Some inner, c')
    ∧ vals' !! i = Some fv'
    ∧ drop (S i) vals' = drop (S i) vals
    ∧ ∀ j f x, j < i → fields !! j = Some f → vals !! j = Some x →
        ∃ x' c1 c2,
          (c :: cs) !! j = Some c1 ∧ cs !! j = Some c2 ∧ vals' !! j = Some x'
          ∧ fieldPassed W doc rec s f x c1 x' c2.
Proof.
  unfold unmarshalStruct. munfold.
  destruct (structLoop W doc rec fields vals s c) as [[[vals' [[name inner]|]] c1]| | |]
    eqn:Hloop; try done.
  intros [= <- <- <-]. apply structLoop_fails in Hloop
    as (i & tag & ft & fv & fv' & sel & cs & ck & Hlen & Hf & Hfv & Hign & Hcs & Hck & Hsel
        & Hrec & Hfv' & Hdrop & Hbefore).
  by exists vals', i, name, tag, ft, fv, fv', inner, sel, cs, ck.
Qed.

Lemma unmarshalStruct_failure_witness :
  let rec := unmarshalByType world listDoc 2 in
  let fields := [("Keys", ".key", TSlice TString); ("N", ".val", TSlice (TInt 64));
                 ("After", ".key", TString)] in
  let vals := [VSlice []; VSlice []; VString "kept"] in
  let vals1 := [VSlice [VString "one"; VString "two"; VString "three"]; VSlice [];
                VString "kept"] in
  let inner :=
    CannotUnmarshalError (Some (TSlice (TInt 64), VSlice [VInt 1])) typeConversionError
      (Some (CannotUnmarshalError (Some (TInt 64, VInt 0)) typeConversionError
               (Some (NumError "ParseInt" "x")) "x" noFldOrIdx))
      "" (index 1) in
  let e := CannotUnmarshalError (Some (TStruct fields, VStruct vals1)) typeConversionError
             (Some inner) "" (fieldName "N") in
  let c' : gmap string valFn := {[ ".key" := textVal; ".val" := textVal ]} in
  unmarshalStruct world listDoc rec fields [[]] (VStruct vals) ∅
  = Ret (VStruct vals1, Some e, c')
  ∧ ∃ vals' (i : nat) name tag ft fv fv' inner' sel (cs : list (gmap string valFn)) ck,
      VStruct vals1 = VStruct vals' ∧ length vals' = length vals
      ∧ e = CannotUnmarshalError (Some (TStruct fields, VStruct vals1)) typeConversionError
              (Some inner') "" (fieldName name)
      ∧ fields !! i = Some (name, tag, ft) ∧ vals !! i = Some fv ∧ tag ≠ ignoreTag
      ∧ length cs = i ∧ (∅ :: cs) !! i = Some ck
      ∧ fieldSelection world listDoc tag [[]] = Ret sel
      ∧ rec ft sel fv tag ck = Ret (fv', Some inner', c')
      ∧ vals' !! i = Some fv'
      ∧ drop (S i) vals' = drop (S i) vals
      ∧ ∀ j f x, j < i → fields !! j = Some f → vals !! j = Some x →
          ∃ x' c1 c2,
            (∅ :: cs) !! j = Some c1 ∧ cs !! j = Some c2 ∧ vals' !! j = Some x'
            ∧ fieldPassed world listDoc rec [[]] f x c1 x' c2.
Proof.
  intros rec fields vals vals1 inner e c'. split; [vm_compute; reflexivity|].
  apply (unmarshalStruct_failure world listDoc rec fields vals [[]] ∅ (VStruct vals1) e c').
  vm_compute. reflexivity.
Defined.

(** ** Mappings *)

Lemma unmarshalMap_no_comma W doc (rec : Decoder) keyT eleT s m tag c :
  hasByte comma tag = false →
  unmarshalMap W doc rec keyT eleT s (VMap m) tag c
  = Ret (VMap (Some (default [] m)),
         Some (CannotUnmarshalError (Some (TMap keyT eleT, VMap (Some (default [] m))))
                 missingValueSelector None "" noFldOrIdx), c).
Proof.
  intros Htag. unfold unmarshalMap. munfold.
  assert (selector tag 1 = Ret "") as ->; [|done].
  unfold selector. by rewrite (Split_single _ Htag).
Qed.

(** A mapping cannot be decoded with a tag that has no comma: there is no
    key selector, the decode returns the error "missing value selector"
    without looking at the selection, and a nil map has become an empty
    map. *)
Theorem map_without_key_selector W doc (rec : Decoder) keyT eleT s m tag c :
  hasByte comma tag = false →
  unmarshalMap W doc rec keyT eleT s (VMap m) tag c
  = Ret (VMap (Some (default [] m)),
         Some (CannotUnmarshalError (Some (TMap keyT eleT, VMap (Some (default [] m))))
                 missingValueSelector None "" noFldOrIdx), c).
Proof. apply unmarshalMap_no_comma. Qed.

Lemma map_without_key_selector_witness :
  hasByte comma "#list" = false
  ∧ unmarshalMap world listDoc (unmarshalByType world listDoc 1) TString TString [[]]
      (VMap None) "#list" ∅
    = Ret (VMap (Some (default [] None)),
           Some (CannotUnmarshalError
                   (Some (TMap TString TString, VMap (Some (default [] None))))
                   missingValueSelector None "" noFldOrIdx), ∅).
Proof.
  split; [reflexivity|].
  apply (map_without_key_selector world listDoc (unmarshalByType world listDoc 1)
           TString TString [[]] None "#list" ∅). reflexivity.
Defined.

(** A map is never decoded as the root destination: [UnmarshalSelection]
    passes the empty tag down, so every pointer to a map gets the error
    "missing value selector", whatever the document. *)
Theorem root_map_is_refused W doc s keyT eleT m c :
  UnmarshalSelection W doc s (Some (TPtr (TMap keyT eleT), VPtr (Some (VMap m)))) c
  = Ret (Some (VPtr (Some (VMap (Some (default [] m))))),
         Some (CannotUnmarshalError (Some (TMap keyT eleT, VMap (Some (default [] m))))
                 missingValueSelector None "" noFldOrIdx), c).
Proof.
  unfold UnmarshalSelection. cbn [isPtr negb indirect]. munfold.
  cbn [deeper fuelFor ifaceFuel Nat.add unmarshalByType]. unfold unmarshalByTypeBody.
  cbn [indirect]. munfold. unfold dispatch. cbn [appendNodes].
  rewrite unmarshalMap_no_comma; done.
Qed.

(** ** Raw nodes *)

(** A destination of type [[]*html.Node], behind any pointers that
    [indirect] can follow, receives the nodes of the selection after the
    nodes it already holds; the tag is not looked at, the cache is not
    touched and no error is returned. *)
Theorem raw_nodes_are_appended W doc fuel t s v tag c ns depth :
  indirect t v = Ret (reached TNodes (VNodes ns) depth) →
  unmarshalByType W doc (S fuel) t s v tag c
  = Ret (repoint depth (VNodes (ns ++ s)), None, c).
Proof.
  intros Hind. cbn [unmarshalByType]. unfold unmarshalByTypeBody. munfold.
  by rewrite Hind.
Qed.

Lemma raw_nodes_are_appended_witness :
  indirect (TPtr TNodes) (VPtr None) = Ret (reached TNodes (VNodes []) [viaPtr])
  ∧ unmarshalByType world listDoc 1 (TPtr TNodes) valNodes (VPtr None) "ignored,[x" ∅
    = Ret (repoint [viaPtr] (VNodes ([] ++ valNodes)), None, ∅).
Proof.
  split; [reflexivity|].
  apply (raw_nodes_are_appended world listDoc 0 (TPtr TNodes) valNodes (VPtr None)
           "ignored,[x" ∅ [] [viaPtr]). reflexivity.
Defined.

(** ** Errors *)

Lemma dispatcher_error W doc fuel t s v tag c v' e c' :
  unmarshalByType W doc fuel t s v tag c = Ret (v', Some e, c') →
  ∃ V reason inner val fld,
    e = CannotUnmarshalError V reason inner val fld
    ∧ reason ∈ [customUnmarshalError; typeConversionError; arrayLengthMismatch;
                missingValueSelector].
Proof.
  destruct fuel as [|fuel]; [done|]. cbn [unmarshalByType].
  unfold unmarshalByTypeBody. munfold.
  destruct (indirect t v) as [[name cur depth|t' x depth]| | |]; try done.
  - destruct (UnmarshalHTML W name doc s cur) as [cur' [err|]]; simpl; [|done].
    intros [= <- <- <-]. eexists _, _, _, _, _. split; [done|]. set_solver.
  - destruct (dispatch W doc (unmarshalByType W doc fuel) t' s x tag c)
      as [[[x' err] c1]| | |] eqn:Hd; try done.
    intros [= <- -> <-]. unfold dispatch in Hd.
    destruct (appendNodes x s); [by injection Hd|].
    assert (unmarshalScalar W doc t' s x tag c = Ret (x', Some e, c1) →
            ∃ V reason inner val fld,
              e = CannotUnmarshalError V reason inner val fld
              ∧ reason ∈ [customUnmarshalError; typeConversionError; arrayLengthMismatch;
                          missingValueSelector]) as Hscalar.
    { unfold unmarshalScalar. munfold. destruct (valFunc tag c) as [[vf c2]| | |]; try done.
      destruct (unmarshalLiteral _ _ _ _) as [y [err|]]; [|done].
      intros [= <- <- <-]. eexists _, _, _, _, _. split; [done|]. set_solver. }
    destruct t'; try (by apply Hscalar).
    + unfold unmarshalStruct in Hd. destruct x; try done. munfold.
      destruct (structLoop _ _ _ _ _ _ _) as [[[? [[? ?]|]] ?]| | |]; try done.
      injection Hd as <- <- <-. eexists _, _, _, _, _. split; [done|]. set_solver.
    + unfold unmarshalSlice in Hd. destruct x; try done. munfold.
      destruct (sliceLoop _ _ _ _ _ _ _) as [[[? [[? ?]|]] ?]| | |]; try done.
      injection Hd as <- <- <-. eexists _, _, _, _, _. split; [done|]. set_solver.
    + unfold unmarshalArray in Hd. destruct x; try done.
      destruct (negb _); [done|]. destruct (negb _).
      { injection Hd as <- <- <-. eexists _, _, _, _, _. split; [done|]. set_solver. }
      munfold. destruct (arrayLoop _ _ _ _ _ _ _) as [[[? [[? ?]|]] ?]| | |]; try done.
      injection Hd as <- <- <-. eexists _, _, _, _, _. split; [done|]. set_solver.
    + unfold unmarshalMap in Hd. destruct x; try done. munfold.
      destruct (selector tag 1) as [keySel| | |]; try done.
      destruct (String.eqb keySel "").
      { injection Hd as <- <- <-. eexists _, _, _, _, _. split; [done|]. set_solver. }
      destruct (childrenUntilMatch W doc s keySel) as [keys| | |]; try done.
      unfold mapEntries in Hd. munfold.
      destruct (mapLoop _ _ _ _ _ _ _ _ _ _) as [[[? [?|]] ?]| | |]; try done.
      injection Hd as <- <- <-. eexists _, _, _, _, _. split; [done|]. set_solver.
Qed.

(** Every error that the type dispatcher returns is a
    [CannotUnmarshalError], and its reason is one of: custom decoder
    failure, type conversion failure, array length mismatch, missing value
    selector. The errors of [strconv] and of the custom decoders only occur
    wrapped. *)
Theorem unmarshalByType_error_shape W doc fuel t s v tag c v' e c' :
  unmarshalByType W doc fuel t s v tag c = Ret (v', Some e, c') →
  ∃ V reason inner val fld,
    e = CannotUnmarshalError V reason inner val fld
    ∧ reason ∈ [customUnmarshalError; typeConversionError; arrayLengthMismatch;
                missingValueSelector].
Proof. apply dispatcher_error. Qed.

Lemma unmarshalByType_error_shape_witness :
  let e := CannotUnmarshalError (Some (TInt 64, VInt 0)) typeConversionError
             (Some (NumError "ParseInt" "x")) "x" noFldOrIdx in
  let c' : gmap string valFn := {[ ".val" := textVal ]} in
  unmarshalByType world listDoc 1 (TInt 64) [[0; 1; 1]] (VInt 0) ".val" ∅
  = Ret (VInt 0, Some e, c')
  ∧ ∃ V reason inner val fld,
      e = CannotUnmarshalError V reason inner val fld
      ∧ reason ∈ [customUnmarshalError; typeConversionError; arrayLengthMismatch;
                  missingValueSelector].
Proof.
  intros e c'. split; [vm_compute; reflexivity|].
  apply (unmarshalByType_error_shape world listDoc 1 (TInt 64) [[0; 1; 1]] (VInt 0) ".val"
           ∅ (VInt 0) e c').
  vm_compute. reflexivity.
Defined.

(** ** The cache during a decode *)

Lemma cacheSafe_ret {A} (a : A) : cacheSafe (mret a : M A).
Proof.
  split.
  - intros c a' c' [= <- <-]. done.
  - intros c1 c2 _ _. done.
Qed.

Lemma cacheSafe_const {A} (o : Outcome A) : cacheSafe (lift o).
Proof.
  split.
  - intros c a c'. unfold lift. destruct o; try done. by intros [= <- <-].
  - intros c1 c2 _ _. unfold lift. by destruct o.
Qed.

Lemma cacheSafe_stuck {A} : cacheSafe (λ _, Stuck : Outcome (A * gmap string valFn)).
Proof. split; done. Qed.

Lemma cacheSafe_bind {A B} (m : M A) (f : A → M B) :
  cacheSafe m → (∀ a, cacheSafe (f a)) → cacheSafe (m ≫= f).
Proof.
  intros [Hm1 Hm2] Hf. split.
  - intros c b c'. munfold. destruct (m c) as [[a c1]| | |] eqn:Hmc; try done.
    intros Hfa. destruct (Hm1 _ _ _ Hmc) as [Hsub Hok].
    destruct (proj1 (Hf a) _ _ _ Hfa) as [Hsub' Hok'].
    split; [by etrans|]. auto.
  - intros c1 c2 Hc1 Hc2. specialize (Hm2 c1 c2 Hc1 Hc2). munfold.
    destruct (m c1) as [[a1 c1']| | |] eqn:H1, (m c2) as [[a2 c2']| | |] eqn:H2;
      try done.
    simpl in Hm2. subst a2.
    apply (proj2 (Hf a1)); [by apply (Hm1 _ _ _ H1)|by apply (Hm1 _ _ _ H2)].
Qed.

Lemma cacheSafe_valFunc tag : cacheSafe (valFunc tag).
Proof.
  split.
  - intros c f c' Hvf. split.
    + unfold valFunc in Hvf. destruct (c !! tag) eqn:Hlook; [by injection Hvf as _ <-|].
      destruct (resolveValFunc tag); try done. injection Hvf as _ <-.
      by apply insert_subseteq.
    + intros Hc. pose proof (valFunc_resolve tag c Hc) as Hres.
      destruct (resolveValFunc tag); try congruence.
      destruct Hres as (c'' & Hvf' & Hok). rewrite Hvf in Hvf'. by injection Hvf' as _ <-.
  - intros c1 c2 Hc1 Hc2.
    pose proof (valFunc_resolve tag c1 Hc1) as H1.
    pose proof (valFunc_resolve tag c2 Hc2) as H2.
    destruct (resolveValFunc tag).
    + destruct H1 as (? & -> & _), H2 as (? & -> & _). done.
    + by rewrite H1, H2.
    + by rewrite H1, H2.
    + by rewrite H1, H2.
Qed.

Section CacheFacts.
Context (W : World) (doc : Node) (rec : Decoder).
Hypothesis Hrec : ∀ t s v tag, cacheSafe (rec t s v tag).

Lemma cacheSafe_structLoop fields vals s : cacheSafe (structLoop W doc rec fields vals s).
Proof.
revert vals. induction fields as [|[[name tag] ft] fields IH]; intros [|fv vals];
  try apply cacheSafe_stuck; [apply cacheSafe_ret|].
cbn [structLoop].
assert (∀ x, cacheSafe ('(rest, failure) ← structLoop W doc rec fields vals s;
                        (mret (x :: rest, failure) : M _))) as Hrest.
{ intros x. apply cacheSafe_bind; [apply IH|]. intros [? ?]. apply cacheSafe_ret. }
destruct (String.eqb tag ignoreTag); [apply Hrest|].
apply cacheSafe_bind.
{ destruct (String.eqb tag ""); [|apply cacheSafe_ret].
  apply cacheSafe_bind; [apply cacheSafe_const|]. intros []; apply cacheSafe_ret. }
intros [fv'|]; [apply Hrest|].
apply cacheSafe_bind; [apply cacheSafe_const|]. intros sel.
apply cacheSafe_bind.
{ destruct (String.eqb tag ""); [apply cacheSafe_ret|].
  apply cacheSafe_bind; [apply cacheSafe_const|]. intros ?. apply cacheSafe_ret. }
intros sel'. apply cacheSafe_bind; [apply Hrec|].
intros [fv' [e|]]; [apply cacheSafe_ret|apply Hrest].
Qed.

Lemma cacheSafe_arrayLoop eleT tag s i elems : cacheSafe (arrayLoop rec eleT tag s i elems).
Proof.
revert i. induction elems as [|x elems IH]; intros i; [apply cacheSafe_ret|].
cbn [arrayLoop]. apply cacheSafe_bind; [apply Hrec|].
intros [x' [e|]]; [apply cacheSafe_ret|].
apply cacheSafe_bind; [apply IH|]. intros [? ?]. apply cacheSafe_ret.
Qed.

Lemma cacheSafe_sliceLoop eleT tag nodes i acc : cacheSafe (sliceLoop rec eleT tag nodes i acc).
Proof.
revert i acc. induction nodes as [|q nodes IH]; intros i acc; [apply cacheSafe_ret|].
cbn [sliceLoop]. unfold newOf. apply cacheSafe_bind; [apply Hrec|].
intros [newV [e|]]; [apply cacheSafe_ret|].
apply cacheSafe_bind; [apply cacheSafe_const|]. intros x. apply IH.
Qed.

Lemma cacheSafe_mapLoop keyT eleT tag valTag nodes entries :
cacheSafe (mapLoop W doc rec keyT eleT tag valTag nodes entries).
Proof.
revert entries. induction nodes as [|q nodes IH]; intros entries; [apply cacheSafe_ret|].
cbn [mapLoop]. apply cacheSafe_bind; [|intros [? [?|]]; [apply cacheSafe_ret|apply IH]].
unfold mapPair, newOf. apply cacheSafe_bind; [apply Hrec|].
intros [newK [e|]].
- apply cacheSafe_bind; [apply cacheSafe_valFunc|]. intros vf. apply cacheSafe_ret.
- apply cacheSafe_bind; [apply Hrec|]. intros [newV [e|]]; [apply cacheSafe_ret|].
  apply cacheSafe_bind; [apply cacheSafe_const|]. intros x.
  apply cacheSafe_bind; [apply cacheSafe_const|]. intros y. apply cacheSafe_ret.
Qed.

Lemma cacheSafe_dispatch t s v tag : cacheSafe (dispatch W doc rec t s v tag).
Proof.
unfold dispatch. destruct (appendNodes v s); [apply cacheSafe_ret|].
assert (cacheSafe (unmarshalScalar W doc t s v tag)) as Hscalar.
{ unfold unmarshalScalar. apply cacheSafe_bind; [apply cacheSafe_valFunc|].
  intros vf. destruct (unmarshalLiteral _ _ _ _) as [? [?|]]; apply cacheSafe_ret. }
destruct t as [| | | | | | | | |fields|eleT|len eleT|keyT eleT|]; try done.
- unfold unmarshalStruct. destruct v; try apply cacheSafe_stuck.
  apply cacheSafe_bind; [apply cacheSafe_structLoop|]. intros [? ?]. apply cacheSafe_ret.
- unfold unmarshalSlice. destruct v; try apply cacheSafe_stuck.
  apply cacheSafe_bind; [apply cacheSafe_sliceLoop|]. intros [? [[? ?]|]]; apply cacheSafe_ret.
- unfold unmarshalArray. destruct v; try apply cacheSafe_stuck.
  destruct (negb _); [apply cacheSafe_stuck|]. destruct (negb _); [apply cacheSafe_ret|].
  apply cacheSafe_bind; [apply cacheSafe_arrayLoop|]. intros [? ?]. apply cacheSafe_ret.
- unfold unmarshalMap. destruct v; try apply cacheSafe_stuck.
  apply cacheSafe_bind; [apply cacheSafe_const|]. intros keySel.
  destruct (String.eqb keySel ""); [apply cacheSafe_ret|].
  apply cacheSafe_bind; [apply cacheSafe_const|]. intros keySel'.
  apply cacheSafe_bind; [apply cacheSafe_const|]. intros keys. unfold mapEntries.
  apply cacheSafe_bind; [apply cacheSafe_mapLoop|]. intros [? ?]. apply cacheSafe_ret.
Qed.

End CacheFacts.

Lemma cacheSafe_unmarshalByType W doc fuel t s v tag :
  cacheSafe (unmarshalByType W doc fuel t s v tag).
Proof.
  revert t s v tag. induction fuel as [|fuel IH]; intros t s v tag; [done|].
  cbn [unmarshalByType]. unfold unmarshalByTypeBody.
  apply cacheSafe_bind; [apply cacheSafe_const|]. intros [name cur d|t' v' d].
  - destruct (UnmarshalHTML W name doc s cur). apply cacheSafe_ret.
  - apply cacheSafe_bind; [by apply cacheSafe_dispatch|]. intros [? ?]. apply cacheSafe_ret.
Qed.

(** The cache of value functions only grows during a decode: every entry
    it held is still there with the same function, and a cache whose
    entries were all made by [valFunc] is still such a cache afterwards. *)
Theorem decode_only_adds_to_cache W doc fuel t s v tag (c c' : gmap string valFn) r :
  unmarshalByType W doc fuel t s v tag c = Ret (r, c') →
  c ⊆ c' ∧ (cacheOk c → cacheOk c').
Proof. apply (proj1 (cacheSafe_unmarshalByType W doc fuel t s v tag)). Qed.

(** The cache is not observable: started from any two caches whose entries
    were made by [valFunc], the empty cache included, a decode returns the
    same destination and the same error, or panics in the same way. *)
Theorem decode_result_ignores_cache W doc fuel t s v tag (c1 c2 : gmap string valFn) :
  cacheOk c1 → cacheOk c2 →
  sameResult (unmarshalByType W doc fuel t s v tag c1)
             (unmarshalByType W doc fuel t s v tag c2).
Proof. apply (proj2 (cacheSafe_unmarshalByType W doc fuel t s v tag)). Qed.

Lemma cacheOk_singleton tag f : resolveValFunc tag = Ret f → cacheOk {[ tag := f ]}.
Proof.
  intros Hres tag' f'. rewrite lookup_singleton_Some. by intros [<- <-].
Qed.

Lemma decode_only_adds_to_cache_witness :
  let r := (VSlice [VString "one"; VString "two"; VString "three"], None) in
  let c' : gmap string valFn := {[ ".key" := textVal ]} in
  unmarshalByType world listDoc 2 (TSlice TString) [[0; 0; 0]; [0; 1; 0]; [0; 2; 0]]
    (VSlice []) ".key" ∅ = Ret (r, c')
  ∧ (∅ : gmap string valFn) ⊆ c' ∧ (cacheOk ∅ → cacheOk c').
Proof.
  intros r c'. split; [vm_compute; reflexivity|].
  apply (decode_only_adds_to_cache world listDoc 2 (TSlice TString)
           [[0; 0; 0]; [0; 1; 0]; [0; 2; 0]] (VSlice []) ".key" ∅ c' r).
  vm_compute. reflexivity.
Defined.

Lemma decode_result_ignores_cache_witness :
  let c2 : gmap string valFn := {[ ".key,[class]" := attrFunc "class" ]} in
  cacheOk ∅ ∧ cacheOk c2
  ∧ sameResult
      (unmarshalByType world listDoc 2 (TSlice TString) [firstKey] (VSlice []) ".key,[class]" ∅)
      (unmarshalByType world listDoc 2 (TSlice TString) [firstKey] (VSlice []) ".key,[class]" c2).
Proof.
  intros c2. split; [exact cacheOk_empty|]. split; [by apply cacheOk_singleton|].
  apply (decode_result_ignores_cache world listDoc 2 (TSlice TString) [firstKey] (VSlice [])
           ".key,[class]" ∅ c2); [exact cacheOk_empty|by apply cacheOk_singleton].
Defined.

(** ** Indirection *)

Lemma indirect_shape t v :
  match indirect t v with
  | Ret (reached t' v' depth) =>
      isPtr t' = false
      ∧ indirect t' v' = Ret (reached t' v' [])
      ∧ (repoint depth v' = v ∨ v' = zero t')
      ∧ (Forall (λ st, st = viaPtr) depth →
         t' = TypeDeref t ∧ length depth = ptrDepth t ∧ exposesUnmarshaler t = false)
  | Ret (foundUnmarshaler name cur depth) =>
      Forall (λ st, st = viaPtr) depth →
      length depth = ptrDepth t ∧ exposesUnmarshaler t = true
      ∧ ∃ u, TypeDeref t = TUnmarshaler name u
  | Panic k => k = ReflectSet
  | Stuck => True
  | OutOfFuel => False
  end.
Proof.
  revert t. induction v as [v IH] using chain_ind. intros t.
  rewrite indirect_eq.
  destruct t as [| | | | | |n| |e| | | | |name u];
    try (split_and!; [done|by rewrite indirect_eq|by left|by intros _]).
  - destruct v as [| | | | | |[[| |elem x|]|]| | | | | |];
      try (split_and!; [done|by rewrite indirect_eq|by left|by intros _]).
    specialize (IH x ltac:(simpl; lia) (TPtr elem)). munfold.
    destruct (indirect (TPtr elem) x) as [[name cur d|t' v' d]| | |]; try done; simpl.
    + intros Hd. by inversion Hd.
    + destruct IH as (Hp & Hfix & Hre & _). split_and!; [done..| |].
      * destruct Hre as [-> | ->]; [by left|by right].
      * intros Hd. by inversion Hd.
  - destruct v as [| | | | | | | |[x|]| | | |]; try done.
    + specialize (IH x ltac:(simpl; lia) e). munfold.
      destruct (indirect e x) as [[name cur d|t' v' d]| | |]; try done; simpl.
      * intros Hd. inversion Hd; subst. destruct IH as (Hlen & Hex & Hu); [done|].
        by rewrite Hlen.
      * destruct IH as (Hp & Hfix & Hre & Hty). split_and!; [done..| |].
        -- destruct Hre as [-> | ->]; [by left|by right].
        -- intros Hd. inversion Hd; subst. destruct Hty as (-> & Hlen & Hex); [done|].
           by rewrite Hlen.
    + destruct (isPtr e) eqn:Hp; [done|].
      destruct e as [| | | | | | | | | | | | |name u]; try done; simpl;
        try (split_and!; [done|first [done|by rewrite indirect_eq]|by right|by intros _]).
      intros _. split_and!; [done..|]. by eexists.
  - intros _. split_and!; [done..|]. by eexists.
Qed.

(** [indirect] stops at a value that is no pointer and that it would not
    go beyond. The destination rebuilt around that value is the destination
    itself, unless a nil pointer was replaced by a pointer to a zero value,
    which is then the value reached. When no interface was entered on the
    way, the value has the type with its pointers removed ([TypeDeref]) and
    the way is as long as the pointers of the type; likewise the
    [Unmarshaler] that is found has the type under the pointers. The only
    panic is the refused [reflect.Value.Set]. *)
Theorem indirect_stops_at_a_value t v :
  match indirect t v with
  | Ret (reached t' v' depth) =>
      isPtr t' = false
      ∧ indirect t' v' = Ret (reached t' v' [])
      ∧ (repoint depth v' = v ∨ v' = zero t')
      ∧ (Forall (λ st, st = viaPtr) depth →
         t' = TypeDeref t ∧ length depth = ptrDepth t ∧ exposesUnmarshaler t = false)
  | Ret (foundUnmarshaler name cur depth) =>
      Forall (λ st, st = viaPtr) depth →
      length depth = ptrDepth t ∧ exposesUnmarshaler t = true
      ∧ ∃ u, TypeDeref t = TUnmarshaler name u
  | Panic k => k = ReflectSet
  | Stuck => True
  | OutOfFuel => False
  end.
Proof. apply indirect_shape. Qed.

(** An interface that holds a non-nil pointer to a pointer is entered, as
    the first branch of the loop has it: the decode then goes on behind
    that pointer, and a custom decoder is found there. *)
Example indirect_enters_interface :
  indirect (TInterface 0)
    (VInterface (Some (DPtrPtr (TStruct [("K", ".key", TString)])
                         (VPtr (Some (VStruct [VString ""]))))))
  = Ret (reached (TStruct [("K", ".key", TString)]) (VStruct [VString ""])
           [viaInterface (TStruct [("K", ".key", TString)]); viaPtr])
  ∧ unmarshalByType world listDoc 3 (TInterface 0) [[0; 0]]
      (VInterface (Some (DPtrPtr (TStruct [("K", ".key", TString)])
                           (VPtr (Some (VStruct [VString ""])))))) "" ∅
    = Ret (VInterface (Some (DPtrPtr (TStruct [("K", ".key", TString)])
                               (VPtr (Some (VStruct [VString "one"]))))), None,
           {[ ".key" := textVal ]})
  ∧ indirect (TInterface 0)
      (VInterface (Some (DPtrPtr (TUnmarshaler "Count" (TInt 64)) (VPtr (Some (VInt 0))))))
    = Ret (foundUnmarshaler "Count" (VInt 0)
             [viaInterface (TUnmarshaler "Count" (TInt 64)); viaPtr]).
Proof. split_and!; vm_compute; reflexivity. Qed.

(** ** [NodeSelector] *)

(** [NodeSelector] builds a selection from the nodes it is given: each node
    once, the nodes it is given and no others; a list without repetition is
    taken as it is, so that building a selection from the nodes of a
    selection gives that selection back. *)
Theorem NodeSelector_selection nodes :
  NoDup (NodeSelector nodes)
  ∧ (∀ n, n ∈ NodeSelector nodes ↔ n ∈ nodes)
  ∧ (NoDup nodes → NodeSelector nodes = nodes)
  ∧ NodeSelector (NodeSelector nodes) = NodeSelector nodes.
Proof.
  unfold NodeSelector.
  destruct (appendWithoutDuplicates_spec [] nodes) as (Hnd & Hin & _); [constructor|].
  split; [done|]. split.
  { intros n. rewrite Hin, elem_of_nil. naive_solver. }
  split.
  - intros Hnodes. by apply (appendWithoutDuplicates_NoDup [] nodes).
  - by apply (appendWithoutDuplicates_NoDup []).
Qed.

(** ** The entry points *)

(** [Unmarshal] is [NewDecoder] followed by [Decode] whenever the reader
    gives a document or an error; an error of the reader is returned as it
    is, without a [CannotUnmarshalError] around it, and nothing is decoded. *)
Theorem Unmarshal_is_NewDecoder_Decode
    (NewDocumentFromReader : string → option Node * option Error) W bs v c :
  NewDocumentFromReader bs ≠ (None, None) →
  Top.Unmarshal NewDocumentFromReader W bs v c
  = Top.Decode W (Top.NewDecoder NewDocumentFromReader bs) v c
  ∧ ∀ e, (NewDocumentFromReader bs).2 = Some e →
      Top.Unmarshal NewDocumentFromReader W bs v c
      = Ret (snd <$> v, Some (Top.readerError e), c).
Proof.
  intros Hparse. unfold Top.Unmarshal, Top.Decode, Top.NewDecoder.
  destruct (NewDocumentFromReader bs) as [[d|] [e|]]; simpl; try done.
  - split; [done|]. by intros e' [= <-].
  - split; [done|]. by intros e' [= <-].
Qed.

Lemma Unmarshal_is_NewDecoder_Decode_witness :
  let reader := λ bs : string,
    if String.eqb bs "<ul>" then (Some listDoc, None)
    else (None, Some (UserError "unexpected EOF")) in
  let dest := Some (TPtr (TSlice TString), VPtr (Some (VSlice []))) in
  reader "" ≠ (None, None)
  ∧ (Top.Unmarshal reader world "" dest ∅
     = Top.Decode world (Top.NewDecoder reader "") dest ∅
     ∧ ∀ e, (reader "").2 = Some e →
         Top.Unmarshal reader world "" dest ∅
         = Ret (snd <$> dest, Some (Top.readerError e), ∅)).
Proof.
  intros reader dest. split; [done|].
  apply (Unmarshal_is_NewDecoder_Decode reader world "" dest ∅). done.
Defined.

(** ** Nothing matched *)

Lemma childrenUntilMatch_nil W doc sel : childrenUntilMatch W doc [] sel = Ret [].
Proof. unfold childrenUntilMatch. rewrite Children_nil. by destruct (height doc). Qed.

(** When the selection is empty, a slice is left as it is and a mapping
    with a key selector is left with the entries it has (a nil map becomes
    an empty map); neither is an error and no element is decoded. *)
Theorem containers_of_empty_selection W doc (rec : Decoder) keyT eleT elems m tag keySel c :
  selector tag 1 = Ret keySel → keySel ≠ "" →
  unmarshalSlice rec eleT [] (VSlice elems) tag c = Ret (VSlice elems, None, c)
  ∧ unmarshalMap W doc rec keyT eleT [] (VMap m) tag c
    = Ret (VMap (Some (default [] m)), None, c).
Proof.
  intros Hsel Hne. split; [done|].
  unfold unmarshalMap. munfold. rewrite Hsel.
  destruct (String.eqb_spec keySel ""); [done|]. by rewrite childrenUntilMatch_nil.
Qed.

Lemma containers_of_empty_selection_witness :
  selector "ul,.key" 1 = Ret ".key" ∧ ".key" ≠ ""
  ∧ unmarshalSlice (unmarshalByType world listDoc 1) TString [] (VSlice [VString "kept"])
      "ul,.key" ∅
    = Ret (VSlice [VString "kept"], None, ∅)
  ∧ unmarshalMap world listDoc (unmarshalByType world listDoc 1) TString TString []
      (VMap None) "ul,.key" ∅
    = Ret (VMap (Some (default [] None)), None, ∅).
Proof.
  split; [reflexivity|]. split; [done|].
  apply (containers_of_empty_selection world listDoc (unmarshalByType world listDoc 1)
           TString TString [VString "kept"] None "ul,.key" ".key" ∅); [reflexivity|done].
Defined.

(** ** Integers *)

Lemma wrapSigned_range bits i :
  (0 < bits)%Z →
  (- 2 ^ (bits - 1) ≤ wrapSigned bits i < 2 ^ (bits - 1))%Z
  ∧ ((- 2 ^ (bits - 1) ≤ i < 2 ^ (bits - 1))%Z → wrapSigned bits i = i).
Proof.
  intros Hbits. unfold wrapSigned.
  assert (2 ^ bits = 2 * 2 ^ (bits - 1))%Z as Hpow.
  { replace bits with (Z.succ (bits - 1)) at 1 by lia. rewrite Z.pow_succ_r; lia. }
  assert (0 < 2 ^ (bits - 1))%Z as Hpos by (apply Z.pow_pos_nonneg; lia).
  pose proof (Z.mod_pos_bound i (2 ^ bits)) as Hmod.
  split.
  - destruct (Z.ltb_spec (i mod 2 ^ bits) (2 ^ (bits - 1))); lia.
  - intros Hi. destruct (Z.le_gt_cases 0 i) as [Hnn|Hneg].
    + rewrite Z.mod_small by lia. destruct (Z.ltb_spec i (2 ^ (bits - 1))); lia.
    + assert (i mod 2 ^ bits = i + 2 ^ bits)%Z as ->.
      { symmetry. apply (Z.mod_unique_pos _ _ (-1)); lia. }
      destruct (Z.ltb_spec (i + 2 ^ bits) (2 ^ (bits - 1))); lia.
Qed.

(** A number that parses is stored in an integer destination of [bits]
    bits without error: as it is when it fits, and otherwise wrapped to the
    width of the destination, no error being returned for the overflow. *)
Theorem integer_is_stored_wrapped W str bits v i :
  ParseInt W str = Some i → (0 < bits)%Z →
  ∃ i',
    unmarshalLiteral W str (TInt bits) v = (VInt i', None)
    ∧ (- 2 ^ (bits - 1) ≤ i' < 2 ^ (bits - 1))%Z
    ∧ (i' mod 2 ^ bits = i mod 2 ^ bits)%Z
    ∧ ((- 2 ^ (bits - 1) ≤ i < 2 ^ (bits - 1))%Z → i' = i).
Proof.
  intros Hparse Hbits. exists (wrapSigned bits i). simpl. rewrite Hparse.
  destruct (wrapSigned_range bits i Hbits) as [Hrange Hfit].
  split; [done|]. split; [done|]. split; [|done].
  unfold wrapSigned. destruct (_ <? _)%Z.
  - apply Z.mod_mod. apply Z.pow_nonzero; lia.
  - rewrite <- (Z.mod_add _ 1) by (apply Z.pow_nonzero; lia).
    replace (i mod 2 ^ bits - 2 ^ bits + 1 * 2 ^ bits)%Z with (i mod 2 ^ bits)%Z by lia.
    apply Z.mod_mod. apply Z.pow_nonzero; lia.
Qed.

Lemma integer_is_stored_wrapped_witness :
  ParseInt world "300" = Some 300%Z ∧ (0 < 8)%Z
  ∧ ∃ i',
      unmarshalLiteral world "300" (TInt 8) (VInt 0) = (VInt i', None)
      ∧ (- 2 ^ (8 - 1) ≤ i' < 2 ^ (8 - 1))%Z
      ∧ (i' mod 2 ^ 8 = 300 mod 2 ^ 8)%Z
      ∧ ((- 2 ^ (8 - 1) ≤ 300 < 2 ^ (8 - 1))%Z → i' = 300%Z).
Proof.
  split; [reflexivity|]. split; [reflexivity|].
  apply (integer_is_stored_wrapped world "300" 8 (VInt 0) 300); reflexivity.
Defined.

(** ** Key nodes *)

Lemma elem_of_generation doc s k q :
  q ∈ generation doc s k →
  ∃ p r, p ∈ s ∧ q = p ++ r ∧ length r = k
         ∧ (1 ≤ k → ∃ n, nodeAt doc q = Some n ∧ isElement n = true).
Proof.
  revert q. induction k as [|k IH]; intros q; simpl.
  - intros Hq. exists q, []. rewrite app_nil_r. split_and!; [done..|lia].
  - intros (q' & Hq' & Hq)%elem_of_Children.
    destruct (IH _ Hq') as (p & r & Hp & -> & Hr & _).
    apply elem_of_childPtrs in Hq as (name & attrs & kids & i & n & Hn & Hi & Hel & ->).
    exists p, (r ++ [i]). rewrite app_assoc, length_app. simpl.
    split_and!; [done|done|lia|]. intros _. exists n. split; [|done].
    rewrite nodeAt_app, Hn. simpl. by rewrite Hi.
Qed.

(** The key nodes that the search returns are the selection itself, when
    nothing matched, or else: each once, all elements that match the key
    selector, and all strictly below a node of the selection. *)
Theorem key_nodes_match_below W doc s sel keys :
  childrenUntilMatch W doc s sel = Ret keys →
  keys = s
  ∨ (keys ≠ [] ∧ NoDup keys
     ∧ ∀ q, q ∈ keys →
         matches W sel doc q = true
         ∧ ∃ p r n, p ∈ s ∧ q = p ++ r ∧ r ≠ []
                    ∧ nodeAt doc q = Some n ∧ isElement n = true).
Proof.
  intros Hkeys.
  destruct (childrenUntilMatch_spec W doc s sel) as (r & Hr & Hspec).
  rewrite Hkeys in Hr. injection Hr as <-.
  destruct Hspec as [(k & Hk & Hne & _ & ->)|[_ ->]]; [right|by left].
  split; [done|]. split.
  { apply NoDup_filter. destruct k as [|k]; [lia|]. simpl. apply NoDup_appendWithoutDuplicates. }
  intros q [Hq Hgen]%list_elem_of_filter. split; [done|].
  destruct (elem_of_generation _ _ _ _ Hgen) as (p & r & Hp & -> & Hlen & Hel).
  destruct (Hel Hk) as (n & Hn & Hisel). exists p, r, n.
  split_and!; [done..| |done|done]. intros ->. simpl in Hlen. lia.
Qed.

Lemma key_nodes_match_below_witness :
  childrenUntilMatch world listDoc [[0]] ".val" = Ret valNodes
  ∧ (valNodes = [[0]]
     ∨ (valNodes ≠ [] ∧ NoDup valNodes
        ∧ ∀ q, q ∈ valNodes →
            matches world ".val" listDoc q = true
            ∧ ∃ p r n, p ∈ [[0]] ∧ q = p ++ r ∧ r ≠ []
                       ∧ nodeAt listDoc q = Some n ∧ isElement n = true)).
Proof.
  split; [vm_compute; reflexivity|].
  apply (key_nodes_match_below world listDoc [[0]] ".val" valNodes).
  vm_compute. reflexivity.
Defined.

(** ** The errors of the entry point *)

(** An error of [UnmarshalSelection] is a [CannotUnmarshalError]. Its
    reason is "non-pointer" exactly when the destination is no pointer, the
    nil interface included, and "nil value" exactly when the destination is
    a nil pointer; in both cases nothing was decoded. *)
Theorem UnmarshalSelection_errors W doc s iface c v' e c' :
  UnmarshalSelection W doc s iface c = Ret (v', Some e, c') →
  ∃ V reason inner val fld,
    e = CannotUnmarshalError V reason inner val fld
    ∧ (reason = nonPointer ↔ ∀ t v, iface = Some (t, v) → isPtr t = false)
    ∧ (reason = nilValue ↔ ∃ t, iface = Some (t, VPtr None) ∧ isPtr t = true)
    ∧ (reason = nonPointer ∨ reason = nilValue → v' = snd <$> iface ∧ c' = c).
Proof.
  unfold UnmarshalSelection. destruct iface as [[t v]|].
  2:{ intros [= <- <- <-]. eexists _, _, _, _, _. split; [done|]. split_and!.
      - split; [done|]. done.
      - split; [done|]. by intros (? & ? & _).
      - done. }
  destruct (isPtr t) eqn:Hptr; simpl.
  2:{ intros [= <- <- <-]. eexists _, _, _, _, _. split; [done|]. split_and!.
      - split; [|done]. intros _ t' v0 [= <- <-]. done.
      - split; [done|]. intros (t0 & Heq & Ht0). simplify_eq. congruence.
      - done. }
  assert (∀ m : M (option Value * option Error),
    (∀ x err cx, m c = Ret (x, Some err, cx) →
       ∃ V reason inner val fld,
         err = CannotUnmarshalError V reason inner val fld
         ∧ reason ∈ [customUnmarshalError; typeConversionError; arrayLengthMismatch;
                     missingValueSelector]) →
    v ≠ VPtr None →
    m c = Ret (v', Some e, c') →
    ∃ V reason inner val fld,
      e = CannotUnmarshalError V reason inner val fld
      ∧ (reason = nonPointer ↔ ∀ t0 v0, Some (t, v) = Some (t0, v0) → isPtr t0 = false)
      ∧ (reason = nilValue ↔ ∃ t0, Some (t, v) = Some (t0, VPtr None) ∧ isPtr t0 = true)
      ∧ (reason = nonPointer ∨ reason = nilValue → v' = snd <$> Some (t, v) ∧ c' = c))
    as Hrun.
  { intros m Hm Hv Hmc. destruct (Hm _ _ _ Hmc) as (V & reason & inner & val & fld & -> & Hin).
    exists V, reason, inner, val, fld. split; [done|].
    assert (reason ≠ nonPointer ∧ reason ≠ nilValue) as [Hnp Hnv].
    { split; intros ->; set_solver. }
    split_and!.
    - split; [done|]. intros Hall. specialize (Hall t v eq_refl). congruence.
    - split; [done|]. intros (t0 & Heq & _). by simplify_eq.
    - intros [?|?]; done. }
  assert (∀ x err cx,
    (r ← lift (indirect t v);
     match r with
     | foundUnmarshaler name cur depth =>
         let '(cur', err) := UnmarshalHTML W name doc s cur in
         mret (Some (repoint depth cur'), wrapUnmErr err None)
     | reached t' v0 depth =>
         '(v'', err) ← unmarshalByType W doc (fuelFor t' + ifaceFuel v0) t' s v0 "";
         mret (Some (repoint depth v''), err)
     end) c = Ret (x, Some err, cx) →
    ∃ V reason inner val fld,
      err = CannotUnmarshalError V reason inner val fld
      ∧ reason ∈ [customUnmarshalError; typeConversionError; arrayLengthMismatch;
                  missingValueSelector]) as Hshape.
  { intros x err cx. munfold. destruct (indirect t v) as [[name cur d|t' v0 d]| | |]; try done.
    - destruct (UnmarshalHTML W name doc s cur) as [cur' [err'|]]; simpl; [|done].
      intros [= <- <- <-]. eexists _, _, _, _, _. split; [done|]. set_solver.
    - destruct (unmarshalByType W doc (fuelFor t' + ifaceFuel v0) t' s v0 "" c) as [[[y erry] cy]| | |] eqn:Hd;
        try done.
      intros [= <- -> <-]. by eapply dispatcher_error. }
  destruct v as [| | | | | | | |[x|]| | | |]; try (apply Hrun; [exact Hshape|done]).
  intros [= <- <- <-]. eexists _, _, _, _, _. split; [done|]. split_and!.
  - split; [done|]. intros Hall. specialize (Hall t _ eq_refl). congruence.
  - split; [|done]. intros _. by exists t.
  - done.
Qed.

Lemma UnmarshalSelection_errors_witness :
  let iface := Some (TString, VString "not a pointer") in
  let e := CannotUnmarshalError iface nonPointer None "" noFldOrIdx in
  UnmarshalSelection world listDoc [[]] iface ∅ = Ret (Some (VString "not a pointer"), Some e, ∅)
  ∧ ∃ V reason inner val fld,
      e = CannotUnmarshalError V reason inner val fld
      ∧ (reason = nonPointer ↔ ∀ t v, iface = Some (t, v) → isPtr t = false)
      ∧ (reason = nilValue ↔ ∃ t, iface = Some (t, VPtr None) ∧ isPtr t = true)
      ∧ (reason = nonPointer ∨ reason = nilValue →
         Some (VString "not a pointer") = snd <$> iface ∧ (∅ : gmap string valFn) = ∅).
Proof.
  intros iface e. split; [reflexivity|].
  apply (UnmarshalSelection_errors world listDoc [[]] iface ∅ (Some (VString "not a pointer"))
           e ∅). reflexivity.
Defined.

(** ** Records and pointers inside containers *)

Lemma indirect_record t fields v :
  TypeDeref t = TStruct fields →
  match indirect t v with
  | Ret (reached t' _ _) => t' = TStruct fields
  | Ret (foundUnmarshaler _ _ _) => False
  | _ => True
  end.
Proof.
  revert v. induction t; intros v Ht; try done; rewrite indirect_eq; [|done].
  simpl in Ht. destruct v as [| | | | | | | |[x|]| | | |]; try done.
  - specialize (IHt x Ht). munfold. by destruct (indirect t x) as [[]| | |].
  - destruct (isPtr t) eqn:Hp; [done|]. by destruct t.
Qed.

(** A record, directly or behind pointers, is decoded from the tags of its
    own fields: the tag that reaches it, with the selectors that are left
    in it, is dropped. *)
Theorem record_drops_remaining_selectors W doc fuel t fields s v tag1 tag2 c :
  TypeDeref t = TStruct fields →
  unmarshalByType W doc fuel t s v tag1 c = unmarshalByType W doc fuel t s v tag2 c.
Proof.
  intros Ht. destruct fuel as [|fuel]; [done|].
  cbn [unmarshalByType]. unfold unmarshalByTypeBody. munfold.
  pose proof (indirect_record t fields v Ht) as Hind.
  destruct (indirect t v) as [[name cur d|t' v' d]| | |]; try done.
  subst t'. unfold dispatch.
  by destruct (appendNodes v' s).
Qed.

Lemma record_drops_remaining_selectors_witness :
  let fields := [("K", ".key", TString)] in
  TypeDeref (TPtr (TStruct fields)) = TStruct fields
  ∧ unmarshalByType world listDoc 2 (TPtr (TStruct fields)) [[0; 0]] (VPtr None) "li,[bar],[baz]" ∅
    = unmarshalByType world listDoc 2 (TPtr (TStruct fields)) [[0; 0]] (VPtr None) "" ∅.
Proof.
  intros fields. split; [reflexivity|].
  apply (record_drops_remaining_selectors world listDoc 2 (TPtr (TStruct fields)) fields
           [[0; 0]] (VPtr None) "li,[bar],[baz]" "" ∅). reflexivity.
Defined.

(** A slice whose elements are pointers to pointers cannot receive an
    element: the element that was decoded for the first node is a pointer
    to the fully dereferenced type, and appending it panics. *)
Theorem slice_of_pointer_pointers_panics (rec : Decoder) e p s elems tag c newV c1 :
  rec (newOf (TPtr (TPtr e))).1 [p] (newOf (TPtr (TPtr e))).2 tag c = Ret (newV, None, c1) →
  unmarshalSlice rec (TPtr (TPtr e)) (p :: s) (VSlice elems) tag c = Panic ReflectSet.
Proof.
  intros Hrec. unfold unmarshalSlice. cbn [sliceLoop]. unfold newOf in *. munfold.
  simpl in Hrec. simpl. by rewrite Hrec.
Qed.

Lemma slice_of_pointer_pointers_panics_witness :
  let rec := unmarshalByType world listDoc 1 in
  rec (newOf (TPtr (TPtr TString))).1 [firstKey] (newOf (TPtr (TPtr TString))).2 ".key" ∅
  = Ret (VPtr (Some (VString "one")), None, {[ ".key" := textVal ]})
  ∧ unmarshalSlice rec (TPtr (TPtr TString)) (firstKey :: []) (VSlice []) ".key" ∅
    = Panic ReflectSet.
Proof.
  intros rec. split; [vm_compute; reflexivity|].
  apply (slice_of_pointer_pointers_panics rec TString firstKey [] [] ".key" ∅
           (VPtr (Some (VString "one"))) {[ ".key" := textVal ]}).
  vm_compute. reflexivity.
Defined.

(** ** Mappings that succeed *)

Lemma mapLoop_success W doc (rec : Decoder) keyT eleT tag valTag nodes entries c entries' c' :
  mapLoop W doc rec keyT eleT tag valTag nodes entries c = Ret (entries', None, c') →
  ∃ pairs : list (Value * Value),
    length pairs = length nodes
    ∧ entries' = foldl (λ acc kv, setMapIndex W kv.1 kv.2 acc) entries pairs
    ∧ ∀ j p kv, nodes !! j = Some p → pairs !! j = Some kv →
        ∃ newK newV c1 c2 c3,
          rec (newOf keyT).1 [p] (newOf keyT).2 tag c1 = Ret (newK, None, c2)
          ∧ rec (newOf eleT).1 [p] (newOf eleT).2 valTag c2 = Ret (newV, None, c3)
          ∧ slotOfNew keyT newK = Ret kv.1 ∧ slotOfNew eleT newV = Ret kv.2.
Proof.
  revert entries c. induction nodes as [|p nodes IH]; intros entries c.
  - intros [= <- <-]. exists []. split; [done|]. split; [done|].
    intros j q kv Hq. by rewrite lookup_nil in Hq.
  - cbn [mapLoop]. munfold.
    destruct (mapPair W doc rec keyT eleT tag valTag p entries c)
      as [[[entries1 [e|]] c1]| | |] eqn:Hpair; try done.
    intros (pairs & Hlen & -> & Hpairs)%IH.
    unfold mapPair, newOf in Hpair. munfold.
    destruct (rec _ [p] _ tag c) as [[[newK [ek|]] ck]| | |] eqn:Hk; try done.
    { by destruct (valFunc valTag ck) as [[? ?]| | |]. }
    destruct (rec _ [p] _ valTag ck) as [[[newV [ev|]] cv]| | |] eqn:Hv; try done.
    destruct (slotOfNew eleT newV) as [x| | |] eqn:Hx; try done.
    destruct (slotOfNew keyT newK) as [k| | |] eqn:Hkk; try done.
    injection Hpair as <- <-.
    exists ((k, x) :: pairs). split; [simpl; by rewrite Hlen|]. split; [done|].
    intros [|j] q kv Hq Hkv; simplify_eq/=.
    + by exists newK, newV, c, ck, cv.
    + by eapply Hpairs.
Qed.

(** A mapping decode that succeeds has decoded one pair from every key
    node, the key with the tag and the value with the popped tag, and has
    stored the pairs in the order of the key nodes on top of the entries
    that the map already held. *)
Theorem unmarshalMap_success
    W doc (rec : Decoder) keyT eleT s m tag keySel keys c v' c' :
  selector tag 1 = Ret keySel → keySel ≠ "" →
  childrenUntilMatch W doc s keySel = Ret keys →
  unmarshalMap W doc rec keyT eleT s (VMap m) tag c = Ret (v', None, c') →
  ∃ pairs : list (Value * Value),
    length pairs = length keys
    ∧ v' = VMap (Some (foldl (λ acc kv, setMapIndex W kv.1 kv.2 acc) (default [] m) pairs))
    ∧ ∀ j p kv, keys !! j = Some p → pairs !! j = Some kv →
        ∃ newK newV c1 c2 c3,
          rec (newOf keyT).1 [p] (newOf keyT).2 tag c1 = Ret (newK, None, c2)
          ∧ rec (newOf eleT).1 [p] (newOf eleT).2 (popVal tag) c2 = Ret (newV, None, c3)
          ∧ slotOfNew keyT newK = Ret kv.1 ∧ slotOfNew eleT newV = Ret kv.2.
Proof.
  intros Hsel Hne Hkeys. unfold unmarshalMap. munfold. rewrite Hsel.
  destruct (String.eqb_spec keySel ""); [done|]. rewrite Hkeys.
  unfold mapEntries. munfold.
  destruct (mapLoop W doc rec keyT eleT tag (popVal tag) keys (default [] m) c)
    as [[[entries' [e|]] c1]| | |] eqn:Hloop; try done.
  intros [= <- <-]. apply mapLoop_success in Hloop as (pairs & Hlen & -> & Hpairs).
  by exists pairs.
Qed.

Lemma unmarshalMap_success_witness :
  let rec := unmarshalByType world listDoc 1 in
  let v' := VMap (Some [(VString "one", VString "one"); (VString "two", VString "two");
                        (VString "three", VString "three")]) in
  let c' : gmap string valFn := {[ "ul,.key" := textVal; "ul" := textVal ]} in
  let keys := [[0; 0; 0]; [0; 1; 0]; [0; 2; 0]] in
  selector "ul,.key" 1 = Ret ".key" ∧ ".key" ≠ ""
  ∧ childrenUntilMatch world listDoc [[0]] ".key" = Ret keys
  ∧ unmarshalMap world listDoc rec TString TString [[0]] (VMap None) "ul,.key" ∅
    = Ret (v', None, c')
  ∧ ∃ pairs : list (Value * Value),
      length pairs = length keys
      ∧ v' = VMap (Some (foldl (λ acc kv, setMapIndex world kv.1 kv.2 acc)
                           (default [] None) pairs))
      ∧ ∀ j p kv, keys !! j = Some p → pairs !! j = Some kv →
          ∃ newK newV c1 c2 c3,
            rec (newOf TString).1 [p] (newOf TString).2 "ul,.key" c1 = Ret (newK, None, c2)
            ∧ rec (newOf TString).1 [p] (newOf TString).2 (popVal "ul,.key") c2
              = Ret (newV, None, c3)
            ∧ slotOfNew TString newK = Ret kv.1 ∧ slotOfNew TString newV = Ret kv.2.
Proof.
  intros rec v' c' keys. split; [reflexivity|]. split; [done|].
  split; [vm_compute; reflexivity|]. split; [vm_compute; reflexivity|].
  apply (unmarshalMap_success world listDoc rec TString TString [[0]] None "ul,.key" ".key"
           keys ∅ v' c'); [reflexivity|done|vm_compute; reflexivity|vm_compute; reflexivity].
Defined.
